(** * OS RACER kernel: physics integrator, boundary and collision detector

    A shallow embedding of the simulation kernel of [main.cpp]: the vehicle
    record [PlayerPCB], the track model, the fixed-step physics block of
    [PhysicsThreadProc], [EnforceBoundaryProtection],
    [CheckObstacleCollision], the obstacle-warning scan, the accumulator
    loop, and the one-shot edge flags shared by [InputThreadProc] and
    [RenderThreadProc].

    Numbers are modelled as the code has them.  A C++ [float] is an IEEE-754
    binary32 value and a [double] a binary64 value, both taken from the
    Standard Library's executable specification of floating-point
    arithmetic ([SpecFloat], round to nearest even, every operation rounded
    to its own format).  An [int] is a [Z]; the only [int]s of the kernel
    are the steering intent and segment indices, which stay far away from
    the 32-bit range.

    The globals of the program are gathered in one record, [World], and
    every function of the physics thread is a function from worlds to
    worlds.  [PhysicsStep], [EnforceBoundaryProtection] and
    [CheckObstacleCollision] each run under [g_player_mutex], so what is
    proved of one of them holds whatever the other threads do; what is
    proved of a whole iteration, or of several, is proved of the physics
    thread running them with no write of another thread in between.  The
    atomic flags are sequentially consistent, and a run of the sampler
    against a consumer is an interleaving of their atomic operations. *)

From Stdlib Require Import ZArith List Bool Lia.
From Stdlib Require Import Floats.SpecFloat.
Import ListNotations.

Local Open Scope Z_scope.

(** ** IEEE-754 binary32: the C++ [float] *)

Module F32.

Definition prec : Z := 24.
Definition emax : Z := 128.

Definition float : Type := spec_float.

Definition add : float -> float -> float := SFadd prec emax.
Definition sub : float -> float -> float := SFsub prec emax.
Definition mul : float -> float -> float := SFmul prec emax.
Definition div : float -> float -> float := SFdiv prec emax.
Definition neg : float -> float := SFopp.

(** The comparison operators of C++ on [float]; each is false as soon as
    one operand is a NaN. *)
Definition lt (a b : float) : bool := SFltb a b.
Definition le (a b : float) : bool := SFleb a b.
Definition ge (a b : float) : bool :=
  match SFcompare a b with
  | Some Gt | Some Eq => true
  | _ => false
  end.
Definition gt (a b : float) : bool :=
  match SFcompare a b with
  | Some Gt => true
  | _ => false
  end.

(** [max] and [min]: the program includes [<windows.h>] without
    [NOMINMAX], so the unqualified [max(a, b)] and [min(a, b)] of the
    source are the macros [(((a) > (b)) ? (a) : (b))] and
    [(((a) < (b)) ? (a) : (b))], not [std::max] and [std::min].  A
    comparison with a NaN is false, so either macro returns its second
    argument when one of the two is a NaN. *)
Definition max (a b : float) : float := if gt a b then a else b.
Definition min (a b : float) : float := if lt a b then a else b.

(** Conversion of an integer, [(float)n]. *)
Definition of_int (n : Z) : float := binary_normalize prec emax n 0 false.

(** The decimal literal [m * 10^-k], correctly rounded: [m] and [10^k]
    are exactly representable for every literal of the program, so the
    correctly rounded quotient is the correctly rounded literal. *)
Definition dec (m : Z) (k : Z) : float := div (of_int m) (of_int (10 ^ k)).

Definition zero : float := S754_zero false.

Definition is_nan (a : float) : bool :=
  match a with
  | S754_nan => true
  | _ => false
  end.

End F32.

(** ** IEEE-754 binary64: the C++ [double] *)

Module F64.

Definition prec : Z := 53.
Definition emax : Z := 1024.

Definition double : Type := spec_float.

Definition add : double -> double -> double := SFadd prec emax.
Definition sub : double -> double -> double := SFsub prec emax.

Definition lt (a b : double) : bool := SFltb a b.
Definition ge (a b : double) : bool :=
  match SFcompare a b with
  | Some Gt | Some Eq => true
  | _ => false
  end.

Definition of_int (n : Z) : double := binary_normalize prec emax n 0 false.

(** Widening [float] to [double]: exact, the mantissa is re-aligned. *)
Definition of_float (a : F32.float) : double :=
  match a with
  | S754_finite s m e => binary_round prec emax s m e
  | _ => a
  end.

(** Narrowing [(float)d]: rounds to binary32. *)
Definition to_float (a : double) : F32.float :=
  match a with
  | S754_finite s m e => binary_round F32.prec F32.emax s m e
  | _ => a
  end.

Definition zero : double := S754_zero false.

End F64.

Abbreviation float := F32.float.
Abbreviation double := F64.double.

(** ** Kernel physics parameter table *)

Definition PHYSICS_HZ : float := F32.of_int 240.
Definition DELTA_T : float := F32.div (F32.of_int 1) PHYSICS_HZ.

Definition ROAD_WIDTH_LIMIT : float := F32.of_int 1.
Definition PLAYER_HALF_WIDTH : float := F32.dec 18 2.

Definition MAX_SPEED : float := F32.of_int 50.
Definition ACCELERATION : float := F32.of_int 17.
Definition DECELERATION : float := F32.of_int 20.
Definition FRICTION : float := F32.dec 9999 4.

Definition LATERAL_FACTOR : float := F32.dec 4 4.
Definition STEER_COMPENSATION : float := F32.dec 2 3.

Definition HEADING_TURN_SPEED : float := F32.dec 4 1.
Definition HEADING_DRIFT_FACTOR : float := F32.dec 4 3.

(** ** Data model *)

Inductive GameState : Type :=
| BOOT_MENU | MAP_SELECT | KERNEL_RUNNING | GAME_WIN | GAME_OVER | SYSTEM_HALT.

Definition GameState_eqb (a b : GameState) : bool :=
  match a, b with
  | BOOT_MENU, BOOT_MENU | MAP_SELECT, MAP_SELECT
  | KERNEL_RUNNING, KERNEL_RUNNING | GAME_WIN, GAME_WIN
  | GAME_OVER, GAME_OVER | SYSTEM_HALT, SYSTEM_HALT => true
  | _, _ => false
  end.

Record PlayerPCB : Type := mkPlayerPCB {
  fX_Register : float;
  fSpeed : float;
  fDistance : float;
  fCurvature : float;
  fPlayerCurvature : float;
  fHeadingAngle : float;
  bCrashed : bool;
  nSteerState : Z
}.

(** [PlayerPCB::Reset]: every field back to its default initialiser. *)
Definition PlayerPCB_Reset : PlayerPCB :=
  mkPlayerPCB F32.zero F32.zero F32.zero F32.zero F32.zero F32.zero false 0.

Record Obstacle : Type := mkObstacle {
  fSegDistance : float;
  fOffsetX : float;
  fWidth : float
}.

Record TrackSegment : Type := mkTrackSegment {
  segCurvature : float;
  segDistance : float;
  vecObstacles : list Obstacle
}.

(** The process-wide state the physics thread reads and writes: the PCB,
    the game state cell, the loaded track, the input registers and the
    signal cells. *)
Record World : Type := mkWorld {
  player : PlayerPCB;
  currentState : GameState;
  vecTrack : list TrackSegment;
  fTotalTrackLength : float;
  input_steer : Z;
  input_accel : bool;
  input_brake : bool;
  warnObstacle : bool;
  warnObstacleDist : float;
  warnObstacleOffsetX : float;
  sound_crash : bool;
  sound_gameover : bool;
  sound_win : bool
}.

(** ** Boundary and collision *)

(** The five writes both detectors perform on a crash:
    [bCrashed = true; fSpeed = 0.0f; currentState = GAME_OVER;
     sound_crash.store(true); sound_gameover.store(true)]. *)
Definition crash (w : World) : World :=
  let p := player w in
  mkWorld
    (mkPlayerPCB (fX_Register p) F32.zero (fDistance p) (fCurvature p)
       (fPlayerCurvature p) (fHeadingAngle p) true (nSteerState p))
    GAME_OVER (vecTrack w) (fTotalTrackLength w)
    (input_steer w) (input_accel w) (input_brake w)
    (warnObstacle w) (warnObstacleDist w) (warnObstacleOffsetX w)
    true true (sound_win w).

(** The road-limit test of [EnforceBoundaryProtection]:
    [playerLeft <= -ROAD_WIDTH_LIMIT || playerRight >= ROAD_WIDTH_LIMIT]. *)
Definition off_road (x : float) : bool :=
  let playerLeft := F32.sub x PLAYER_HALF_WIDTH in
  let playerRight := F32.add x PLAYER_HALF_WIDTH in
  F32.le playerLeft (F32.neg ROAD_WIDTH_LIMIT)
  || F32.ge playerRight ROAD_WIDTH_LIMIT.

Definition EnforceBoundaryProtection (w : World) : World :=
  if off_road (fX_Register (player w)) then
    if negb (bCrashed (player w)) then crash w else w
  else w.

(** The segment cursor of [CheckObstacleCollision]: the loop
    [while (section < size && pos >= vecTrack[section].fDistance)],
    run over the segments from index [section] on.  It yields the remaining
    offset, the index reached, the start distance of that segment, and the
    segment itself when the index is still inside the track. *)
Fixpoint collision_cursor (rest : list TrackSegment)
    (pos : float) (section : Z) (fSegStartDistance : float)
  : float * Z * float * option TrackSegment :=
  match rest with
  | [] => (pos, section, fSegStartDistance, None)
  | seg :: rest' =>
      if F32.ge pos (segDistance seg) then
        collision_cursor rest'
          (F32.sub pos (segDistance seg))
          (section + 1)
          (F32.add fSegStartDistance (segDistance seg))
      else (pos, section, fSegStartDistance, Some seg)
  end.

(** The longitudinal window of an obstacle:
    [fDistInSeg >= obs.fSegDistance - 0.5f &&
     fDistInSeg <= obs.fSegDistance + 0.5f]. *)
Definition in_window (fDistInSeg : float) (obs : Obstacle) : bool :=
  F32.ge fDistInSeg (F32.sub (fSegDistance obs) (F32.dec 5 1))
  && F32.le fDistInSeg (F32.add (fSegDistance obs) (F32.dec 5 1)).

(** The lateral overlap test:
    [max(fPlayerLeft, fObsLeft) < min(fPlayerRight, fObsRight)]. *)
Definition overlaps (x : float) (obs : Obstacle) : bool :=
  let fPlayerLeft := F32.sub x PLAYER_HALF_WIDTH in
  let fPlayerRight := F32.add x PLAYER_HALF_WIDTH in
  let fObsLeft := F32.sub (fOffsetX obs) (F32.div (fWidth obs) (F32.of_int 2)) in
  let fObsRight := F32.add (fOffsetX obs) (F32.div (fWidth obs) (F32.of_int 2)) in
  F32.lt (F32.max fPlayerLeft fObsLeft) (F32.min fPlayerRight fObsRight).

Definition hits (fDistInSeg x : float) (obs : Obstacle) : bool :=
  in_window fDistInSeg obs && overlaps x obs.

(** The [for] loop over the obstacles of the active segment, together with
    the number of obstacles it has looked at when it leaves: the loop
    returns at the first hit. *)
Fixpoint scan_obstacles (obstacles : list Obstacle) (fDistInSeg x : float)
    (visited : nat) : bool * nat :=
  match obstacles with
  | [] => (false, visited)
  | obs :: rest =>
      if in_window fDistInSeg obs then
        if overlaps x obs then (true, S visited)
        else scan_obstacles rest fDistInSeg x (S visited)
      else scan_obstacles rest fDistInSeg x (S visited)
  end.

Definition CheckObstacleCollision (w : World) : World :=
  if bCrashed (player w) || negb (GameState_eqb (currentState w) KERNEL_RUNNING)
  then w
  else
    match collision_cursor (vecTrack w) (fDistance (player w)) 0 F32.zero with
    | (fDistInSeg, _, _, Some currentSeg) =>
        if fst (scan_obstacles (vecObstacles currentSeg) fDistInSeg
                  (fX_Register (player w)) 0)
        then crash w
        else w
    | (_, _, _, None) => w
    end.

(** ** The physics thread *)

(** [const double dt = DELTA_T;] and its use as [(float)dt]. *)
Definition dt : double := F64.of_float DELTA_T.
Definition fdt : float := F64.to_float dt.

(** [max(-15.0f, min(MAX_SPEED, fSpeed))]. *)
Definition clamp_speed (s : float) : float :=
  F32.max (F32.neg (F32.of_int 15)) (F32.min MAX_SPEED s).

(** The longitudinal update of the speed, before the clamp. *)
Definition drive (w : World) : float :=
  let p := player w in
  if negb (bCrashed p) then
    let s :=
      if input_accel w then F32.add (fSpeed p) (F32.mul ACCELERATION fdt)
      else F32.mul (fSpeed p) FRICTION in
    if input_brake w then F32.sub s (F32.mul DECELERATION fdt) else s
  else F32.zero.

(** The segment cursor of the integrator: the same [while] loop as in the
    collision detector, without the start-distance accumulator. *)
Fixpoint physics_cursor (rest : list TrackSegment) (pos : float) (section : Z)
  : float * Z * option TrackSegment :=
  match rest with
  | [] => (pos, section, None)
  | seg :: rest' =>
      if F32.ge pos (segDistance seg) then
        physics_cursor rest' (F32.sub pos (segDistance seg)) (section + 1)
      else (pos, section, Some seg)
  end.

Definition target_curvature (track : list TrackSegment) (pos : float) : float :=
  match physics_cursor track pos 0 with
  | (_, _, Some seg) => segCurvature seg
  | (_, _, None) => F32.zero
  end.

(** The block of one fixed step that runs under [g_player_mutex]. *)
Definition PhysicsStep (w : World) : World :=
  if GameState_eqb (currentState w) KERNEL_RUNNING then
    let p := player w in
    let steer := input_steer w in
    let speed := clamp_speed (drive w) in
    let moved := F32.add (fDistance p) (F32.mul speed fdt) in
    let won := F32.ge moved (fTotalTrackLength w) in
    let distance := if won then fTotalTrackLength w else moved in
    let targetCurv := target_curvature (vecTrack w) distance in
    let curvature :=
      F32.add (fCurvature p)
        (F32.mul (F32.mul (F32.sub targetCurv (fCurvature p)) fdt)
           (F32.of_int 3)) in
    let playerCurvature :=
      F32.add (fPlayerCurvature p)
        (F32.mul (F32.mul (F32.mul curvature fdt) speed) (F32.dec 1 2)) in
    let steerInput := F32.mul (F32.of_int steer) (F32.dec 5 1) in
    let fInertiaSlide :=
      F32.mul (F32.mul (F32.neg curvature) speed) LATERAL_FACTOR in
    let compensation := F32.mul steerInput STEER_COMPENSATION in
    let headingDrift :=
      F32.mul (F32.mul (fHeadingAngle p) speed) HEADING_DRIFT_FACTOR in
    let fNetForce :=
      F32.mul (F32.add (F32.add fInertiaSlide compensation) headingDrift)
        (F32.of_int 40) in
    let x := F32.add (fX_Register p) (F32.mul fNetForce fdt) in
    let heading :=
      if steer =? -1 then
        F32.sub (fHeadingAngle p) (F32.mul HEADING_TURN_SPEED fdt)
      else if steer =? 1 then
        F32.add (fHeadingAngle p) (F32.mul HEADING_TURN_SPEED fdt)
      else F32.mul (fHeadingAngle p) (F32.dec 95 2) in
    mkWorld
      (mkPlayerPCB x speed distance curvature playerCurvature heading
         (bCrashed p) steer)
      (if won then GAME_WIN else currentState w)
      (vecTrack w) (fTotalTrackLength w)
      (input_steer w) (input_accel w) (input_brake w)
      (warnObstacle w) (warnObstacleDist w) (warnObstacleOffsetX w)
      (sound_crash w) (sound_gameover w)
      (if won then true else sound_win w)
  else w.

(** The obstacle-warning scan: the first obstacle, in track order, that
    lies ahead of the player by at most [WARNING_RANGE]. *)
Definition WARNING_RANGE : float := F32.of_int 50.

Fixpoint warn_in_segment (obstacles : list Obstacle) (acc playerDist : float)
  : option (float * float) :=
  match obstacles with
  | [] => None
  | obs :: rest =>
      let globalObsDist := F32.add acc (fSegDistance obs) in
      if F32.gt globalObsDist playerDist then
        let delta := F32.sub globalObsDist playerDist in
        if F32.le delta WARNING_RANGE then Some (delta, fOffsetX obs)
        else warn_in_segment rest acc playerDist
      else warn_in_segment rest acc playerDist
  end.

Fixpoint warn_in_track (track : list TrackSegment) (acc playerDist : float)
  : option (float * float) :=
  match track with
  | [] => None
  | seg :: rest =>
      match warn_in_segment (vecObstacles seg) acc playerDist with
      | Some found => Some found
      | None => warn_in_track rest (F32.add acc (segDistance seg)) playerDist
      end
  end.

Definition set_warning (w : World) (flag : bool) (dist off : float) : World :=
  mkWorld (player w) (currentState w) (vecTrack w) (fTotalTrackLength w)
    (input_steer w) (input_accel w) (input_brake w)
    flag dist off
    (sound_crash w) (sound_gameover w) (sound_win w).

Definition ObstacleWarning (w : World) : World :=
  if GameState_eqb (currentState w) KERNEL_RUNNING then
    match warn_in_track (vecTrack w) F32.zero (fDistance (player w)) with
    | Some (foundDistDelta, foundOffsetX) =>
        set_warning w true foundDistDelta foundOffsetX
    | None =>
        set_warning w false (warnObstacleDist w) (warnObstacleOffsetX w)
    end
  else set_warning w false (warnObstacleDist w) (warnObstacleOffsetX w).

(** One pass through the body of [while (accumulator >= dt)]: the locked
    step, the two detectors and the warning scan, in program order and
    with no other thread writing in between. *)
Definition PhysicsIteration (w : World) : World :=
  ObstacleWarning
    (CheckObstacleCollision (EnforceBoundaryProtection (PhysicsStep w))).

Fixpoint iterate (n : nat) (w : World) : World :=
  match n with
  | O => w
  | S k => iterate k (PhysicsIteration w)
  end.

(** The fixed-step loop [while (accumulator >= dt) { ...; accumulator -= dt; }]
    entered with the accumulator at [accumulator]: the number of passes
    through the body, the accumulator left over and the world reached.
    The loop of the source has no bound of its own; [fuel] bounds the
    passes here and [None] says it ran out. *)
Fixpoint drain (fuel : nat) (accumulator : double) (w : World)
  : option (nat * double * World) :=
  match fuel with
  | O => if F64.ge accumulator dt then None else Some (O, accumulator, w)
  | S fuel' =>
      if F64.ge accumulator dt then
        match drain fuel' (F64.sub accumulator dt) (PhysicsIteration w) with
        | Some (n, a, w') => Some (S n, a, w')
        | None => None
        end
      else Some (O, accumulator, w)
  end.

(** One pass of the outer loop: the elapsed wall time is added to the
    accumulator, then the fixed-step loop runs. *)
Definition PhysicsPass (fuel : nat) (elapsed accumulator : double) (w : World)
  : option (nat * double * World) :=
  drain fuel (F64.add accumulator elapsed) w.

(** A speed held across [n] passes of the loop body: the game stays in
    [KERNEL_RUNNING] and the speed register reads [s] before the first
    pass and after each of the [n]. *)
Definition constant_speed (s : float) (n : nat) (w : World) : Prop :=
  forall k, (k <= n)%nat ->
    currentState (iterate k w) = KERNEL_RUNNING
    /\ fSpeed (player (iterate k w)) = s.

(** [n] times [distance += s * (float)dt], each product and each sum
    rounded to binary32. *)
Definition running_sum (s : float) (n : nat) (distance : float) : float :=
  Nat.iter n (fun d => F32.add d (F32.mul s fdt)) distance.

(** The exact value of a finite float or double, counted in units of
    [2^-1074], the spacing of the smallest doubles: an integer for every
    valid binary32 and binary64 number. *)
Definition ticks (x : spec_float) : Z :=
  match x with
  | S754_finite s m e => cond_Zopp s (Zpos m) * 2 ^ (e + 1074)
  | _ => 0
  end.

(** [dt] is [dt_units * 2^-60]. *)
Definition dt_units : Z := 4803839853068288.

(** A non-negative accumulator holding exactly [N * 2^-60], in normal
    form. *)
Definition units (acc : double) (N : Z) : Prop :=
  (N = 0 /\ acc = S754_zero false)
  \/ exists m e,
       acc = S754_finite false m e
       /\ Zpos (digits2_pos m) = 53
       /\ -112 <= e
       /\ Zpos m * 2 ^ (e + 112) = N * 2 ^ 52.

(** ** Track data *)

Definition seg (curv : float) (len : Z) (obs : list Obstacle) : TrackSegment :=
  mkTrackSegment curv (F32.of_int len) obs.

Definition BuildTrackData (id : Z) : list TrackSegment :=
  if id =? 1 then
    [ seg F32.zero 80 []; seg (F32.dec 6 1) 250 [];
      seg (F32.neg (F32.dec 6 1)) 250 []; seg F32.zero 100 [];
      seg (F32.dec 8 1) 200 []; seg F32.zero 120 [] ]
  else if id =? 2 then
    [ seg F32.zero 100 []; seg (F32.dec 7 1) 150 [];
      seg (F32.neg (F32.dec 5 1)) 150 []; seg (F32.dec 9 1) 200 [];
      seg F32.zero 100
        [ mkObstacle (F32.of_int 20) (F32.dec 4 1) (F32.dec 3 1);
          mkObstacle (F32.of_int 70) (F32.neg (F32.dec 5 1)) (F32.dec 4 1) ];
      seg (F32.neg (F32.dec 8 1)) 180
        [ mkObstacle (F32.of_int 80) (F32.dec 6 1) (F32.dec 3 1) ];
      seg (F32.dec 6 1) 200 []; seg F32.zero 150 [];
      seg (F32.of_int 1) 120 []; seg F32.zero 100 [] ]
  else if id =? 3 then
    [ seg F32.zero 100 [];
      seg (F32.dec 8 1) 200
        [ mkObstacle (F32.of_int 50) (F32.neg (F32.dec 6 1)) (F32.dec 3 1);
          mkObstacle (F32.of_int 150) (F32.dec 6 1) (F32.dec 3 1) ];
      seg (F32.neg (F32.dec 6 1)) 150 [];
      seg (F32.dec 6 1) 180
        [ mkObstacle (F32.of_int 40) F32.zero (F32.dec 5 1) ];
      seg (F32.neg (F32.dec 8 1)) 200 [];
      seg (F32.dec 5 1) 150
        [ mkObstacle (F32.of_int 100) (F32.neg (F32.dec 4 1)) (F32.dec 4 1) ];
      seg (F32.neg (F32.dec 5 1)) 150 [];
      seg (F32.dec 8 1) 200
        [ mkObstacle (F32.of_int 70) (F32.dec 3 1) (F32.dec 2 1) ];
      seg (F32.neg (F32.dec 8 1)) 200 []; seg F32.zero 100 [] ]
  else [].

(** [LoadMap]: the track of the map and the sum of its segment lengths. *)
Definition total_length (track : list TrackSegment) : float :=
  fold_left (fun acc s => F32.add acc (segDistance s)) track F32.zero.

(** The world right after the map-select screen starts a race:
    [LoadMap(id); player.Reset(); currentState = KERNEL_RUNNING]. *)
Definition start_race (id : Z) (w : World) : World :=
  mkWorld PlayerPCB_Reset KERNEL_RUNNING
    (BuildTrackData id) (total_length (BuildTrackData id))
    (input_steer w) (input_accel w) (input_brake w)
    (warnObstacle w) (warnObstacleDist w) (warnObstacleOffsetX w)
    (sound_crash w) (sound_gameover w) (sound_win w).

(** The state of the globals at process start. *)
Definition boot : World :=
  mkWorld PlayerPCB_Reset BOOT_MENU [] F32.zero 0 false false
    false F32.zero F32.zero false false false.

(** The render thread on the game-over and win screens when the space bar
    is pressed: [player.Reset(); currentState = MAP_SELECT]. *)
Definition acknowledge (w : World) : World :=
  mkWorld PlayerPCB_Reset MAP_SELECT (vecTrack w) (fTotalTrackLength w)
    (input_steer w) (input_accel w) (input_brake w)
    (warnObstacle w) (warnObstacleDist w) (warnObstacleOffsetX w)
    (sound_crash w) (sound_gameover w) (sound_win w).

(** The input thread storing its three continuous registers. *)
Definition hold_keys (steer : Z) (accel brake : bool) (w : World) : World :=
  mkWorld (player w) (currentState w) (vecTrack w) (fTotalTrackLength w)
    steer accel brake
    (warnObstacle w) (warnObstacleDist w) (warnObstacleOffsetX w)
    (sound_crash w) (sound_gameover w) (sound_win w).

(** ** One-shot edge flags

    [InputThreadProc] keeps, per key, the previous reading in a local
    ([lastSpace], ...) and stores [true] into the key's atomic flag on a
    rising edge; [RenderThreadProc] consumes the flag with
    [exchange(false)].  Both are sequentially consistent atomic operations
    on one cell, so a run of the two threads is an interleaving of the two
    kinds of event below. *)

Module EdgeFlag.

Inductive event : Type :=
| Sample (now : bool)    (* one sampler iteration reading an edge-detected key *)
| Latch (pressed : bool) (* one sampler iteration reading the escape key *)
| Exchange.              (* one [exchange(false)] by the consumer *)

Record cell : Type := mkCell {
  flag : bool;           (* the atomic, e.g. [input_space_edge] *)
  last : bool            (* the sampler's local, e.g. [lastSpace] *)
}.

(** [if (now && !last) flag.store(true); last = now;] *)
Definition sample (now : bool) (c : cell) : cell :=
  mkCell (if now && negb (last c) then true else flag c) now.

(** [if (GetAsyncKeyState(VK_ESCAPE) & 1) input_escape.store(true);] *)
Definition latch (pressed : bool) (c : cell) : cell :=
  mkCell (if pressed then true else flag c) (last c).

(** [flag.exchange(false)]: the old value, and the cell cleared. *)
Definition exchange (c : cell) : bool * cell :=
  (flag c, mkCell false (last c)).

(** Whether a sampler iteration performs the store. *)
Definition rising (now : bool) (c : cell) : bool := now && negb (last c).

Record tally : Type := mkTally {
  stores : nat;          (* stores of [true] by the sampler *)
  seen : nat             (* exchanges that returned [true] *)
}.

Fixpoint run (evs : list event) (c : cell) (t : tally) : cell * tally :=
  match evs with
  | [] => (c, t)
  | Sample now :: rest =>
      run rest (sample now c)
        (mkTally (if rising now c then S (stores t) else stores t) (seen t))
  | Latch pressed :: rest =>
      run rest (latch pressed c)
        (mkTally (if pressed then S (stores t) else stores t) (seen t))
  | Exchange :: rest =>
      let '(old, c') := exchange c in
      run rest c' (mkTally (stores t) (if old then S (seen t) else seen t))
  end.

Definition init : cell := mkCell false false.
Definition nothing : tally := mkTally 0 0.

(** What the flag still holds for the consumer. *)
Definition pending (c : cell) : nat := if flag c then 1%nat else 0%nat.

End EdgeFlag.

(** ** Scenarios

    Concrete worlds on which the statements below are evaluated. *)

(** A vehicle at lateral offset [x], everything else at its default. *)
Definition vehicle_at (x : float) (crashed : bool) : PlayerPCB :=
  mkPlayerPCB x F32.zero F32.zero F32.zero F32.zero F32.zero crashed 0.

(** Map [id] loaded, the game in state [st], the keys as given. *)
Definition scene (id : Z) (st : GameState) (p : PlayerPCB)
    (steer : Z) (accel brake : bool) : World :=
  mkWorld p st (BuildTrackData id) (total_length (BuildTrackData id))
    steer accel brake false F32.zero F32.zero false false false.

(** The obstacle of the overlap cases: centred, 0.4 wide, 10 units into
    its segment; and a one-segment track that carries it. *)
Definition centre_obstacle : Obstacle :=
  mkObstacle (F32.of_int 10) F32.zero (F32.dec 4 1).

Definition centre_track : list TrackSegment :=
  [ seg F32.zero 100 [ centre_obstacle ] ].

Definition centre_scene (x : float) : World :=
  mkWorld
    (mkPlayerPCB x (F32.of_int 5) (F32.of_int 10) F32.zero F32.zero F32.zero
       false 0)
    KERNEL_RUNNING centre_track (total_length centre_track)
    0 false false false F32.zero F32.zero false false false.

(** Map 2, the vehicle 20 units into the fifth segment (index 4, which
    starts at distance 600), where the first obstacle of that segment sits
    at lateral offset 0.4. *)
Definition slalom_scene (x : float) : World :=
  scene 2 KERNEL_RUNNING
    (mkPlayerPCB x (F32.of_int 30) (F32.of_int 620) F32.zero F32.zero F32.zero
       false 0)
    0 false false.

(** Map 1, a tenth of a unit before the finish line at top speed, the
    vehicle next to the right road limit and steering right. *)
Definition photo_finish : World :=
  scene 1 KERNEL_RUNNING
    (mkPlayerPCB (F32.dec 8199 4) (F32.of_int 50) (F32.dec 9999 1)
       F32.zero F32.zero F32.zero false 1)
    1 true false.

(** The same finish in the middle of the road. *)
Definition clean_finish : World :=
  scene 1 KERNEL_RUNNING
    (mkPlayerPCB F32.zero (F32.of_int 50) (F32.dec 9999 1)
       F32.zero F32.zero F32.zero false 0)
    0 true false.

(** A crashed vehicle in a world that is still [KERNEL_RUNNING], the right
    key held. *)
Definition wreck_steering : World :=
  scene 1 KERNEL_RUNNING (vehicle_at F32.zero true) 1 false false.

(** A crashed vehicle after its crash: [GAME_OVER], the right key held. *)
Definition wreck_over : World :=
  scene 1 GAME_OVER (vehicle_at (F32.dec 83 2) true) 1 true false.

(** The start of a race on map [id] with only the brake key held. *)
Definition braking_start (id : Z) : World :=
  hold_keys 0 false true (start_race id boot).

(** Map 1 at top speed in the middle of the road, the accelerator held:
    the speed stays at [MAX_SPEED]. *)
Definition cruise : World :=
  scene 1 KERNEL_RUNNING
    (mkPlayerPCB F32.zero (F32.of_int 50) F32.zero F32.zero F32.zero F32.zero
       false 0)
    0 true false.

(** An accumulator of exactly six steps, [6 * dt]. *)
Definition six_dt : double :=
  binary_normalize F64.prec F64.emax (6 * dt_units) (-60) false.

(** An accumulator of [2^70] seconds. *)
Definition stalled : double := S754_finite false 4503599627370496 18.

(** ** The input thread

    One iteration of [InputThreadProc] reads the keyboard and stores the
    three continuous registers and the seven one-shot flags.  [Keys] is
    what [GetAsyncKeyState] reports during that iteration: for each key
    whether it is down, and for the escape key whether it was pressed since
    the previous call. *)

Record Keys : Type := mkKeys {
  key_A : bool; key_D : bool; key_LEFT : bool; key_RIGHT : bool;
  key_W : bool; key_S : bool; key_UP : bool; key_DOWN : bool;
  key_SPACE : bool; key_1 : bool; key_2 : bool; key_3 : bool;
  key_ESCAPE_pressed : bool
}.

Record EdgeFlags : Type := mkEdgeFlags {
  input_space_edge : bool;
  input_up_edge : bool;
  input_down_edge : bool;
  input_1_edge : bool;
  input_2_edge : bool;
  input_3_edge : bool;
  input_escape : bool
}.

(** The locals of [InputThreadProc]. *)
Record LastKeys : Type := mkLastKeys {
  lastSpace : bool; lastUp : bool; lastDown : bool;
  last1 : bool; last2 : bool; last3 : bool
}.

(** [int steer = 0; if (A || LEFT) steer = -1; if (D || RIGHT) steer = 1;] *)
Definition steer_of (k : Keys) : Z :=
  let steer := 0 in
  let steer := if key_A k || key_LEFT k then -1 else steer in
  if key_D k || key_RIGHT k then 1 else steer.

(** [if (now && !last) flag.store(true);] on one flag. *)
Definition edge (now last flag : bool) : bool :=
  EdgeFlag.flag (EdgeFlag.sample now (EdgeFlag.mkCell flag last)).

(** The process-wide state of the four threads: the world of the physics
    thread, the one-shot flags, the locals of the input and render threads
    that outlive an iteration, and the run flag. *)
Record Machine : Type := mkMachine {
  world : World;
  edges : EdgeFlags;
  lasts : LastKeys;
  nSelectedMap : Z;
  g_currentMapId : Z;
  running : bool
}.

Definition InputIteration (k : Keys) (m : Machine) : Machine :=
  let e := edges m in
  let l := lasts m in
  mkMachine
    (hold_keys (steer_of k) (key_W k || key_UP k) (key_S k || key_DOWN k)
       (world m))
    (mkEdgeFlags
       (edge (key_SPACE k) (lastSpace l) (input_space_edge e))
       (edge (key_UP k) (lastUp l) (input_up_edge e))
       (edge (key_DOWN k) (lastDown l) (input_down_edge e))
       (edge (key_1 k) (last1 l) (input_1_edge e))
       (edge (key_2 k) (last2 l) (input_2_edge e))
       (edge (key_3 k) (last3 l) (input_3_edge e))
       (EdgeFlag.flag
          (EdgeFlag.latch (key_ESCAPE_pressed k)
             (EdgeFlag.mkCell (input_escape e) false))))
    (mkLastKeys (key_SPACE k) (key_UP k) (key_DOWN k)
       (key_1 k) (key_2 k) (key_3 k))
    (nSelectedMap m) (g_currentMapId m) (running m).

(** ** The render thread: keys and game state

    What one frame of [RenderThreadProc] does to the shared state: the game
    state is read once at the top of the frame, the screen of that state
    consumes its flags with [exchange(false)] in program order and writes
    the game state, the selected map, the track and the PCB.  Drawing, the
    camera and the frame timers write nothing of this and are left out. *)

Definition set_state (st : GameState) (w : World) : World :=
  mkWorld (player w) st (vecTrack w) (fTotalTrackLength w)
    (input_steer w) (input_accel w) (input_brake w)
    (warnObstacle w) (warnObstacleDist w) (warnObstacleOffsetX w)
    (sound_crash w) (sound_gameover w) (sound_win w).

(** The boot menu: space opens the map menu, escape halts; escape is
    tested last. *)
Definition boot_frame (m : Machine) : Machine :=
  let e := edges m in
  let w := world m in
  let w := if input_space_edge e then set_state MAP_SELECT w else w in
  let w := if input_escape e then set_state SYSTEM_HALT w else w in
  mkMachine w
    (mkEdgeFlags false (input_up_edge e) (input_down_edge e)
       (input_1_edge e) (input_2_edge e) (input_3_edge e) false)
    (lasts m) (nSelectedMap m) (g_currentMapId m) (running m).

(** The map menu: up, down, 1, 2, 3 move the selection, space loads the
    selected map, resets the PCB and starts the race, escape goes back to
    the boot menu; all seven flags are consumed. *)
Definition select_frame (m : Machine) : Machine :=
  let e := edges m in
  let sel := nSelectedMap m in
  let sel := if input_up_edge e then Z.max 1 (sel - 1) else sel in
  let sel := if input_down_edge e then Z.min 3 (sel + 1) else sel in
  let sel := if input_1_edge e then 1 else sel in
  let sel := if input_2_edge e then 2 else sel in
  let sel := if input_3_edge e then 3 else sel in
  let w := world m in
  let w := if input_space_edge e then start_race sel w else w in
  let id := if input_space_edge e then sel else g_currentMapId m in
  let w := if input_escape e then set_state BOOT_MENU w else w in
  mkMachine w
    (mkEdgeFlags false false false false false false false)
    (lasts m) sel id (running m).

(** The game-over and the win screen: space resets the PCB and opens the
    map menu, escape halts. *)
Definition result_frame (m : Machine) : Machine :=
  let e := edges m in
  let w := world m in
  let w := if input_space_edge e then acknowledge w else w in
  let w := if input_escape e then set_state SYSTEM_HALT w else w in
  mkMachine w
    (mkEdgeFlags false (input_up_edge e) (input_down_edge e)
       (input_1_edge e) (input_2_edge e) (input_3_edge e) false)
    (lasts m) (nSelectedMap m) (g_currentMapId m) (running m).

Definition RenderFrame (m : Machine) : Machine :=
  match currentState (world m) with
  | BOOT_MENU => boot_frame m
  | MAP_SELECT => select_frame m
  | KERNEL_RUNNING => m
  | GAME_OVER | GAME_WIN => result_frame m
  | SYSTEM_HALT =>
      mkMachine (world m) (edges m) (lasts m) (nSelectedMap m)
        (g_currentMapId m) false
  end.

(** The physics thread and the sound thread on the machine.  Of the sound
    thread only the consumption of the three signals of the physics thread
    is kept: each is cleared by [exchange(false)]. *)
Definition with_world (m : Machine) (w : World) : Machine :=
  mkMachine w (edges m) (lasts m) (nSelectedMap m) (g_currentMapId m)
    (running m).

Definition PhysicsTick (m : Machine) : Machine :=
  with_world m (PhysicsIteration (world m)).

Definition SoundIteration (m : Machine) : Machine :=
  let w := world m in
  with_world m
    (mkWorld (player w) (currentState w) (vecTrack w) (fTotalTrackLength w)
       (input_steer w) (input_accel w) (input_brake w)
       (warnObstacle w) (warnObstacleDist w) (warnObstacleOffsetX w)
       false false false).

(** The machine when [main] has started the four threads. *)
Definition power_on : Machine :=
  mkMachine boot
    (mkEdgeFlags false false false false false false false)
    (mkLastKeys false false false false false false)
    1 1 true.

(** The machines the four threads can reach, one whole iteration of one
    thread at a time.  The input, render and sound loops test the run
    flag at the head of every iteration; the fixed-step loop of the
    physics thread does not, so its iterations go on while the
    accumulator lasts even when the flag has been cleared. *)
Inductive reachable : Machine -> Prop :=
| reach_power_on : reachable power_on
| reach_input (k : Keys) (m : Machine) :
    reachable m -> running m = true -> reachable (InputIteration k m)
| reach_physics (m : Machine) :
    reachable m -> reachable (PhysicsTick m)
| reach_render (m : Machine) :
    reachable m -> running m = true -> reachable (RenderFrame m)
| reach_sound (m : Machine) :
    reachable m -> running m = true -> reachable (SoundIteration m).

(** One iteration of one thread. *)
Inductive step : Machine -> Machine -> Prop :=
| step_input (k : Keys) (m : Machine) :
    running m = true -> step m (InputIteration k m)
| step_physics (m : Machine) : step m (PhysicsTick m)
| step_render (m : Machine) :
    running m = true -> step m (RenderFrame m)
| step_sound (m : Machine) :
    running m = true -> step m (SoundIteration m).

(** The edges of the game-state graph. *)
Definition transition (a b : GameState) : bool :=
  match a, b with
  | BOOT_MENU, (BOOT_MENU | MAP_SELECT | SYSTEM_HALT) => true
  | MAP_SELECT, (MAP_SELECT | KERNEL_RUNNING | BOOT_MENU) => true
  | KERNEL_RUNNING, (KERNEL_RUNNING | GAME_WIN | GAME_OVER) => true
  | GAME_OVER, (GAME_OVER | MAP_SELECT | SYSTEM_HALT) => true
  | GAME_WIN, (GAME_WIN | MAP_SELECT | SYSTEM_HALT) => true
  | SYSTEM_HALT, SYSTEM_HALT => true
  | _, _ => false
  end.

(** ** Predicates read off the loops *)

(** The test of the warning scan on one obstacle, [acc] being the start
    distance of its segment:
    [globalObsDist > playerDist && globalObsDist - playerDist <= 50]. *)
Definition warns (acc playerDist : float) (obs : Obstacle) : bool :=
  F32.gt (F32.add acc (fSegDistance obs)) playerDist
  && F32.le (F32.sub (F32.add acc (fSegDistance obs)) playerDist) WARNING_RANGE.

(** A speed inside the clamp's interval. *)
Definition speed_in_range (s : float) : bool :=
  F32.le (F32.neg (F32.of_int 15)) s && F32.le s MAX_SPEED.

(** What the track generator is assumed to respect: a segment of positive
    length whose obstacles sit inside it, inside the road and have a
    positive width. *)
Definition obstacle_ok (len : float) (o : Obstacle) : bool :=
  F32.ge (fSegDistance o) F32.zero
  && F32.lt (fSegDistance o) len
  && F32.le (F32.neg ROAD_WIDTH_LIMIT) (fOffsetX o)
  && F32.le (fOffsetX o) ROAD_WIDTH_LIMIT
  && F32.gt (fWidth o) F32.zero.

Definition segment_ok (s : TrackSegment) : bool :=
  F32.gt (segDistance s) F32.zero
  && forallb (obstacle_ok (segDistance s)) (vecObstacles s).

(** ** What holds of every reachable machine *)

Definition steer_ok (z : Z) : Prop := z = -1 \/ z = 0 \/ z = 1.

(** A track as [LoadMap] leaves it, or the empty track of process
    start. *)
Definition track_loaded (w : World) : Prop :=
  exists id, 1 <= id <= 3
             /\ vecTrack w = BuildTrackData id
             /\ fTotalTrackLength w = total_length (BuildTrackData id).

Definition track_ok (w : World) : Prop :=
  (vecTrack w = [] /\ fTotalTrackLength w = F32.zero) \/ track_loaded w.

Record world_ok (w : World) : Prop := mk_world_ok {
  ok_crash :
    bCrashed (player w) = true ->
    (currentState w = GAME_OVER \/ currentState w = SYSTEM_HALT)
    /\ fSpeed (player w) = F32.zero;
  ok_road :
    bCrashed (player w) = false -> off_road (fX_Register (player w)) = false;
  ok_win :
    currentState w = GAME_WIN -> fDistance (player w) = fTotalTrackLength w;
  ok_steer : steer_ok (input_steer w) /\ steer_ok (nSteerState (player w));
  ok_speed : speed_in_range (fSpeed (player w)) = true;
  ok_distance : F32.gt (fDistance (player w)) (fTotalTrackLength w) = false;
  ok_track : track_ok w;
  ok_race :
    currentState w = KERNEL_RUNNING \/ currentState w = GAME_WIN
    \/ currentState w = GAME_OVER ->
    track_loaded w
}.

Record sane (m : Machine) : Prop := mk_sane {
  sane_world : world_ok (world m);
  sane_selected : 1 <= nSelectedMap m <= 3;
  sane_map :
    1 <= g_currentMapId m <= 3
    /\ (track_loaded (world m) ->
        vecTrack (world m) = BuildTrackData (g_currentMapId m));
  sane_halt : running m = false -> currentState (world m) = SYSTEM_HALT
}.

(** ** The drawing utilities

    [KernelDrawBox] and [KernelDrawString] write wide characters through a
    raw pointer into a frame buffer of [nScreenWidth * nScreenHeight]
    cells.  A buffer is the list of its cells, a wide character its code
    point; a store outside the buffer and an [int] sum that does not fit
    are undefined in the source and give [None] here. *)

Definition nScreenWidth : Z := 120.
Definition nScreenHeight : Z := 30.

Definition int_fits (z : Z) : bool :=
  (-2147483648 <=? z) && (z <=? 2147483647).

Fixpoint store_at (n : nat) (c : Z) (s : list Z) : list Z :=
  match s, n with
  | [], _ => []
  | _ :: tl, O => c :: tl
  | hd :: tl, S k => hd :: store_at k c tl
  end.

(** [s[idx] = c]. *)
Definition poke (idx : Z) (c : Z) (s : list Z) : option (list Z) :=
  if (0 <=? idx) && (idx <? Z.of_nat (length s))
  then Some (store_at (Z.to_nat idx) c s)
  else None.

Definition peek (s : list Z) (idx : Z) : Z := nth (Z.to_nat idx) s 0.

(** The character [KernelDrawBox] chooses for row [i] and column [j] of a
    box of [w] columns and [h] rows: the double line, then the four
    corners in the order of the source, a later test overriding an
    earlier one. *)
Definition box_glyph (i j w h : Z) : Z :=
  let c :=
    if (i =? 0) || (i =? h - 1) then 9552        (* U+2550 *)
    else if (j =? 0) || (j =? w - 1) then 9553   (* U+2551 *)
    else 32 in
  let c := if (i =? 0) && (j =? 0) then 9556 else c in          (* U+2554 *)
  let c := if (i =? 0) && (j =? w - 1) then 9559 else c in      (* U+2557 *)
  let c := if (i =? h - 1) && (j =? 0) then 9562 else c in      (* U+255A *)
  if (i =? h - 1) && (j =? w - 1) then 9565 else c.             (* U+255D *)

(** The inner loop [for (int j = 0; j < w; ++j)] of row [i], entered at
    column [j] with [n] columns to go. *)
Fixpoint box_columns (n : nat) (j : Z) (s : list Z) (x y w h i : Z)
  : option (list Z) :=
  match n with
  | O => Some s
  | S n' =>
      let px := x + j in
      let py := y + i in
      if negb (int_fits px && int_fits py) then None
      else if (px <? 0) || (px >=? nScreenWidth)
              || (py <? 0) || (py >=? nScreenHeight)
      then box_columns n' (j + 1) s x y w h i
      else
        match poke (py * nScreenWidth + px) (box_glyph i j w h) s with
        | Some s' => box_columns n' (j + 1) s' x y w h i
        | None => None
        end
  end.

(** The outer loop [for (int i = 0; i < h; ++i)], entered at row [i] with
    [n] rows to go. *)
Fixpoint box_rows (n : nat) (i : Z) (s : list Z) (x y w h : Z)
  : option (list Z) :=
  match n with
  | O => Some s
  | S n' =>
      match box_columns (Z.to_nat w) 0 s x y w h i with
      | Some s' => box_rows n' (i + 1) s' x y w h
      | None => None
      end
  end.

Definition KernelDrawBox (s : list Z) (x y w h : Z) : option (list Z) :=
  box_rows (Z.to_nat h) 0 s x y w h.

(** The loop of [KernelDrawString] over the characters of [t], entered at
    index [i]. *)
Fixpoint string_from (t : list Z) (i : Z) (s : list Z) (x y : Z)
  : option (list Z) :=
  match t with
  | [] => Some s
  | c :: t' =>
      let px := x + i in
      if negb (int_fits px) then None
      else if (px <? 0) || (px >=? nScreenWidth) then
        string_from t' (i + 1) s x y
      else if (0 <=? y) && (y <? nScreenHeight) then
        match poke (y * nScreenWidth + px) c s with
        | Some s' => string_from t' (i + 1) s' x y
        | None => None
        end
      else string_from t' (i + 1) s x y
  end.

Definition KernelDrawString (s : list Z) (x y : Z) (t : list Z)
  : option (list Z) :=
  string_from t 0 s x y.

(** A frame buffer of the size the render thread allocates. *)
Definition frame_buffer (s : list Z) : Prop :=
  Z.of_nat (length s) = nScreenWidth * nScreenHeight.

(** The cell_at of column [col] and row [row]. *)
Definition cell_at (s : list Z) (col row : Z) : Z :=
  peek s (row * nScreenWidth + col).

Definition on_screen (col row : Z) : Prop :=
  0 <= col < nScreenWidth /\ 0 <= row < nScreenHeight.

(** ** The mini-map

    [GenerateMapPoints] walks the track in steps of one unit and records
    a point per step; [sinf] and [cosf] come from the C library and are
    left open here.  The inner loop counts in [float] and has no bound of
    its own: [fuel] bounds its passes and [None] says it ran out. *)

Section MapPoints.

Variables sinf cosf : float -> float.

Definition STEP : float := F32.of_int 1.

(** [for (float d = ...; d < seg.fDistance; d += STEP)], entered with the
    loop variable at [d]: the points recorded, and the angle and the
    position the loop leaves. *)
Fixpoint segment_points (fuel : nat) (d : float) (sg : TrackSegment)
    (angle x y : float)
  : option (list (float * float) * (float * float * float)) :=
  match fuel with
  | O =>
      if F32.lt d (segDistance sg) then None else Some ([], (angle, x, y))
  | S fuel' =>
      if F32.lt d (segDistance sg) then
        let angle :=
          F32.add angle (F32.mul (F32.mul (segCurvature sg) STEP) (F32.dec 1 2)) in
        let x := F32.add x (F32.mul (sinf angle) STEP) in
        let y := F32.add y (F32.mul (cosf angle) STEP) in
        match segment_points fuel' (F32.add d STEP) sg angle x y with
        | Some (pts, st) => Some ((x, y) :: pts, st)
        | None => None
        end
      else Some ([], (angle, x, y))
  end.

Fixpoint track_points (fuel : nat) (track : list TrackSegment)
    (angle x y : float) : option (list (float * float)) :=
  match track with
  | [] => Some []
  | sg :: rest =>
      match segment_points fuel F32.zero sg angle x y with
      | Some (pts, (angle', x', y')) =>
          match track_points fuel rest angle' x' y' with
          | Some more => Some (pts ++ more)
          | None => None
          end
      | None => None
      end
  end.

Definition GenerateMapPoints (fuel : nat) (track : list TrackSegment)
  : option (list (float * float)) :=
  track_points fuel track F32.zero F32.zero F32.zero.

End MapPoints.

(** The number of passes of the inner loop of [GenerateMapPoints]. *)
Fixpoint segment_count (fuel : nat) (d len : float) : option nat :=
  match fuel with
  | O => if F32.lt d len then None else Some O
  | S fuel' =>
      if F32.lt d len then
        match segment_count fuel' (F32.add d STEP) len with
        | Some n => Some (S n)
        | None => None
        end
      else Some O
  end.

Fixpoint track_count (fuel : nat) (track : list TrackSegment) : option nat :=
  match track with
  | [] => Some O
  | sg :: rest =>
      match segment_count fuel F32.zero (segDistance sg) with
      | Some n =>
          match track_count fuel rest with
          | Some k => Some (n + k)%nat
          | None => None
          end
      | None => None
      end
  end.

(** The conversion [(int)f] of a [float]: the value with its fraction
    dropped; undefined, here [None], for a NaN, an infinity and a value
    that does not fit. *)
Definition to_int (f : float) : option Z :=
  match f with
  | S754_zero _ => Some 0
  | S754_finite s m e =>
      let z := if 0 <=? e then Zpos m * 2 ^ e else Zpos m / 2 ^ (- e) in
      let z := if s then - z else z in
      if int_fits z then Some z else None
  | _ => None
  end.

(** [(int)((dist / (fTotalTrackLength > 0 ? fTotalTrackLength : 1.0f))
          * (int)p.size())] of [DrawTrackView]. *)
Definition marker_index (dist total : float) (size : Z) : option Z :=
  to_int
    (F32.mul
       (F32.div dist (if F32.gt total F32.zero then total else F32.of_int 1))
       (F32.of_int size)).

(** What the player marker of [DrawTrackView] reads from the points. *)
Inductive marker : Type :=
| NoMarker                          (* the guard is false *)
| MarkerAt (pt : float * float)     (* [p[idx]] *)
| BadIndex (idx : Z)                (* [p[idx]] with [idx] outside [p] *)
| BadCast.                          (* the conversion to [int] is undefined *)

(** [if (player.fDistance <= fTotalTrackLength && !p.empty()) {
       int idx = ...; idx = min(idx, (int)p.size() - 1); auto pos = p[idx];] *)
Definition player_marker (p : list (float * float)) (dist total : float)
  : marker :=
  let size := Z.of_nat (length p) in
  if F32.le dist total && negb (size =? 0) then
    match marker_index dist total size with
    | Some idx =>
        let idx := Z.min idx (size - 1) in
        if (0 <=? idx) && (idx <? size)
        then MarkerAt (nth (Z.to_nat idx) p (F32.zero, F32.zero))
        else BadIndex idx
    | None => BadCast
    end
  else NoMarker.

(** [idx = max(0, min((int)p.size() - 1, idx))] of the obstacle marks. *)
Definition obstacle_marker_index (globalObsDist total : float) (size : Z)
  : option Z :=
  match marker_index globalObsDist total size with
  | Some idx => Some (Z.max 0 (Z.min (size - 1) idx))
  | None => None
  end.

(** ** Runs of the race *)


(** A track none of whose segments carries an obstacle. *)
Definition bare (track : list TrackSegment) : bool :=
  forallb (fun s => match vecObstacles s with [] => true | _ :: _ => false end)
    track.

(** ** Further scenarios *)

(** Map 2, 580 units into the race: the first obstacle of the fifth
    segment lies 40 units ahead. *)
Definition warning_scene : World :=
  scene 2 KERNEL_RUNNING
    (mkPlayerPCB F32.zero (F32.of_int 30) (F32.of_int 580)
       F32.zero F32.zero F32.zero false 0)
    0 false false.


(** Keyboards. *)
Definition no_keys : Keys :=
  mkKeys false false false false false false false false
    false false false false false.

Definition space_key : Keys :=
  mkKeys false false false false false false false false
    true false false false false.

(** D and W held: steering right at full throttle. *)
Definition drive_right : Keys :=
  mkKeys false true false false true false false false
    false false false false false.

(** Space pressed on the boot menu, and the frame that answers it. *)
Definition menu_open : Machine :=
  RenderFrame (InputIteration space_key power_on).

(** Space released and pressed again on the map menu: the race on map 1
    starts. *)
Definition race_on : Machine :=
  RenderFrame (InputIteration space_key (InputIteration no_keys menu_open)).

(** 400 iterations of the physics thread steering right at full throttle:
    the vehicle has left the road. *)
Definition wrecked : Machine :=
  Nat.iter 400 PhysicsTick (InputIteration drive_right race_on).

(** Space and escape pressed together on the boot menu. *)
Definition space_and_escape : Keys :=
  mkKeys false false false false false false false false
    true false false false true.


(** An empty frame buffer, and the title of the game-over screen. *)
Definition blank_screen : list Z := repeat 32 3600%nat.

Definition crashed_text : list Z :=
  [33; 33; 32; 67; 82; 65; 83; 72; 69; 68; 32; 33; 33].

(** S held: braking from rest, which reverses. *)
Definition reverse_keys : Keys :=
  mkKeys false false false false false true false false
    false false false false false.

(** A third of a second of reversing from the start line of map 1. *)
Definition reversed : Machine :=
  Nat.iter 80 PhysicsTick (InputIteration reverse_keys race_on).
(** ** Facts about the model *)

(** Closed statements about concrete floats and worlds are settled by
    running the model. *)
Ltac evaluate := vm_compute; reflexivity.

(** *** Basic facts *)

Lemma GameState_eqb_refl (s : GameState) : GameState_eqb s s = true.
Proof. destruct s; reflexivity. Qed.

Lemma GameState_eqb_eq (a b : GameState) : GameState_eqb a b = true <-> a = b.
Proof. split; [destruct a, b; simpl; congruence | intros ->; apply GameState_eqb_refl]. Qed.

Lemma GameState_eqb_neq (a b : GameState) : GameState_eqb a b = false <-> a <> b.
Proof.
  split.
  - intros H E. subst. rewrite GameState_eqb_refl in H. discriminate.
  - intros H. destruct (GameState_eqb a b) eqn:E; [|reflexivity].
    apply GameState_eqb_eq in E. contradiction.
Qed.

(** The narrowing of [dt] gives [DELTA_T] back. *)
Lemma fdt_is_DELTA_T : fdt = DELTA_T.
Proof. evaluate. Qed.

(** *** What the steps leave alone *)

Lemma PhysicsStep_idle (w : World) :
  currentState w <> KERNEL_RUNNING -> PhysicsStep w = w.
Proof.
  intros H. unfold PhysicsStep.
  apply GameState_eqb_neq in H. rewrite H. reflexivity.
Qed.

Lemma PhysicsStep_crashed (w : World) :
  bCrashed (player (PhysicsStep w)) = bCrashed (player w).
Proof.
  unfold PhysicsStep. destruct (GameState_eqb (currentState w) KERNEL_RUNNING); reflexivity.
Qed.

Lemma Enforce_cases (w : World) :
  EnforceBoundaryProtection w =
  if off_road (fX_Register (player w)) && negb (bCrashed (player w))
  then crash w else w.
Proof.
  unfold EnforceBoundaryProtection.
  destruct (off_road _), (bCrashed _); reflexivity.
Qed.

Lemma Check_idle (w : World) :
  bCrashed (player w) = true \/ currentState w <> KERNEL_RUNNING ->
  CheckObstacleCollision w = w.
Proof.
  intros [H | H]; unfold CheckObstacleCollision.
  - rewrite H. reflexivity.
  - apply GameState_eqb_neq in H. rewrite H, orb_true_r. reflexivity.
Qed.

Lemma Check_cases (w : World) :
  CheckObstacleCollision w = w \/ CheckObstacleCollision w = crash w.
Proof.
  unfold CheckObstacleCollision.
  destruct (_ || _); [now left|].
  destruct (collision_cursor _ _ _ _) as [[[d i] s0] [sg|]]; [|now left].
  destruct (fst _); [now right | now left].
Qed.

Lemma Warning_player (w : World) : player (ObstacleWarning w) = player w.
Proof.
  unfold ObstacleWarning.
  destruct (GameState_eqb _ _); [|reflexivity].
  destruct (warn_in_track _ _ _) as [[d o]|]; reflexivity.
Qed.

Lemma Warning_state (w : World) : currentState (ObstacleWarning w) = currentState w.
Proof.
  unfold ObstacleWarning.
  destruct (GameState_eqb _ _); [|reflexivity].
  destruct (warn_in_track _ _ _) as [[d o]|]; reflexivity.
Qed.

Lemma Warning_signals (w : World) :
  sound_crash (ObstacleWarning w) = sound_crash w /\
  sound_gameover (ObstacleWarning w) = sound_gameover w /\
  sound_win (ObstacleWarning w) = sound_win w /\
  fTotalTrackLength (ObstacleWarning w) = fTotalTrackLength w /\
  vecTrack (ObstacleWarning w) = vecTrack w.
Proof.
  unfold ObstacleWarning.
  destruct (GameState_eqb _ _); [|repeat split].
  destruct (warn_in_track _ _ _) as [[d o]|]; repeat split.
Qed.

Lemma crash_effects (w : World) :
  bCrashed (player (crash w)) = true /\
  fSpeed (player (crash w)) = F32.zero /\
  currentState (crash w) = GAME_OVER /\
  sound_crash (crash w) = true /\
  sound_gameover (crash w) = true.
Proof. repeat split. Qed.

Lemma crash_frame (w : World) :
  fX_Register (player (crash w)) = fX_Register (player w) /\
  fDistance (player (crash w)) = fDistance (player w) /\
  fHeadingAngle (player (crash w)) = fHeadingAngle (player w) /\
  fCurvature (player (crash w)) = fCurvature (player w) /\
  fPlayerCurvature (player (crash w)) = fPlayerCurvature (player w) /\
  nSteerState (player (crash w)) = nSteerState (player w) /\
  sound_win (crash w) = sound_win w /\
  vecTrack (crash w) = vecTrack w /\
  fTotalTrackLength (crash w) = fTotalTrackLength w.
Proof. repeat split. Qed.

(** Once the crashed flag is up, the two detectors and the warning scan
    write nothing to the PCB or the game state. *)
Lemma detectors_idle_when_crashed (w : World) :
  bCrashed (player w) = true ->
  player (ObstacleWarning (CheckObstacleCollision (EnforceBoundaryProtection w)))
  = player w /\
  currentState (ObstacleWarning (CheckObstacleCollision (EnforceBoundaryProtection w)))
  = currentState w.
Proof.
  intros H.
  rewrite Warning_player, Warning_state.
  assert (E : EnforceBoundaryProtection w = w).
  { rewrite Enforce_cases, H. simpl. rewrite andb_false_r. reflexivity. }
  rewrite E, Check_idle by (left; exact H). split; reflexivity.
Qed.

(** On the road and outside [KERNEL_RUNNING] the whole iteration writes
    nothing to the PCB or the game state. *)
Lemma iteration_idle (w : World) :
  currentState w <> KERNEL_RUNNING ->
  off_road (fX_Register (player w)) && negb (bCrashed (player w)) = false ->
  player (PhysicsIteration w) = player w /\
  currentState (PhysicsIteration w) = currentState w /\
  sound_win (PhysicsIteration w) = sound_win w /\
  sound_crash (PhysicsIteration w) = sound_crash w /\
  sound_gameover (PhysicsIteration w) = sound_gameover w.
Proof.
  intros Hs Hr. unfold PhysicsIteration.
  rewrite (PhysicsStep_idle w Hs).
  rewrite Enforce_cases, Hr.
  rewrite Check_idle by (right; exact Hs).
  rewrite Warning_player, Warning_state.
  destruct (Warning_signals w) as (-> & -> & -> & _).
  repeat split.
Qed.

Lemma iterate_idle (n : nat) (w : World) :
  currentState w <> KERNEL_RUNNING ->
  off_road (fX_Register (player w)) && negb (bCrashed (player w)) = false ->
  player (iterate n w) = player w /\
  currentState (iterate n w) = currentState w /\
  sound_win (iterate n w) = sound_win w.
Proof.
  revert w. induction n as [|n IH]; intros w Hs Hr; simpl.
  - repeat split.
  - destruct (iteration_idle w Hs Hr) as (Hp & Hc & Hw & _).
    destruct (IH (PhysicsIteration w)) as (Hp' & Hc' & Hw').
    + rewrite Hc. exact Hs.
    + rewrite Hp. exact Hr.
    + rewrite Hp', Hc', Hw', Hp, Hc, Hw. repeat split.
Qed.

Lemma iterate_crashed (n : nat) (w : World) :
  bCrashed (player w) = true ->
  currentState w <> KERNEL_RUNNING ->
  player (iterate n w) = player w /\ currentState (iterate n w) = currentState w.
Proof.
  intros Hc Hs.
  destruct (iterate_idle n w Hs) as (Hp & Hst & _).
  - rewrite Hc. apply andb_false_r.
  - split; assumption.
Qed.

Lemma detectors_keep_distance (w : World) :
  fDistance (player (ObstacleWarning (CheckObstacleCollision (EnforceBoundaryProtection w))))
  = fDistance (player w).
Proof.
  rewrite Warning_player.
  assert (E : fDistance (player (EnforceBoundaryProtection w)) = fDistance (player w)).
  { rewrite Enforce_cases. destruct (_ && _); reflexivity. }
  destruct (Check_cases (EnforceBoundaryProtection w)) as [-> | ->]; exact E.
Qed.

(** *** The scan over the obstacles of a segment *)

Lemma scan_obstacles_miss (obstacles : list Obstacle) (d x : float) (k : nat) :
  existsb (hits d x) obstacles = false ->
  scan_obstacles obstacles d x k = (false, (k + length obstacles)%nat).
Proof.
  revert k. induction obstacles as [|o rest IH]; intros k H; simpl in *.
  - f_equal. lia.
  - apply orb_false_iff in H. destruct H as [Ho Hrest].
    unfold hits in Ho.
    destruct (in_window d o); simpl in Ho.
    + rewrite Ho, (IH (S k) Hrest). f_equal. lia.
    + rewrite (IH (S k) Hrest). f_equal. lia.
Qed.

Lemma scan_obstacles_hit (pre post : list Obstacle) (o : Obstacle)
    (d x : float) (k : nat) :
  existsb (hits d x) pre = false ->
  hits d x o = true ->
  scan_obstacles (pre ++ o :: post) d x k = (true, S (k + length pre)).
Proof.
  revert k. induction pre as [|p pre IH]; intros k Hpre Ho; simpl in *.
  - unfold hits in Ho. apply andb_true_iff in Ho. destruct Ho as [-> ->].
    f_equal. lia.
  - apply orb_false_iff in Hpre. destruct Hpre as [Hp Hpre].
    unfold hits in Hp.
    destruct (in_window d p); simpl in Hp.
    + rewrite Hp, (IH (S k) Hpre Ho). f_equal. lia.
    + rewrite (IH (S k) Hpre Ho). f_equal. lia.
Qed.

Lemma scan_obstacles_existsb (obstacles : list Obstacle) (d x : float) (k : nat) :
  fst (scan_obstacles obstacles d x k) = existsb (hits d x) obstacles.
Proof.
  revert k. induction obstacles as [|o rest IH]; intros k; simpl.
  - reflexivity.
  - unfold hits at 1.
    destruct (in_window d o); simpl; [destruct (overlaps x o); simpl|]; auto.
Qed.

(** *** The two segment cursors *)

Lemma cursors_agree (track : list TrackSegment) (pos : float) (section : Z)
    (start : float) :
  physics_cursor track pos section =
  (let '(p, i, _, s) := collision_cursor track pos section start in (p, i, s)).
Proof.
  revert pos section start.
  induction track as [|sg rest IH]; intros pos section start; simpl.
  - reflexivity.
  - destruct (F32.ge pos (segDistance sg)).
    + apply IH.
    + reflexivity.
Qed.

(** The cursor's index counts the segments it has passed, and the segment
    it yields is the one stored at that index: the list recursion is the
    indexed [while] loop of the source. *)
Lemma collision_cursor_index (rest : list TrackSegment) (pos : float)
    (section : Z) (start : float) :
  let '(_, i, _, s) := collision_cursor rest pos section start in
  section <= i <= section + Z.of_nat (length rest) /\
  s = nth_error rest (Z.to_nat (i - section)).
Proof.
  revert pos section start.
  induction rest as [|sg rest IH]; intros pos section start; simpl.
  - split; [lia|]. now rewrite Z.sub_diag.
  - destruct (F32.ge pos (segDistance sg)).
    + specialize (IH (F32.sub pos (segDistance sg)) (section + 1)
                     (F32.add start (segDistance sg))).
      destruct (collision_cursor rest _ _ _) as [[[p i] st] s].
      destruct IH as [Hi Hs]. split; [lia|].
      replace (Z.to_nat (i - section)) with (S (Z.to_nat (i - (section + 1)))) by lia.
      exact Hs.
    + split; [lia|]. now rewrite Z.sub_diag.
Qed.

(** *** Speed and distance in a locked step *)

Lemma PhysicsStep_speed_distance (w : World) :
  currentState w = KERNEL_RUNNING ->
  fSpeed (player (PhysicsStep w)) = clamp_speed (drive w)
  /\ fDistance (player (PhysicsStep w))
     = (if F32.ge
             (F32.add (fDistance (player w)) (F32.mul (clamp_speed (drive w)) fdt))
             (fTotalTrackLength w)
        then fTotalTrackLength w
        else F32.add (fDistance (player w)) (F32.mul (clamp_speed (drive w)) fdt)).
Proof.
  intros Hs. unfold PhysicsStep. rewrite Hs. simpl. split; reflexivity.
Qed.

Lemma PhysicsStep_win (w : World) :
  currentState w = KERNEL_RUNNING ->
  F32.ge (F32.add (fDistance (player w)) (F32.mul (clamp_speed (drive w)) fdt))
    (fTotalTrackLength w) = true ->
  fDistance (player (PhysicsStep w)) = fTotalTrackLength w
  /\ currentState (PhysicsStep w) = GAME_WIN
  /\ sound_win (PhysicsStep w) = true.
Proof.
  intros Hs Hw. unfold PhysicsStep. rewrite Hs. simpl. rewrite Hw.
  repeat split.
Qed.



Lemma lt_le (a b : float) : F32.lt a b = true -> F32.le a b = true.
Proof.
  unfold F32.lt, F32.le, SFltb, SFleb.
  destruct (SFcompare a b) as [[]|]; congruence.
Qed.

Lemma iter_pos_nat {A : Type} (f : A -> A) (p : positive) (x : A) :
  iter_pos f p x = Nat.iter (Pos.to_nat p) f x.
Proof.
  revert x. induction p as [p IH|p IH|]; intros x; cbn [iter_pos].
  - rewrite !IH. rewrite Pos2Nat.inj_xI.
    replace (S (2 * Pos.to_nat p)) with (Pos.to_nat p + (Pos.to_nat p + 1))%nat by lia.
    rewrite !Nat.iter_add. reflexivity.
  - rewrite !IH. rewrite Pos2Nat.inj_xO.
    replace (2 * Pos.to_nat p)%nat with (Pos.to_nat p + Pos.to_nat p)%nat by lia.
    rewrite !Nat.iter_add. reflexivity.
  - reflexivity.
Qed.

Lemma compare_cont_antisym (p q : positive) :
  Pos.compare_cont Eq p q = CompOpp (Pos.compare_cont Eq q p).
Proof. exact (Pos.compare_antisym q p). Qed.

(** *** Comparisons and NaN *)

Lemma SFcompare_antisym (a b : spec_float) :
  SFcompare b a = option_map CompOpp (SFcompare a b).
Proof.
  destruct a as [sa|sa| |sa ma ea], b as [sb|sb| |sb mb eb];
    cbn [SFcompare option_map];
    try reflexivity;
    try (destruct sa; reflexivity); try (destruct sb; reflexivity);
    try (destruct sa, sb; reflexivity).
  destruct sa, sb; cbn [CompOpp]; try reflexivity;
    rewrite (Z.compare_antisym ea eb);
    destruct (ea ?= eb); cbn [CompOpp]; try reflexivity.
  - rewrite (compare_cont_antisym mb ma). reflexivity.
  - rewrite (compare_cont_antisym mb ma). reflexivity.
Qed.

Lemma compare_total (a b : float) :
  F32.is_nan a = false -> F32.is_nan b = false ->
  exists c, SFcompare a b = Some c.
Proof.
  intros Ha Hb.
  destruct a as [sa|sa| |sa ma ea]; try discriminate Ha;
    destruct b as [sb|sb| |sb mb eb]; try discriminate Hb;
    cbn [SFcompare]; eexists; reflexivity.
Qed.

Lemma not_gt_le (a b : float) :
  F32.is_nan a = false -> F32.is_nan b = false ->
  F32.gt a b = false -> F32.le a b = true.
Proof.
  intros Ha Hb. unfold F32.gt, F32.le, SFleb.
  destruct (compare_total a b Ha Hb) as (c & ->).
  destruct c; congruence.
Qed.

Lemma not_lt_le (a b : float) :
  F32.is_nan a = false -> F32.is_nan b = false ->
  F32.lt a b = false -> F32.le b a = true.
Proof.
  intros Ha Hb. unfold F32.lt, F32.le, SFltb, SFleb.
  rewrite (SFcompare_antisym a b).
  destruct (compare_total a b Ha Hb) as (c & ->).
  destruct c; cbn [option_map CompOpp]; congruence.
Qed.

Lemma lt_not_nan (a b : float) :
  F32.lt a b = true -> F32.is_nan a = false /\ F32.is_nan b = false.
Proof.
  unfold F32.lt, SFltb.
  destruct a as [sa|sa| |sa ma ea], b as [sb|sb| |sb mb eb];
    cbn [SFcompare]; intros H; try discriminate H; split; reflexivity.
Qed.

(** *** Rounding never makes a NaN *)

Lemma shr_1_nonneg (mrs : shr_record) : 0 <= shr_m mrs -> 0 <= shr_m (shr_1 mrs).
Proof.
  destruct mrs as [m r s]. cbn [shr_m shr_1].
  destruct m as [|[p|p|]|[p|p|]]; cbn [shr_m]; lia.
Qed.

Lemma shr_nonneg (mrs : shr_record) (e n : Z) :
  0 <= shr_m mrs -> 0 <= shr_m (fst (shr mrs e n)).
Proof.
  intros H. unfold shr. destruct n as [|p|p]; cbn [fst]; try exact H.
  rewrite iter_pos_nat.
  induction (Pos.to_nat p) as [|k IH]; cbn [Nat.iter]; [exact H|].
  apply shr_1_nonneg, IH.
Qed.

Lemma shr_fexp_nonneg (prec emax m e : Z) (l : location) :
  0 <= m -> 0 <= shr_m (fst (shr_fexp prec emax m e l)).
Proof.
  intros H. unfold shr_fexp. apply shr_nonneg.
  destruct l as [|[]]; exact H.
Qed.

Lemma round_nearest_even_nonneg (m : Z) (l : location) :
  0 <= m -> 0 <= round_nearest_even m l.
Proof.
  intros H. unfold round_nearest_even.
  destruct l as [|[]]; try lia. destruct (Z.even m); lia.
Qed.

Lemma round_aux_not_nan (prec emax : Z) (sx : bool) (m e : Z) (l : location) :
  0 <= m -> F32.is_nan (binary_round_aux prec emax sx m e l) = false.
Proof.
  intros H. unfold binary_round_aux.
  pose proof (shr_fexp_nonneg prec emax m e l H) as H1.
  destruct (shr_fexp prec emax m e l) as [mrs' e'].
  cbn [fst] in H1.
  pose proof (shr_fexp_nonneg prec emax _ e' loc_Exact
                (round_nearest_even_nonneg _ (loc_of_shr_record mrs') H1)) as H2.
  destruct (shr_fexp prec emax _ e' loc_Exact) as [mrs'' e''].
  cbn [fst] in H2.
  destruct (shr_m mrs'') as [|p|p].
  - reflexivity.
  - destruct (e'' <=? emax - prec); reflexivity.
  - lia.
Qed.

Lemma normalize_not_nan (prec emax m e : Z) (sz : bool) :
  F32.is_nan (binary_normalize prec emax m e sz) = false.
Proof.
  unfold binary_normalize, binary_round.
  destruct m as [|p|p]; [reflexivity| |];
    destruct (shl_align _ _ _) as [mz ez]; apply round_aux_not_nan; lia.
Qed.

(** Adding, subtracting or multiplying by a finite number, zero aside for
    the product, makes no NaN of a number. *)
Lemma add_not_nan (a : float) (s : bool) (m : positive) (e : Z) :
  F32.is_nan a = false -> F32.is_nan (F32.add a (S754_finite s m e)) = false.
Proof.
  intros H. unfold F32.add.
  destruct a as [sa|sa| |sa ma ea]; try discriminate H; cbn [SFadd];
    try reflexivity.
  apply normalize_not_nan.
Qed.

Lemma sub_not_nan (a : float) (s : bool) (m : positive) (e : Z) :
  F32.is_nan a = false -> F32.is_nan (F32.sub a (S754_finite s m e)) = false.
Proof.
  intros H. unfold F32.sub.
  destruct a as [sa|sa| |sa ma ea]; try discriminate H; cbn [SFsub];
    try reflexivity.
  apply normalize_not_nan.
Qed.

Lemma mul_not_nan (a : float) (s : bool) (m : positive) (e : Z) :
  F32.is_nan a = false -> F32.is_nan (F32.mul a (S754_finite s m e)) = false.
Proof.
  intros H. unfold F32.mul.
  destruct a as [sa|sa| |sa ma ea]; try discriminate H; cbn [SFmul];
    try reflexivity.
  apply round_aux_not_nan. lia.
Qed.

(** *** The speed clamp *)

Lemma accel_step_finite :
  exists s m e, F32.mul ACCELERATION fdt = S754_finite s m e.
Proof. do 3 eexists. evaluate. Qed.

Lemma brake_step_finite :
  exists s m e, F32.mul DECELERATION fdt = S754_finite s m e.
Proof. do 3 eexists. evaluate. Qed.

Lemma FRICTION_finite : exists s m e, FRICTION = S754_finite s m e.
Proof. do 3 eexists. evaluate. Qed.

(** The driven speed is a NaN only when the speed was one. *)
Lemma drive_not_nan (w : World) :
  F32.is_nan (fSpeed (player w)) = false -> F32.is_nan (drive w) = false.
Proof.
  intros H. unfold drive.
  destruct accel_step_finite as (sa & ma & ea & ->).
  destruct brake_step_finite as (sb & mb & eb & ->).
  destruct FRICTION_finite as (sf & mf & ef & ->).
  destruct (negb (bCrashed (player w))); [|reflexivity].
  destruct (input_accel w), (input_brake w);
    repeat first [apply sub_not_nan | apply add_not_nan | apply mul_not_nan];
    exact H.
Qed.

Lemma clamp_speed_nan : clamp_speed S754_nan = S754_nan.
Proof. evaluate. Qed.

Lemma min_not_nan (s : float) :
  F32.is_nan s = false -> F32.is_nan (F32.min MAX_SPEED s) = false.
Proof.
  intros H. unfold F32.min. destruct (F32.lt MAX_SPEED s); [evaluate | exact H].
Qed.

Lemma clamp_speed_lower (s : float) :
  F32.is_nan s = false ->
  F32.le (F32.neg (F32.of_int 15)) (clamp_speed s) = true.
Proof.
  intros H. unfold clamp_speed, F32.max.
  destruct (F32.gt (F32.neg (F32.of_int 15)) (F32.min MAX_SPEED s)) eqn:E.
  - evaluate.
  - apply not_gt_le; [evaluate | apply min_not_nan, H | exact E].
Qed.

Lemma clamp_speed_upper (s : float) :
  F32.is_nan s = false ->
  F32.le (clamp_speed s) MAX_SPEED = true.
Proof.
  intros H. unfold clamp_speed, F32.max.
  destruct (F32.gt (F32.neg (F32.of_int 15)) (F32.min MAX_SPEED s)) eqn:E.
  - evaluate.
  - unfold F32.min. destruct (F32.lt MAX_SPEED s) eqn:L.
    + evaluate.
    + apply not_lt_le; [evaluate | exact H | exact L].
Qed.



Lemma clamp_speed_zero : clamp_speed F32.zero = F32.zero.
Proof. evaluate. Qed.

Lemma top_speed_holds :
  clamp_speed (F32.add MAX_SPEED (F32.mul ACCELERATION fdt)) = MAX_SPEED.
Proof. evaluate. Qed.

Lemma zero_mul_fdt : F32.mul F32.zero fdt = S754_zero false.
Proof. evaluate. Qed.

Lemma add_zero_r (d : float) :
  d <> S754_zero true -> F32.add d (S754_zero false) = d.
Proof.
  destruct d as [[]| | |]; try reflexivity. congruence.
Qed.


(** *** Edge flags *)

Lemma edge_run_app (a b : list EdgeFlag.event) (c : EdgeFlag.cell)
    (t : EdgeFlag.tally) :
  EdgeFlag.run (a ++ b) c t
  = EdgeFlag.run b (fst (EdgeFlag.run a c t)) (snd (EdgeFlag.run a c t)).
Proof.
  revert c t. induction a as [|ev a IH]; intros c t; simpl.
  - reflexivity.
  - destruct ev as [now|pressed|]; simpl; apply IH.
Qed.

(** What has been seen plus what is pending never exceeds what was
    stored, and is at least one as soon as something was stored. *)
Lemma edge_run_invariant (evs : list EdgeFlag.event) (c : EdgeFlag.cell)
    (t : EdgeFlag.tally) :
  (EdgeFlag.seen t + EdgeFlag.pending c <= EdgeFlag.stores t)%nat ->
  (1 <= EdgeFlag.stores t -> 1 <= EdgeFlag.seen t + EdgeFlag.pending c)%nat ->
  let '(c', t') := EdgeFlag.run evs c t in
  (EdgeFlag.seen t' + EdgeFlag.pending c' <= EdgeFlag.stores t')%nat
  /\ (1 <= EdgeFlag.stores t' -> 1 <= EdgeFlag.seen t' + EdgeFlag.pending c')%nat
  /\ (EdgeFlag.seen t <= EdgeFlag.seen t')%nat
  /\ (EdgeFlag.stores t <= EdgeFlag.stores t')%nat.
Proof.
  revert c t. induction evs as [|ev evs IH]; intros c t Hle Hge; simpl.
  - repeat split; auto.
  - destruct ev as [now|pressed|].
    + specialize (IH (EdgeFlag.sample now c)
                    (EdgeFlag.mkTally
                       (if EdgeFlag.rising now c
                        then S (EdgeFlag.stores t) else EdgeFlag.stores t)
                       (EdgeFlag.seen t))).
      destruct (EdgeFlag.run evs _ _) as [c' t'].
      destruct c as [f l], t as [st sn].
      unfold EdgeFlag.sample, EdgeFlag.rising, EdgeFlag.pending in *. simpl in *.
      destruct (now && negb l); simpl in *.
      * destruct IH as (A & B & C & D); [destruct f; lia | lia |].
        repeat split; auto; lia.
      * destruct IH as (A & B & C & D); [exact Hle | exact Hge |].
        repeat split; auto.
    + specialize (IH (EdgeFlag.latch pressed c)
                    (EdgeFlag.mkTally
                       (if pressed
                        then S (EdgeFlag.stores t) else EdgeFlag.stores t)
                       (EdgeFlag.seen t))).
      destruct (EdgeFlag.run evs _ _) as [c' t'].
      destruct c as [f l], t as [st sn].
      unfold EdgeFlag.latch, EdgeFlag.pending in *. simpl in *.
      destruct pressed; simpl in *.
      * destruct IH as (A & B & C & D); [destruct f; lia | lia |].
        repeat split; auto; lia.
      * destruct IH as (A & B & C & D); [exact Hle | exact Hge |].
        repeat split; auto.
    + simpl.
      specialize (IH (EdgeFlag.mkCell false (EdgeFlag.last c))
                    (EdgeFlag.mkTally (EdgeFlag.stores t)
                       (if EdgeFlag.flag c
                        then S (EdgeFlag.seen t) else EdgeFlag.seen t))).
      destruct (EdgeFlag.run evs _ _) as [c' t'].
      destruct c as [f l], t as [st sn].
      unfold EdgeFlag.pending in *. simpl in *.
      destruct f; simpl in *.
      * destruct IH as (A & B & C & D); [lia | lia |].
        repeat split; auto; lia.
      * destruct IH as (A & B & C & D); [lia | lia |].
        repeat split; auto.
Qed.

(** *** Binary64 arithmetic of the accumulator *)

Lemma digits2_pos_size (p : positive) : digits2_pos p = Pos.size p.
Proof. induction p; simpl; congruence. Qed.

Lemma digits_bounds (p : positive) :
  2 ^ (Zpos (digits2_pos p) - 1) <= Zpos p < 2 ^ Zpos (digits2_pos p).
Proof.
  rewrite digits2_pos_size.
  pose proof (Pos.size_gt p) as Hgt.
  pose proof (Pos.size_le p) as Hle.
  apply Pos2Z.pos_lt_pos in Hgt. apply Pos2Z.pos_le_pos in Hle.
  rewrite Pos2Z.inj_pow in Hgt, Hle.
  change (Zpos p~0) with (2 * Zpos p) in Hle.
  replace (Zpos (Pos.size p)) with (Z.succ (Zpos (Pos.size p) - 1)) in Hle by lia.
  rewrite Z.pow_succ_r in Hle by lia.
  lia.
Qed.

Lemma digits_unique (p : positive) (D : Z) :
  2 ^ (D - 1) <= Zpos p < 2 ^ D -> Zpos (digits2_pos p) = D.
Proof.
  intros [Hlo Hhi].
  destruct (digits_bounds p) as [Blo Bhi].
  assert (0 < D).
  { destruct (Z_lt_le_dec 0 D) as [|Hn]; [assumption|].
    exfalso.
    assert (2 ^ D <= 2 ^ 0) by (destruct (Z_lt_le_dec D 0);
      [rewrite Z.pow_neg_r by lia; simpl; lia | apply Z.pow_le_mono_r; lia]).
    simpl in *. lia. }
  destruct (Z_lt_le_dec (Zpos (digits2_pos p)) D) as [Hlt|Hge].
  - exfalso.
    assert (2 ^ Zpos (digits2_pos p) <= 2 ^ (D - 1)) by (apply Z.pow_le_mono_r; lia).
    lia.
  - destruct (Z_lt_le_dec D (Zpos (digits2_pos p))) as [Hlt|Hle]; [|lia].
    exfalso.
    assert (2 ^ D <= 2 ^ (Zpos (digits2_pos p) - 1)) by (apply Z.pow_le_mono_r; lia).
    lia.
Qed.

(** [iter_pos] is iteration. *)
Lemma shr_1_even (n : nat) (P : positive) :
  (2 ^ Z.of_nat n | Zpos P) ->
  exists q, Nat.iter n shr_1 (Build_shr_record (Zpos P) false false)
            = Build_shr_record (Zpos q) false false
            /\ Zpos P = Zpos q * 2 ^ Z.of_nat n.
Proof.
  revert P. induction n as [|n IH]; intros P Hd.
  - exists P. simpl. split; [reflexivity | lia].
  - rewrite Nat.iter_succ_r.
    rewrite Nat2Z.inj_succ, Z.pow_succ_r in Hd by lia.
    destruct P as [P|P|].
    + exfalso. destruct Hd as [c Hc]. lia.
    + destruct (IH P) as (q & Hq & Hv).
      { destruct Hd as [c Hc]. exists c. lia. }
      exists q. split; [exact Hq|].
      rewrite Nat2Z.inj_succ, Z.pow_succ_r by lia. lia.
    + exfalso. destruct Hd as [c Hc]. 
      assert (0 < 2 ^ Z.of_nat n) by (apply Z.pow_pos_nonneg; lia). nia.
Qed.

Lemma iter_xO_value (m p : positive) :
  Zpos (Pos.iter xO m p) = Zpos m * 2 ^ Zpos p.
Proof.
  induction p as [|p IH] using Pos.peano_ind.
  - simpl. lia.
  - rewrite Pos.iter_succ, Pos2Z.inj_succ, Z.pow_succ_r by lia.
    rewrite Pos2Z.inj_xO, IH. lia.
Qed.

Lemma shr_fexp_canonical (mz : positive) (t : Z) :
  Zpos (digits2_pos mz) = 53 -> -1074 <= t ->
  shr_fexp 53 1024 (Zpos mz) t loc_Exact
  = (Build_shr_record (Zpos mz) false false, t).
Proof.
  intros Hd Ht. unfold shr_fexp, fexp, emin, Zdigits2. rewrite Hd.
  replace (Z.max (53 + t - 53) (3 - 1024 - 53) - t) with 0 by lia.
  reflexivity.
Qed.

Lemma round_aux_canonical (mz : positive) (t : Z) :
  Zpos (digits2_pos mz) = 53 -> -1074 <= t <= 971 ->
  binary_round_aux 53 1024 false (Zpos mz) t loc_Exact = S754_finite false mz t.
Proof.
  intros Hd Ht. unfold binary_round_aux.
  rewrite (shr_fexp_canonical mz t Hd) by lia.
  cbn [shr_m loc_of_shr_record round_nearest_even].
  rewrite (shr_fexp_canonical mz t Hd) by lia.
  cbn [shr_m].
  replace (t <=? 1024 - 53) with true by (symmetry; apply Z.leb_le; lia).
  reflexivity.
Qed.

Lemma shr_fexp_shift (P : positive) (E : Z) (n : positive) :
  Zpos (digits2_pos P) = 53 + Zpos n -> -1074 <= E + Zpos n ->
  (2 ^ Zpos n | Zpos P) ->
  exists q, shr_fexp 53 1024 (Zpos P) E loc_Exact
            = (Build_shr_record (Zpos q) false false, E + Zpos n)
            /\ Zpos P = Zpos q * 2 ^ Zpos n.
Proof.
  intros Hd HE Hdiv. unfold shr_fexp, fexp, emin, Zdigits2. rewrite Hd.
  replace (Z.max (53 + Zpos n + E - 53) (3 - 1024 - 53) - E) with (Zpos n) by lia.
  unfold shr. cbn [shr_record_of_loc].
  rewrite iter_pos_nat.
  destruct (shr_1_even (Pos.to_nat n) P) as (q & Hq & Hv).
  { rewrite positive_nat_Z. exact Hdiv. }
  rewrite positive_nat_Z in Hv.
  exists q. rewrite Hq. split; [reflexivity | exact Hv].
Qed.

Lemma binary_round_exact (P : positive) (E j : Z) :
  0 <= j -> (2 ^ j | Zpos P) -> Zpos P < 2 ^ (53 + j) ->
  -1074 <= E + Zpos (digits2_pos P) - 53 ->
  E + Zpos (digits2_pos P) <= 1024 ->
  exists m',
    binary_round 53 1024 false P E
    = S754_finite false m' (E + Zpos (digits2_pos P) - 53)
    /\ Zpos (digits2_pos m') = 53
    /\ Zpos m' * 2 ^ (Zpos (digits2_pos P) + 53) = Zpos P * 2 ^ 106.
Proof.
  intros Hj Hdiv Hlt HE Hmax.
  destruct (digits_bounds P) as [Blo Bhi].
  set (D := Zpos (digits2_pos P)) in *.
  assert (HD1 : 1 <= D) by (unfold D; lia).
  unfold binary_round, fexp, emin.
  fold D.
  replace (Z.max (D + E - 53) (3 - 1024 - 53)) with (D + E - 53) by lia.
  unfold shl_align.
  destruct (D + E - 53 - E) as [|d|d] eqn:Hs.
  - (* D = 53 *)
    assert (HD : D = 53) by lia.
    exists P. replace (E + D - 53) with E by lia.
    rewrite round_aux_canonical by (subst D; lia).
    split; [reflexivity|]. split; [exact HD|].
    rewrite HD. reflexivity.
  - (* D > 53: the low bits are shifted out *)
    assert (HD : D = 53 + Zpos d) by lia.
    assert (Hdj : Zpos d <= j).
    { destruct (Z_lt_le_dec j (Zpos d)) as [Hc|]; [|assumption]. exfalso.
      assert (2 ^ (53 + j) <= 2 ^ (D - 1)) by (apply Z.pow_le_mono_r; lia).
      lia. }
    assert (Hdiv' : (2 ^ Zpos d | Zpos P)).
    { destruct Hdiv as [c Hc]. exists (c * 2 ^ (j - Zpos d)).
      rewrite Hc. rewrite <- Z.mul_assoc, <- Z.pow_add_r by lia.
      f_equal. f_equal. lia. }
    destruct (shr_fexp_shift P E d HD ltac:(lia) Hdiv') as (q & Hq & Hv).
    assert (Hdq : Zpos (digits2_pos q) = 53).
    { apply digits_unique.
      assert (Hp : 0 < 2 ^ Zpos d) by (apply Z.pow_pos_nonneg; lia).
      replace (D - 1) with (52 + Zpos d) in Blo by lia.
      rewrite HD in Bhi.
      rewrite Z.pow_add_r in Blo, Bhi by lia.
      split; nia. }
    exists q. unfold binary_round_aux. rewrite Hq.
    cbn [shr_m loc_of_shr_record round_nearest_even].
    rewrite (shr_fexp_canonical q (E + Zpos d) Hdq) by lia.
    cbn [shr_m].
    replace (E + Zpos d <=? 1024 - 53) with true by (symmetry; apply Z.leb_le; lia).
    replace (E + D - 53) with (E + Zpos d) by lia.
    split; [reflexivity|]. split; [exact Hdq|].
    rewrite Hv, HD.
    replace (53 + Zpos d + 53) with (106 + Zpos d) by lia.
    rewrite Z.pow_add_r by lia. lia.
  - (* D < 53: the mantissa is shifted left *)
    assert (HD : D = 53 - Zpos d) by lia.
    assert (Hv : Zpos (Pos.iter xO P d) = Zpos P * 2 ^ Zpos d) by apply iter_xO_value.
    assert (Hdq : Zpos (digits2_pos (Pos.iter xO P d)) = 53).
    { apply digits_unique. rewrite Hv.
      assert (Hp : 0 < 2 ^ Zpos d) by (apply Z.pow_pos_nonneg; lia).
      assert (E1 : 2 ^ (53 - 1) = 2 ^ (D - 1) * 2 ^ Zpos d)
        by (rewrite <- Z.pow_add_r by lia; f_equal; lia).
      assert (E2 : 2 ^ 53 = 2 ^ D * 2 ^ Zpos d)
        by (rewrite <- Z.pow_add_r by lia; f_equal; lia).
      rewrite E1, E2. split; nia. }
    exists (Pos.iter xO P d).
    rewrite round_aux_canonical by (try exact Hdq; lia).
    replace (E + D - 53) with (D + E - 53) by lia.
    split; [reflexivity|]. split; [exact Hdq|].
    rewrite Hv, HD.
    replace 106 with (Zpos d + (53 - Zpos d + 53)) by lia.
    rewrite (Z.pow_add_r 2 (Zpos d)) by lia. lia.
Qed.

Lemma dt_value : dt = S754_finite false 4803839853068288 (-60).
Proof. evaluate. Qed.

Lemma pow2_pos (n : Z) : 0 <= n -> 0 < 2 ^ n.
Proof. intros. apply Z.pow_pos_nonneg; lia. Qed.

Lemma mantissa_53 (m : positive) :
  Zpos (digits2_pos m) = 53 -> 2 ^ 52 <= Zpos m < 2 ^ 53.
Proof.
  intros H. pose proof (digits_bounds m) as B. rewrite H in B. exact B.
Qed.

Lemma units_split (m : positive) (e N : Z) :
  -60 <= e -> Zpos m * 2 ^ (e + 112) = N * 2 ^ 52 -> N = Zpos m * 2 ^ (e + 60).
Proof.
  intros He H.
  replace (e + 112) with (e + 60 + 52) in H by lia.
  rewrite Z.pow_add_r, Z.mul_assoc in H by lia.
  apply Z.mul_reg_r in H; [lia|].
  pose proof (pow2_pos 52). lia.
Qed.

Lemma units_exponent (m : positive) (e N : Z) :
  Zpos (digits2_pos m) = 53 -> -112 <= e ->
  Zpos m * 2 ^ (e + 112) = N * 2 ^ 52 ->
  (e < -60 -> N < 2 ^ 52) /\ (-60 < e -> 2 ^ 53 <= N)
  /\ (forall k, 0 <= k -> N < 2 ^ (53 + k) -> e < k - 59).
Proof.
  intros Hd He H. apply mantissa_53 in Hd.
  pose proof (pow2_pos 52 ltac:(lia)) as P52.
  split; [|split].
  - intros Hlt.
    assert (2 ^ (e + 112) <= 2 ^ 51) by (apply Z.pow_le_mono_r; lia).
    pose proof (pow2_pos (e + 112) ltac:(lia)).
    assert (N * 2 ^ 52 < 2 ^ 52 * 2 ^ 52); [|nia].
    rewrite <- H.
    replace (2 ^ 52 * 2 ^ 52) with (2 ^ 53 * 2 ^ 51) by (rewrite <- !Z.pow_add_r by lia; reflexivity).
    nia.
  - intros Hgt.
    assert (2 ^ 53 <= 2 ^ (e + 112)) by (apply Z.pow_le_mono_r; lia).
    assert (2 ^ 53 * 2 ^ 52 <= N * 2 ^ 52); [|nia].
    rewrite <- H. nia.
  - intros k Hk Hlt.
    destruct (Z_lt_le_dec e (k - 59)) as [|Hge]; [assumption|exfalso].
    assert (2 ^ (k + 53) <= 2 ^ (e + 112)) by (apply Z.pow_le_mono_r; lia).
    assert (N * 2 ^ 52 < 2 ^ (53 + k) * 2 ^ 52) by nia.
    rewrite <- H in *.
    replace (2 ^ (53 + k) * 2 ^ 52) with (2 ^ 52 * 2 ^ (k + 53)) in *
      by (rewrite <- !Z.pow_add_r by lia; f_equal; lia).
    pose proof (pow2_pos (k + 53) ltac:(lia)).
    nia.
Qed.

Lemma compare_cont_Eq (p q : positive) :
  Pos.compare_cont Eq p q = (p ?= q)%positive.
Proof. reflexivity. Qed.

Lemma units_ge (acc : double) (N : Z) :
  units acc N -> F64.ge acc dt = (dt_units <=? N).
Proof.
  intros [[-> ->] | (m & e & -> & Hd & He & Hv)].
  - reflexivity.
  - rewrite dt_value. unfold F64.ge. cbn [SFcompare].
    destruct (units_exponent m e N Hd He Hv) as (Hlo & Hhi & _).
    destruct (Z.compare_spec e (-60)) as [Heq|Hlt|Hgt].
    + subst e. apply units_split in Hv; [|lia].
      change (2 ^ (-60 + 60)) with 1 in Hv. rewrite Z.mul_1_r in Hv. subst N.
      rewrite compare_cont_Eq.
      unfold dt_units.
      destruct (m ?= 4803839853068288)%positive eqn:Hc; symmetry.
      * apply Pos.compare_eq_iff in Hc. apply Z.leb_le. rewrite Hc. apply Z.le_refl.
      * pose proof (proj1 (Pos.compare_lt_iff _ _) Hc) as Hc'.
        apply Z.leb_gt. apply Pos2Z.pos_lt_pos. exact Hc'.
      * pose proof (proj1 (Pos.compare_gt_iff _ _) Hc) as Hc'.
        apply Z.leb_le. apply Z.lt_le_incl. apply Pos2Z.pos_lt_pos. exact Hc'.
    + specialize (Hlo Hlt). symmetry. apply Z.leb_gt.
      unfold dt_units. change (2 ^ 52) with 4503599627370496 in Hlo. lia.
    + specialize (Hhi ltac:(lia)). symmetry. apply Z.leb_le.
      unfold dt_units. change (2 ^ 53) with 9007199254740992 in Hhi. lia.
Qed.

Lemma sub_dt (m : positive) (e : Z) :
  -60 <= e ->
  F64.sub (S754_finite false m e) dt
  = binary_normalize 53 1024 (Zpos m * 2 ^ (e + 60) - dt_units) (-60) false.
Proof.
  intros He. rewrite dt_value. unfold F64.sub, SFsub.
  replace (Z.min e (-60)) with (-60) by lia.
  f_equal.
  unfold shl_align, cond_Zopp. rewrite Z.sub_diag. cbn [fst].
  destruct (-60 - e) as [|p|p] eqn:Hs.
  - replace e with (-60) by lia. cbn [fst]. change (2 ^ (-60 + 60)) with 1.
    unfold dt_units. lia.
  - lia.
  - cbn [fst]. rewrite iter_xO_value.
    replace (e + 60) with (Zpos p) by lia. reflexivity.
Qed.

Lemma enc_units (N k : Z) :
  0 <= N -> 0 <= k <= 29 -> (2 ^ k | N) -> N < 2 ^ (53 + k) ->
  units (binary_normalize 53 1024 N (-60) false) N.
Proof.
  intros HN Hk Hdiv Hlt.
  destruct N as [|P|P]; [left; split; reflexivity | | lia].
  right. cbn [binary_normalize].
  destruct (digits_bounds P) as [Blo Bhi].
  assert (HD : Zpos (digits2_pos P) <= 82).
  { destruct (Z_lt_le_dec 82 (Zpos (digits2_pos P))) as [Hc|]; [exfalso|lia].
    assert (2 ^ (53 + k) <= 2 ^ (Zpos (digits2_pos P) - 1))
      by (apply Z.pow_le_mono_r; lia).
    lia. }
  destruct (binary_round_exact P (-60) k) as (m' & Hr & Hd & Hv); try lia; try assumption.
  exists m', (-60 + Zpos (digits2_pos P) - 53).
  split; [exact Hr|]. split; [exact Hd|]. split; [lia|].
  replace (-60 + Zpos (digits2_pos P) - 53 + 112) with (Zpos (digits2_pos P) - 1) by lia.
  replace (Zpos (digits2_pos P) + 53) with (Zpos (digits2_pos P) - 1 + 54) in Hv by lia.
  change 106 with (52 + 54) in Hv.
  rewrite !Z.pow_add_r, !Z.mul_assoc in Hv by lia.
  apply Z.mul_reg_r in Hv; [exact Hv|].
  pose proof (pow2_pos 54). lia.
Qed.

Lemma units_sub (acc : double) (N k : Z) :
  units acc N -> dt_units <= N -> 0 <= k <= 29 -> (2 ^ k | N) ->
  N < 2 ^ (53 + k) ->
  units (F64.sub acc dt) (N - dt_units).
Proof.
  intros [[-> ->] | (m & e & -> & Hd & He & Hv)] Hge Hk Hdiv Hlt.
  - unfold dt_units in Hge. lia.
  - destruct (units_exponent m e N Hd He Hv) as (Hlo & _ & _).
    assert (He60 : -60 <= e).
    { destruct (Z_lt_le_dec e (-60)) as [Hc|]; [|assumption].
      specialize (Hlo Hc). change (2 ^ 52) with 4503599627370496 in Hlo.
      unfold dt_units in Hge. lia. }
    rewrite (sub_dt m e He60).
    rewrite <- (units_split m e N He60 Hv).
    apply (enc_units (N - dt_units) k); try lia.
    apply Z.divide_sub_r; [exact Hdiv|].
    apply (Z.divide_trans _ (2 ^ 29)).
    + exists (2 ^ (29 - k)). rewrite <- Z.pow_add_r by lia. f_equal. lia.
    + exists 8947849. reflexivity.
    + unfold dt_units. lia.
Qed.

Lemma drain_units (n : nat) :
  forall (acc : double) (N k : Z) (w : World),
    units acc N -> 0 <= k <= 29 -> (2 ^ k | N) -> N < 2 ^ (53 + k) -> 0 <= N ->
    Z.of_nat n = N / dt_units ->
    exists r,
      units r (N mod dt_units)
      /\ forall fuel, (n <= fuel)%nat ->
           drain fuel acc w = Some (n, r, iterate n w).
Proof.
  assert (Hdpos : 0 < dt_units) by (unfold dt_units; lia).
  induction n as [|n IH]; intros acc N k w Hu Hk Hdiv Hlt HN Hn.
  - assert (HNd : N < dt_units).
    { destruct (Z_lt_le_dec N dt_units) as [|Hc]; [assumption|exfalso].
      assert (1 <= N / dt_units) by (apply Z.div_le_lower_bound; lia).
      lia. }
    exists acc.
    assert (Hge : F64.ge acc dt = false)
      by (rewrite (units_ge acc N Hu); apply Z.leb_gt; exact HNd).
    rewrite Z.mod_small by lia.
    split; [exact Hu|].
    intros fuel _. destruct fuel; simpl; rewrite Hge; reflexivity.
  - assert (HNd : dt_units <= N).
    { destruct (Z_lt_le_dec N dt_units) as [Hc|]; [exfalso|assumption].
      rewrite Z.div_small in Hn by lia. lia. }
    assert (Hge : F64.ge acc dt = true)
      by (rewrite (units_ge acc N Hu); apply Z.leb_le; exact HNd).
    assert (Hq : (N - dt_units) / dt_units = N / dt_units - 1).
    { replace (N - dt_units) with (N + (-1) * dt_units) by lia.
      rewrite Z.div_add by lia. lia. }
    assert (Hm : (N - dt_units) mod dt_units = N mod dt_units).
    { replace (N - dt_units) with (N + (-1) * dt_units) by lia.
      apply Z.mod_add. lia. }
    destruct (IH (F64.sub acc dt) (N - dt_units) k (PhysicsIteration w))
      as (r & Hur & Hr).
    + apply (units_sub acc N k); assumption.
    + exact Hk.
    + apply Z.divide_sub_r; [exact Hdiv|].
      apply (Z.divide_trans _ (2 ^ 29)).
      * exists (2 ^ (29 - k)). rewrite <- Z.pow_add_r by lia. f_equal. lia.
      * exists 8947849. reflexivity.
    + lia.
    + lia.
    + lia.
    + exists r. rewrite <- Hm. split; [exact Hur|].
      intros fuel Hf. destruct fuel as [|fuel]; [lia|].
      simpl. rewrite Hge, (Hr fuel) by lia. reflexivity.
Qed.

Lemma units_ticks (acc : double) (N : Z) :
  units acc N -> ticks acc = N * 2 ^ 1014.
Proof.
  intros [[-> ->] | (m & e & -> & Hd & He & Hv)].
  - reflexivity.
  - unfold ticks, cond_Zopp.
    replace (e + 1074) with (e + 112 + 962) by lia.
    rewrite Z.pow_add_r, Z.mul_assoc, Hv by lia.
    rewrite <- Z.mul_assoc, <- Z.pow_add_r by lia. reflexivity.
Qed.

Lemma ticks_dt : ticks dt = dt_units * 2 ^ 1014.
Proof. rewrite dt_value. reflexivity. Qed.

Lemma two_pow_22_value : F64.of_int 4194304 = S754_finite false 4503599627370496 (-30).
Proof. evaluate. Qed.

Lemma valid_double (s : bool) (m : positive) (e : Z) :
  valid_binary 53 1024 (S754_finite s m e) = true ->
  -1074 <= e <= 971
  /\ Zpos m < 2 ^ 53
  /\ (-1074 < e -> Zpos (digits2_pos m) = 53).
Proof.
  unfold valid_binary, bounded, canonical_mantissa, fexp, emin.
  intros H. apply andb_true_iff in H. destruct H as [Hc He].
  apply Z.eqb_eq in Hc. apply Z.leb_le in He.
  destruct (digits_bounds m) as [_ Bhi].
  assert (HD : Zpos (digits2_pos m) <= 53) by lia.
  split; [lia|]. split; [|lia].
  assert (2 ^ Zpos (digits2_pos m) <= 2 ^ 53) by (apply Z.pow_le_mono_r; lia).
  lia.
Qed.

Lemma short_time (m : positive) (e : Z) :
  valid_binary 53 1024 (S754_finite false m e) = true ->
  F64.lt (S754_finite false m e) (F64.of_int 4194304) = true ->
  e <= -31.
Proof.
  intros Hv Hlt. rewrite two_pow_22_value in Hlt.
  unfold F64.lt, SFltb in Hlt. cbn [SFcompare] in Hlt.
  destruct (valid_double _ _ _ Hv) as (He & _ & Hd).
  destruct (Z.compare_spec e (-30)) as [Heq|Hl|Hg]; [|lia|discriminate].
  exfalso. subst e. rewrite compare_cont_Eq in Hlt.
  destruct (m ?= 4503599627370496)%positive eqn:Hc; try discriminate.
  pose proof (proj1 (Pos.compare_lt_iff _ _) Hc) as Hc'.
  apply Pos2Z.pos_lt_pos in Hc'.
  pose proof (mantissa_53 m (Hd ltac:(lia))) as [B _].
  change (2 ^ 52) with 4503599627370496 in B. lia.
Qed.

(** Below [2^22] seconds every subtraction of [dt] is exact, so the loop
    computes the quotient and the remainder of the exact values. *)
Lemma drain_floor (T : double) (w : World) :
  valid_binary 53 1024 T = true ->
  F64.ge T F64.zero = true ->
  F64.lt T (F64.of_int 4194304) = true ->
  exists n r,
    (forall fuel, (n <= fuel)%nat -> drain fuel T w = Some (n, r, iterate n w))
    /\ Z.of_nat n = ticks T / ticks dt
    /\ ticks r = ticks T mod ticks dt.
Proof.
  intros Hv Hpos Hlt.
  assert (HK : 0 < 2 ^ 1014) by (apply pow2_pos; lia).
  assert (Hdpos : 0 < dt_units) by (unfold dt_units; lia).
  destruct T as [s|s| |s m e].
  - exists 0%nat, (S754_zero s). split; [|split; reflexivity].
    intros fuel _. destruct fuel; reflexivity.
  - destruct s; discriminate.
  - discriminate.
  - destruct s; [discriminate|].
    pose proof (short_time m e Hv Hlt) as He31.
    destruct (valid_double _ _ _ Hv) as (He & Hm & Hd).
    destruct (Z_lt_le_dec e (-60)) as [Hsmall|Hbig].
    + exists 0%nat, (S754_finite false m e).
      assert (Hge : F64.ge (S754_finite false m e) dt = false).
      { rewrite dt_value. unfold F64.ge. cbn [SFcompare].
        destruct (Z.compare_spec e (-60)); try lia; reflexivity. }
      assert (Ht : 0 <= ticks (S754_finite false m e) < ticks dt).
      { rewrite ticks_dt. unfold ticks, cond_Zopp.
        pose proof (pow2_pos (e + 1074) ltac:(lia)) as Hp.
        assert (2 ^ (e + 1074) <= 2 ^ 1013) by (apply Z.pow_le_mono_r; lia).
        split; [nia|].
        assert (2 ^ 53 * 2 ^ 1013 <= dt_units * 2 ^ 1014).
        { replace (2 ^ 53 * 2 ^ 1013) with (2 ^ 52 * 2 ^ 1014)
            by (rewrite <- !Z.pow_add_r by lia; reflexivity).
          apply Z.mul_le_mono_nonneg_r; [lia|].
          unfold dt_units. change (2 ^ 52) with 4503599627370496. lia. }
        nia. }
      split; [|split].
      * intros fuel _. destruct fuel; simpl; rewrite Hge; reflexivity.
      * rewrite Z.div_small by exact Ht. reflexivity.
      * rewrite Z.mod_small by exact Ht. reflexivity.
    + specialize (Hd ltac:(lia)).
      set (N := Zpos m * 2 ^ (e + 60)).
      pose proof (pow2_pos (e + 60) ltac:(lia)) as Hp.
      assert (HN : 0 <= N) by (unfold N; nia).
      assert (Hu : units (S754_finite false m e) N).
      { right. exists m, e. split; [reflexivity|]. split; [exact Hd|].
        split; [lia|]. unfold N.
        replace (e + 112) with (e + 60 + 52) by lia.
        rewrite Z.pow_add_r by lia. lia. }
      assert (Hdiv : (2 ^ (e + 60) | N)) by (exists (Zpos m); reflexivity).
      assert (HNlt : N < 2 ^ (53 + (e + 60))).
      { rewrite Z.pow_add_r by lia. unfold N.
        apply Z.mul_lt_mono_pos_r; assumption. }
      destruct (drain_units (Z.to_nat (N / dt_units)) (S754_finite false m e) N
                  (e + 60) w Hu ltac:(lia) Hdiv HNlt HN)
        as (r & Hur & Hr).
      { rewrite Z2Nat.id; [reflexivity|]. apply Z.div_pos; lia. }
      exists (Z.to_nat (N / dt_units)), r.
      split; [exact Hr|]. split.
      * rewrite (units_ticks _ _ Hu), ticks_dt.
        rewrite Z.div_mul_cancel_r by lia.
        apply Z2Nat.id. apply Z.div_pos; lia.
      * rewrite (units_ticks _ _ Hur), (units_ticks _ _ Hu), ticks_dt.
        rewrite Z.mul_mod_distr_r by lia. reflexivity.
Qed.

Lemma stalled_forever (fuel : nat) (w : World) : drain fuel stalled w = None.
Proof.
  assert (Hge : F64.ge stalled dt = true) by (evaluate).
  assert (Hsub : F64.sub stalled dt = stalled) by (evaluate).
  revert w. induction fuel as [|fuel IH]; intros w; cbn [drain]; rewrite Hge.
  - reflexivity.
  - rewrite Hsub, IH. reflexivity.
Qed.

(** *** What an iteration can come to *)

Lemma PhysicsStep_fields (w : World) :
  currentState w = KERNEL_RUNNING ->
  bCrashed (player (PhysicsStep w)) = bCrashed (player w)
  /\ nSteerState (player (PhysicsStep w)) = input_steer w
  /\ input_steer (PhysicsStep w) = input_steer w
  /\ (currentState (PhysicsStep w) = KERNEL_RUNNING
      \/ (currentState (PhysicsStep w) = GAME_WIN
          /\ fDistance (player (PhysicsStep w)) = fTotalTrackLength w)).
Proof.
  intros Hs. unfold PhysicsStep. rewrite Hs. simpl.
  repeat split.
  destruct (F32.ge _ _); [right; split; reflexivity | left; reflexivity].
Qed.

Lemma iteration_inputs (w : World) :
  input_steer (PhysicsIteration w) = input_steer w.
Proof.
  unfold PhysicsIteration.
  assert (Hw : forall v, input_steer (ObstacleWarning v) = input_steer v).
  { intros v. unfold ObstacleWarning.
    destruct (GameState_eqb _ _); [|reflexivity].
    destruct (warn_in_track _ _ _) as [[d o]|]; reflexivity. }
  assert (Hs : input_steer (PhysicsStep w) = input_steer w).
  { unfold PhysicsStep. destruct (GameState_eqb _ _); reflexivity. }
  assert (He : input_steer (EnforceBoundaryProtection (PhysicsStep w)) = input_steer w).
  { rewrite Enforce_cases. destruct (_ && _); exact Hs. }
  rewrite Hw.
  destruct (Check_cases (EnforceBoundaryProtection (PhysicsStep w))) as [-> | ->];
    exact He.
Qed.

(** An iteration ends either as its locked step left the PCB and the game
    state, the vehicle then being crashed already or inside the road
    limits, or with the crash of what that step left. *)
Lemma iteration_outcome (w : World) :
  (player (PhysicsIteration w) = player (PhysicsStep w)
   /\ currentState (PhysicsIteration w) = currentState (PhysicsStep w)
   /\ off_road (fX_Register (player (PhysicsStep w)))
      && negb (bCrashed (player (PhysicsStep w))) = false)
  \/ (player (PhysicsIteration w) = player (crash (PhysicsStep w))
      /\ currentState (PhysicsIteration w) = GAME_OVER
      /\ bCrashed (player (PhysicsStep w)) = false).
Proof.
  unfold PhysicsIteration. rewrite Warning_player, Warning_state.
  rewrite Enforce_cases.
  destruct (off_road _ && negb _) eqn:E.
  - right. rewrite Check_idle by (left; reflexivity).
    apply andb_true_iff in E. destruct E as [_ E].
    apply negb_true_iff in E. repeat split. exact E.
  - unfold CheckObstacleCollision.
    destruct (bCrashed (player (PhysicsStep w))) eqn:Hc; simpl.
    + left. repeat split.
    + destruct (negb (GameState_eqb (currentState (PhysicsStep w)) KERNEL_RUNNING));
        [left; repeat split|].
      destruct (collision_cursor _ _ _ _) as [[[d i] s0] [sg|]];
        [|left; repeat split].
      destruct (fst _); [right | left]; repeat split.
Qed.

(** ** The claims *)

(** *** Winning *)

(** C1, as stated, fails: in [photo_finish] the locked step reaches the
    track length, clamps the distance and sets [GAME_WIN] with the win
    signal, and the boundary check of the same iteration, which looks at no
    game state, turns that [GAME_WIN] into [GAME_OVER]. *)
Lemma win_overridden_by_boundary_check :
  currentState photo_finish = KERNEL_RUNNING
  /\ currentState (PhysicsStep photo_finish) = GAME_WIN
  /\ fDistance (player (PhysicsStep photo_finish)) = fTotalTrackLength photo_finish
  /\ sound_win (PhysicsStep photo_finish) = true
  /\ currentState (EnforceBoundaryProtection (PhysicsStep photo_finish)) = GAME_OVER
  /\ currentState (PhysicsIteration photo_finish) = GAME_OVER.
Proof. repeat split; evaluate. Qed.

(** C1, amended.  When the distance reaches the track length during a
    locked step in [KERNEL_RUNNING], that step clamps the distance to
    exactly the track length, sets [GAME_WIN] and raises the win signal.
    If the vehicle is then crashed already or inside the road limits, the
    iteration ends in [GAME_WIN], and every further iteration leaves the
    game state [GAME_WIN] and the PCB as that step left it.  From any world
    in [GAME_WIN] whose vehicle is crashed or inside the road limits, no
    number of iterations changes the game state or the PCB; the render
    thread's acknowledgement of the win screen resets the PCB and moves
    the game to [MAP_SELECT]. *)
Theorem win_latches (w : World) :
  currentState w = KERNEL_RUNNING ->
  F32.ge (F32.add (fDistance (player w)) (F32.mul (clamp_speed (drive w)) fdt))
    (fTotalTrackLength w) = true ->
  (fDistance (player (PhysicsStep w)) = fTotalTrackLength w
   /\ currentState (PhysicsStep w) = GAME_WIN
   /\ sound_win (PhysicsStep w) = true)
  /\ (off_road (fX_Register (player (PhysicsStep w)))
      && negb (bCrashed (player (PhysicsStep w))) = false ->
      forall n,
        currentState (iterate (S n) w) = GAME_WIN
        /\ player (iterate (S n) w) = player (PhysicsStep w)
        /\ sound_win (iterate (S n) w) = true)
  /\ (forall v n,
        currentState v = GAME_WIN ->
        off_road (fX_Register (player v)) && negb (bCrashed (player v)) = false ->
        currentState (iterate n v) = GAME_WIN /\ player (iterate n v) = player v)
  /\ (forall v,
        currentState (acknowledge v) = MAP_SELECT
        /\ player (acknowledge v) = PlayerPCB_Reset).
Proof.
  intros Hs Hw.
  destruct (PhysicsStep_win w Hs Hw) as (Hd & Hst & Hsw).
  split; [repeat split; assumption|]. split; [|split; [|split; reflexivity]].
  - intros Hr n. simpl.
    assert (Hnr : currentState (PhysicsStep w) <> KERNEL_RUNNING)
      by (rewrite Hst; discriminate).
    assert (Hp : player (PhysicsIteration w) = player (PhysicsStep w)
                 /\ currentState (PhysicsIteration w) = GAME_WIN
                 /\ sound_win (PhysicsIteration w) = true).
    { unfold PhysicsIteration.
      rewrite Enforce_cases, Hr.
      rewrite Check_idle by (right; exact Hnr).
      rewrite Warning_player, Warning_state.
      destruct (Warning_signals (PhysicsStep w)) as (_ & _ & -> & _).
      repeat split; assumption. }
    destruct Hp as (Hp & Hc & Hsw').
    destruct (iterate_idle n (PhysicsIteration w)) as (Hp' & Hc' & Hw').
    + rewrite Hc. discriminate.
    + rewrite Hp. exact Hr.
    + rewrite Hc', Hp', Hw', Hc, Hp, Hsw'. repeat split.
  - intros v n Hv Hr.
    destruct (iterate_idle n v) as (Hp' & Hc' & _).
    + rewrite Hv. discriminate.
    + exact Hr.
    + rewrite Hc', Hp', Hv. split; reflexivity.
Qed.

Lemma win_latches_witness :
  currentState (iterate 240 clean_finish) = GAME_WIN
  /\ fDistance (player (iterate 240 clean_finish)) = F32.of_int 1000.
Proof.
  assert (Hs : currentState clean_finish = KERNEL_RUNNING) by reflexivity.
  assert (Hw : F32.ge
                 (F32.add (fDistance (player clean_finish))
                    (F32.mul (clamp_speed (drive clean_finish)) fdt))
                 (fTotalTrackLength clean_finish) = true)
    by (evaluate).
  destruct (win_latches clean_finish Hs Hw) as ((Hd & _) & H & _).
  assert (Hr : off_road (fX_Register (player (PhysicsStep clean_finish)))
               && negb (bCrashed (player (PhysicsStep clean_finish))) = false)
    by (evaluate).
  destruct (H Hr 239%nat) as (Hc & Hp & _).
  split; [exact Hc|].
  rewrite Hp, Hd. evaluate.
Defined.

(** *** The overlap cases *)

(** C2, as stated, fails at [x = 0.19]: the vehicle spans about
    [[0.01, 0.37]], which meets the obstacle's [[-0.2, 0.2]], and the
    detector crashes the vehicle. *)
Lemma overlap_case_019_collides :
  in_window (F32.of_int 10) centre_obstacle = true
  /\ hits (F32.of_int 10) (F32.dec 19 2) centre_obstacle = true
  /\ currentState (CheckObstacleCollision (centre_scene (F32.dec 19 2)))
     = GAME_OVER.
Proof. repeat split; evaluate. Qed.

(** C2, amended.  For an obstacle at lateral offset 0 of width 0.4 and a
    vehicle inside the obstacle's longitudinal window, the detector
    classifies [x = 0.19] as colliding, [x = 0.01] as colliding and
    [x = 0.5] as not colliding. *)
Theorem overlap_cases (obs : Obstacle) (fDistInSeg : float) :
  fOffsetX obs = F32.zero ->
  fWidth obs = F32.dec 4 1 ->
  in_window fDistInSeg obs = true ->
  hits fDistInSeg (F32.dec 19 2) obs = true
  /\ hits fDistInSeg (F32.dec 1 2) obs = true
  /\ hits fDistInSeg (F32.dec 5 1) obs = false.
Proof.
  intros Ho Hw Hin. unfold hits, overlaps. rewrite Hin, Ho, Hw.
  repeat split; evaluate.
Qed.

Lemma overlap_cases_witness :
  hits (F32.of_int 10) (F32.dec 19 2) centre_obstacle = true
  /\ hits (F32.of_int 10) (F32.dec 1 2) centre_obstacle = true
  /\ hits (F32.of_int 10) (F32.dec 5 1) centre_obstacle = false.
Proof.
  apply (overlap_cases centre_obstacle (F32.of_int 10));
    evaluate.
Defined.

(** *** The boundary check *)

(** C3.  [EnforceBoundaryProtection] tests
    [x - 0.18 <= -1.0 || x + 0.18 >= 1.0]; it acts exactly when that test
    holds and the vehicle is not yet crashed, and then sets [bCrashed],
    zeroes [fSpeed], moves the game state to [GAME_OVER] and raises
    [sound_crash] and [sound_gameover], leaving every other field as it
    was; otherwise it returns the world unchanged.  At [x = 0.80] the test
    is false, at [x = 0.83] it is true. *)
Theorem boundary_check_spec (w : World) :
  let x := fX_Register (player w) in
  off_road x
  = (F32.le (F32.sub x (F32.dec 18 2)) (F32.neg (F32.of_int 1))
     || F32.ge (F32.add x (F32.dec 18 2)) (F32.of_int 1))
  /\ EnforceBoundaryProtection w
     = (if off_road x && negb (bCrashed (player w)) then crash w else w)
  /\ (bCrashed (player (crash w)) = true
      /\ fSpeed (player (crash w)) = F32.zero
      /\ currentState (crash w) = GAME_OVER
      /\ sound_crash (crash w) = true
      /\ sound_gameover (crash w) = true)
  /\ (fX_Register (player (crash w)) = fX_Register (player w)
      /\ fDistance (player (crash w)) = fDistance (player w)
      /\ fHeadingAngle (player (crash w)) = fHeadingAngle (player w)
      /\ fCurvature (player (crash w)) = fCurvature (player w)
      /\ fPlayerCurvature (player (crash w)) = fPlayerCurvature (player w)
      /\ nSteerState (player (crash w)) = nSteerState (player w)
      /\ sound_win (crash w) = sound_win w
      /\ vecTrack (crash w) = vecTrack w
      /\ fTotalTrackLength (crash w) = fTotalTrackLength w)
  /\ off_road (F32.dec 80 2) = false
  /\ off_road (F32.dec 83 2) = true
  /\ EnforceBoundaryProtection (scene 1 KERNEL_RUNNING (vehicle_at (F32.dec 80 2) false) 0 false false)
     = scene 1 KERNEL_RUNNING (vehicle_at (F32.dec 80 2) false) 0 false false
  /\ EnforceBoundaryProtection (scene 1 KERNEL_RUNNING (vehicle_at (F32.dec 83 2) false) 0 false false)
     = crash (scene 1 KERNEL_RUNNING (vehicle_at (F32.dec 83 2) false) 0 false false).
Proof.
  cbv zeta. split; [reflexivity|].
  split; [apply Enforce_cases|].
  split; [apply crash_effects|].
  split; [apply crash_frame|].
  repeat split; evaluate.
Qed.

(** *** The obstacle check *)

(** C4.  [CheckObstacleCollision] returns at once when the vehicle is
    crashed or the game state is not [KERNEL_RUNNING].  Otherwise it
    resolves the active segment and the in-segment offset with its cursor;
    beyond the end of the track it does nothing.  An obstacle of the active
    segment counts when the in-segment offset lies in
    [[segOffset - 0.5, segOffset + 0.5]] and
    [max(x - 0.18, off - width/2) < min(x + 0.18, off + width/2)].  If some
    obstacle of the segment counts, the world is crashed (flag set, speed
    zero, [GAME_OVER], both signals), and the loop leaves at the first such
    obstacle in list order, having looked at no obstacle after it;
    otherwise the world is unchanged. *)
Theorem obstacle_check_spec (w : World) :
  let x := fX_Register (player w) in
  (bCrashed (player w) = true \/ currentState w <> KERNEL_RUNNING ->
   CheckObstacleCollision w = w)
  /\ (bCrashed (player w) = false -> currentState w = KERNEL_RUNNING ->
      let '(fDistInSeg, section, _, active) :=
        collision_cursor (vecTrack w) (fDistance (player w)) 0 F32.zero in
      active = nth_error (vecTrack w) (Z.to_nat section)
      /\ match active with
         | None => CheckObstacleCollision w = w
         | Some currentSeg =>
             CheckObstacleCollision w
             = (if existsb (hits fDistInSeg x) (vecObstacles currentSeg)
                then crash w else w)
             /\ (existsb (hits fDistInSeg x) (vecObstacles currentSeg) = false ->
                 scan_obstacles (vecObstacles currentSeg) fDistInSeg x 0
                 = (false, length (vecObstacles currentSeg)))
             /\ (forall pre o post,
                   vecObstacles currentSeg = pre ++ o :: post ->
                   existsb (hits fDistInSeg x) pre = false ->
                   hits fDistInSeg x o = true ->
                   scan_obstacles (vecObstacles currentSeg) fDistInSeg x 0
                   = (true, S (length pre)))
         end)
  /\ (forall d o,
        hits d x o
        = ((F32.ge d (F32.sub (fSegDistance o) (F32.dec 5 1))
            && F32.le d (F32.add (fSegDistance o) (F32.dec 5 1)))
           && F32.lt
                (F32.max (F32.sub x PLAYER_HALF_WIDTH)
                   (F32.sub (fOffsetX o) (F32.div (fWidth o) (F32.of_int 2))))
                (F32.min (F32.add x PLAYER_HALF_WIDTH)
                   (F32.add (fOffsetX o) (F32.div (fWidth o) (F32.of_int 2))))))
  /\ (bCrashed (player (crash w)) = true
      /\ fSpeed (player (crash w)) = F32.zero
      /\ currentState (crash w) = GAME_OVER
      /\ sound_crash (crash w) = true
      /\ sound_gameover (crash w) = true).
Proof.
  cbv zeta. split; [apply Check_idle|].
  split; [|split; [reflexivity | apply crash_effects]].
  intros Hc Hs.
  pose proof (collision_cursor_index (vecTrack w) (fDistance (player w)) 0 F32.zero) as Hi.
  unfold CheckObstacleCollision.
  rewrite Hc, Hs. simpl.
  destruct (collision_cursor _ _ _ _) as [[[d i] st] [sg|]];
    destruct Hi as [_ Hi]; rewrite Z.sub_0_r in Hi; (split; [exact Hi|]).
  - rewrite scan_obstacles_existsb.
    split; [reflexivity|]. split.
    + intros H. apply (scan_obstacles_miss _ _ _ 0%nat H).
    + intros pre o post -> Hpre Ho.
      apply (scan_obstacles_hit pre post o _ _ 0%nat Hpre Ho).
  - reflexivity.
Qed.

(** The check on map 2: at lateral offset 0.4 and 20 units into the fifth
    segment the vehicle meets the first obstacle of that segment, and the
    second one is never looked at. *)
Lemma obstacle_check_spec_witness :
  CheckObstacleCollision (slalom_scene (F32.dec 4 1))
  = crash (slalom_scene (F32.dec 4 1))
  /\ scan_obstacles
       [ mkObstacle (F32.of_int 20) (F32.dec 4 1) (F32.dec 3 1);
         mkObstacle (F32.of_int 70) (F32.neg (F32.dec 5 1)) (F32.dec 4 1) ]
       (F32.of_int 20) (F32.dec 4 1) 0 = (true, 1%nat).
Proof.
  destruct (obstacle_check_spec (slalom_scene (F32.dec 4 1))) as (_ & H & _).
  specialize (H eq_refl eq_refl).
  remember (collision_cursor _ _ _ _) as c eqn:E in H.
  vm_compute in E. subst c. cbv beta iota zeta in H.
  destruct H as (_ & Hc & _ & Hf).
  split.
  - rewrite Hc. evaluate.
  - specialize (Hf [] (mkObstacle (F32.of_int 20) (F32.dec 4 1) (F32.dec 3 1))
                  [mkObstacle (F32.of_int 70) (F32.neg (F32.dec 5 1)) (F32.dec 4 1)]).
    vm_compute in Hf. vm_compute. apply Hf; reflexivity.
Defined.

(** *** The fixed-step accumulator *)

(** C5, as stated, fails on the distance: at the constant top speed, with
    exactly six steps in the accumulator, the loop makes its six steps and
    leaves the distance at [10485761 * 2^-23], the binary32 sum of six
    rounded increments; the product [6 * speed * dt] is [1.25] when
    evaluated in binary32 and [2684354700 * 2^-31] exactly, and the distance
    is neither.  It also fails for a very large accumulator: at [2^70]
    seconds the subtraction of [dt] returns the accumulator unchanged and
    the loop never leaves. *)
Lemma running_sum_is_not_the_product :
  drain 6 six_dt cruise = Some (6%nat, S754_zero false, iterate 6 cruise)
  /\ ticks six_dt / ticks dt = 6
  /\ map (fun k => fSpeed (player (iterate k cruise))) (seq 0 7)
     = repeat (F32.of_int 50) 7
  /\ fDistance (player cruise) = F32.zero
  /\ fDistance (player (iterate 6 cruise)) = S754_finite false 10485761 (-23)
  /\ F32.mul (F32.of_int 6) (F32.mul (F32.of_int 50) fdt)
     = S754_finite false 10485760 (-23)
  /\ ticks (fDistance (player (iterate 6 cruise))) <> 6 * (50 * ticks dt)
  /\ F64.sub stalled dt = stalled
  /\ (forall fuel w, drain fuel stalled w = None).
Proof.
  split; [evaluate|].
  split; [evaluate|].
  split; [evaluate|].
  split; [reflexivity|].
  split; [evaluate|].
  split; [evaluate|].
  split; [intros H; vm_compute in H; discriminate H|].
  split; [evaluate|].
  apply stalled_forever.
Qed.

Lemma iterate_snoc (n : nat) (w : World) :
  iterate (S n) w = PhysicsIteration (iterate n w).
Proof.
  revert w. induction n as [|n IH]; intros w; [reflexivity|].
  change (iterate (S (S n)) w) with (iterate (S n) (PhysicsIteration w)).
  rewrite IH. reflexivity.
Qed.

(** A pass that starts and ends in [KERNEL_RUNNING] has neither won nor
    crashed: it adds the product of the new speed and [dt] to the
    distance. *)
Lemma running_pass (v : World) :
  currentState v = KERNEL_RUNNING ->
  currentState (PhysicsIteration v) = KERNEL_RUNNING ->
  fDistance (player (PhysicsIteration v))
  = F32.add (fDistance (player v))
      (F32.mul (fSpeed (player (PhysicsIteration v))) fdt).
Proof.
  intros Hs He.
  destruct (PhysicsStep_speed_distance v Hs) as (Hsp & Hd).
  destruct (iteration_outcome v) as [(Hp & Hst & _) | (_ & Hst & _)];
    [|rewrite Hst in He; discriminate He].
  rewrite Hp, Hd, Hsp.
  rewrite Hst in He. unfold PhysicsStep in He. rewrite Hs in He.
  cbn [GameState_eqb currentState] in He.
  match type of He with
  | context [F32.ge ?a ?b] => destruct (F32.ge a b); [discriminate He | reflexivity]
  end.
Qed.

Lemma running_distance (s : float) (n : nat) (w : World) :
  constant_speed s n w ->
  fDistance (player (iterate n w)) = running_sum s n (fDistance (player w)).
Proof.
  induction n as [|n IH]; intros H; [reflexivity|].
  rewrite iterate_snoc.
  destruct (H n ltac:(lia)) as (Hs & _).
  destruct (H (S n) ltac:(lia)) as (He & Hv).
  rewrite iterate_snoc in He, Hv.
  rewrite (running_pass _ Hs He), Hv.
  rewrite IH by (intros k Hk; apply H; lia).
  reflexivity.
Qed.

(** C5, amended.  With the program's [dt] (1/240 rounded to binary32) and
    an accumulator [T] that is a valid double with [0 <= T < 2^22], the
    fixed-step loop terminates after exactly [n = floor(T / dt)] passes,
    each subtracting [dt] without rounding error, and leaves exactly
    [T mod dt], quotient and remainder being those of the exact values.
    When a speed [s] is held across those [n] passes, the distance the
    loop leaves is the distance it found with [s * dt] added [n] times,
    each product and each sum rounded to binary32.  Each pass in
    [KERNEL_RUNNING] sets the distance to the binary32 sum of the old
    distance and the binary32 product of the new speed and [dt], clamped
    at the track length; at top speed with the accelerator held and the
    brake released the speed stays [MAX_SPEED]. *)
Theorem fixed_step_accumulator (T : double) (w : World) :
  valid_binary F64.prec F64.emax T = true ->
  F64.ge T F64.zero = true ->
  F64.lt T (F64.of_int 4194304) = true ->
  (exists n r,
     (forall fuel, (n <= fuel)%nat -> drain fuel T w = Some (n, r, iterate n w))
     /\ Z.of_nat n = ticks T / ticks dt
     /\ ticks r = ticks T mod ticks dt
     /\ ticks T = Z.of_nat n * ticks dt + ticks r
     /\ (forall s,
           constant_speed s n w ->
           fDistance (player (iterate n w))
           = running_sum s n (fDistance (player w))))
  /\ (forall v,
        currentState v = KERNEL_RUNNING ->
        let speed := fSpeed (player (PhysicsStep v)) in
        let moved := F32.add (fDistance (player v)) (F32.mul speed fdt) in
        fDistance (player (PhysicsIteration v))
        = (if F32.ge moved (fTotalTrackLength v)
           then fTotalTrackLength v else moved))
  /\ (forall v,
        currentState v = KERNEL_RUNNING ->
        bCrashed (player v) = false ->
        fSpeed (player v) = MAX_SPEED ->
        input_accel v = true ->
        input_brake v = false ->
        fSpeed (player (PhysicsStep v)) = MAX_SPEED).
Proof.
  intros Hv Hpos Hlt. split; [|split].
  - destruct (drain_floor T w Hv Hpos Hlt) as (n & r & Hr & Hn & Hm).
    exists n, r. split; [exact Hr|]. split; [exact Hn|]. split; [exact Hm|].
    split.
    + rewrite Hn, Hm, Z.mul_comm. apply Z.div_mod.
      rewrite ticks_dt.
      assert (0 < 2 ^ 1014) by (apply pow2_pos; lia).
      unfold dt_units. lia.
    + intros s Hheld. apply running_distance, Hheld.
  - intros v Hs. cbv zeta.
    destruct (PhysicsStep_speed_distance v Hs) as (Hsp & Hd).
    unfold PhysicsIteration. rewrite detectors_keep_distance, Hsp. exact Hd.
  - intros v Hs Hc Hsp Ha Hb.
    destruct (PhysicsStep_speed_distance v Hs) as (-> & _).
    unfold drive. rewrite Hc, Ha, Hb, Hsp. apply top_speed_holds.
Qed.

Lemma cruise_holds_top_speed : constant_speed (F32.of_int 50) 6 cruise.
Proof.
  intros k Hk.
  assert (E : (k = 0 \/ k = 1 \/ k = 2 \/ k = 3 \/ k = 4 \/ k = 5 \/ k = 6)%nat) by lia.
  destruct E as [-> | [-> | [-> | [-> | [-> | [-> | ->]]]]]]; split; evaluate.
Qed.

Lemma six_steps_in_six_dt : ticks six_dt / ticks dt = 6.
Proof. evaluate. Qed.

Lemma fixed_step_accumulator_witness :
  exists r,
    (forall fuel, (6 <= fuel)%nat ->
       drain fuel six_dt cruise = Some (6%nat, r, iterate 6 cruise))
    /\ ticks r = ticks six_dt mod ticks dt
    /\ fDistance (player (iterate 6 cruise))
       = running_sum (F32.of_int 50) 6 (fDistance (player cruise)).
Proof.
  assert (Hv : valid_binary F64.prec F64.emax six_dt = true)
    by (evaluate).
  assert (Hpos : F64.ge six_dt F64.zero = true) by (evaluate).
  assert (Hlt : F64.lt six_dt (F64.of_int 4194304) = true)
    by (evaluate).
  destruct (fixed_step_accumulator six_dt cruise Hv Hpos Hlt)
    as ((n & r & Hr & Hn & Hm & _ & Hd) & _).
  assert (E : n = 6%nat) by (rewrite six_steps_in_six_dt in Hn; lia).
  subst n. exists r.
  split; [exact Hr|]. split; [exact Hm|].
  exact (Hd (F32.of_int 50) cruise_holds_top_speed).
Defined.

(** *** Edge flags are seen once *)

(** C6.  Take any interleaving of sampler iterations and consumer
    exchanges on one one-shot flag, starting with the flag and the
    sampler's previous reading both false; the sampler is the edge
    detector of the six keys or the latch of the escape key.  If up to
    some point the sampler has stored [true] exactly once (one rising
    edge), then however many sampler iterations and earlier exchanges that
    prefix holds, the edge is at that point either pending in the flag and
    not yet seen, or seen exactly once and the flag clear.  If the consumer
    then performs an exchange, and no further store occurs in the rest of
    the run, the consumer has seen [true] exactly once in the whole run:
    right after that exchange and at the end. *)
Theorem edge_seen_exactly_once (evs rest : list EdgeFlag.event) :
  let before := EdgeFlag.run evs EdgeFlag.init EdgeFlag.nothing in
  let upto := EdgeFlag.run (evs ++ [EdgeFlag.Exchange]) EdgeFlag.init EdgeFlag.nothing in
  let whole :=
    EdgeFlag.run (evs ++ EdgeFlag.Exchange :: rest) EdgeFlag.init EdgeFlag.nothing in
  EdgeFlag.stores (snd before) = 1%nat ->
  EdgeFlag.stores (snd whole) = 1%nat ->
  ((EdgeFlag.seen (snd before) = 0%nat /\ EdgeFlag.flag (fst before) = true)
   \/ (EdgeFlag.seen (snd before) = 1%nat /\ EdgeFlag.flag (fst before) = false))
  /\ EdgeFlag.seen (snd upto) = 1%nat
  /\ EdgeFlag.flag (fst upto) = false
  /\ EdgeFlag.seen (snd whole) = 1%nat.
Proof.
  cbv zeta. intros Hb Hw.
  pose proof (edge_run_invariant evs EdgeFlag.init EdgeFlag.nothing) as Hi.
  simpl in Hi. specialize (Hi (le_n 0) ltac:(lia)).
  rewrite !edge_run_app in *.
  destruct (EdgeFlag.run evs EdgeFlag.init EdgeFlag.nothing) as [c t].
  destruct Hi as (A & B & _ & _). simpl in Hb. simpl fst in *. simpl snd in *.
  destruct c as [f l], t as [st sn]. unfold EdgeFlag.pending in *.
  simpl in *. subst st.
  assert (Hsn : (if f then S sn else sn) = 1%nat) by (destruct f; lia).
  split; [destruct f; [left | right]; split; auto; lia|].
  split; [exact Hsn|]. split; [reflexivity|].
  pose proof (edge_run_invariant rest
                (EdgeFlag.mkCell false l)
                (EdgeFlag.mkTally 1 (if f then S sn else sn))) as Hr.
  unfold EdgeFlag.pending in Hr. simpl in Hr. rewrite Hsn in *.
  specialize (Hr ltac:(lia) ltac:(lia)).
  destruct (EdgeFlag.run rest _ _) as [c' t'].
  destruct Hr as (A' & B' & C' & D'). simpl in Hw.
  destruct c' as [f' l']; simpl in *. destruct f'; lia.
Qed.

(** One press of the space bar held over three sampler iterations, sampled
    twice more after release, with the consumer polling before, during and
    after: the press is seen once. *)
Lemma edge_seen_exactly_once_witness :
  EdgeFlag.seen
    (snd (EdgeFlag.run
            ([EdgeFlag.Exchange; EdgeFlag.Sample false; EdgeFlag.Sample true;
              EdgeFlag.Sample true; EdgeFlag.Sample true]
             ++ EdgeFlag.Exchange
                  :: [EdgeFlag.Sample true; EdgeFlag.Exchange;
                      EdgeFlag.Sample false; EdgeFlag.Sample false;
                      EdgeFlag.Exchange])
            EdgeFlag.init EdgeFlag.nothing)) = 1%nat.
Proof.
  apply (edge_seen_exactly_once
           [EdgeFlag.Exchange; EdgeFlag.Sample false; EdgeFlag.Sample true;
            EdgeFlag.Sample true; EdgeFlag.Sample true]
           [EdgeFlag.Sample true; EdgeFlag.Exchange;
            EdgeFlag.Sample false; EdgeFlag.Sample false; EdgeFlag.Exchange]);
    reflexivity.
Defined.

(** *** The locked step on a crashed vehicle *)

(** Inside [KERNEL_RUNNING] the test of [bCrashed] guards the speed
    update only.  In a world with [bCrashed] set and the game still
    [KERNEL_RUNNING], which no thread produces, the right key held, the
    locked step would zero the speed and still move [fX_Register] and
    [fHeadingAngle]: a crashed vehicle is frozen by the test of the game
    state, which both detectors set to [GAME_OVER] together with the
    flag. *)
Lemma crashed_step_still_steers :
  bCrashed (player wreck_steering) = true
  /\ fSpeed (player (PhysicsStep wreck_steering)) = F32.zero
  /\ fX_Register (player wreck_steering) = F32.zero
  /\ F32.gt (fX_Register (player (PhysicsStep wreck_steering))) F32.zero = true
  /\ fHeadingAngle (player wreck_steering) = F32.zero
  /\ F32.gt (fHeadingAngle (player (PhysicsStep wreck_steering))) F32.zero = true
  /\ fX_Register (player (PhysicsStep wreck_steering))
     <> fX_Register (player wreck_steering)
  /\ fHeadingAngle (player (PhysicsStep wreck_steering))
     <> fHeadingAngle (player wreck_steering).
Proof. repeat split; vm_compute; congruence. Qed.

(** *** Segment resolution *)

(** C8.  For every track and every distance, the cursor of the collision
    detector and the cursor of the integrator stop at the same segment
    index with the same in-segment offset, and agree on whether that index
    is still inside the track and on the segment found there. *)
Theorem segment_cursors_agree (track : list TrackSegment) (distance : float) :
  let '(pos_p, section_p, seg_p) := physics_cursor track distance 0 in
  let '(pos_c, section_c, _, seg_c) :=
    collision_cursor track distance 0 F32.zero in
  section_c = section_p /\ pos_c = pos_p /\ seg_c = seg_p
  /\ seg_c = nth_error track (Z.to_nat section_c).
Proof.
  rewrite (cursors_agree track distance 0 F32.zero).
  pose proof (collision_cursor_index track distance 0 F32.zero) as H.
  destruct (collision_cursor track distance 0 F32.zero) as [[[p i] st] s].
  destruct H as [_ H]. rewrite Z.sub_0_r in H. repeat split. exact H.
Qed.

(** *** The boundary check in every game state *)

(** C9.  The boundary check has no game-state guard.  Whatever the game
    state, if the vehicle is not crashed and stands at or beyond a road
    limit when the check runs, the iteration ends with [bCrashed] set, the
    speed zero, the game state [GAME_OVER] and both signals raised.  The
    check reads the PCB the locked step has just left, which outside
    [KERNEL_RUNNING] is the PCB the iteration started with. *)
Theorem boundary_check_has_no_state_guard (w : World) :
  bCrashed (player w) = false ->
  off_road (fX_Register (player (PhysicsStep w))) = true ->
  (forall v,
     bCrashed (player v) = false ->
     off_road (fX_Register (player v)) = true ->
     EnforceBoundaryProtection v = crash v)
  /\ (currentState w <> KERNEL_RUNNING -> PhysicsStep w = w)
  /\ EnforceBoundaryProtection (PhysicsStep w) = crash (PhysicsStep w)
  /\ bCrashed (player (PhysicsIteration w)) = true
  /\ fSpeed (player (PhysicsIteration w)) = F32.zero
  /\ currentState (PhysicsIteration w) = GAME_OVER
  /\ sound_crash (PhysicsIteration w) = true
  /\ sound_gameover (PhysicsIteration w) = true.
Proof.
  intros Hc Hr.
  split.
  { intros v Hv Hx. rewrite Enforce_cases, Hx, Hv. reflexivity. }
  split; [apply PhysicsStep_idle|].
  assert (E : EnforceBoundaryProtection (PhysicsStep w) = crash (PhysicsStep w)).
  { rewrite Enforce_cases, Hr, PhysicsStep_crashed, Hc. reflexivity. }
  split; [exact E|].
  unfold PhysicsIteration. rewrite E.
  rewrite Check_idle by (left; reflexivity).
  rewrite Warning_player, Warning_state.
  destruct (Warning_signals (crash (PhysicsStep w))) as (-> & -> & _).
  repeat split.
Qed.

(** The same at concrete worlds: a vehicle at [x = 0.9] in the win screen,
    in the map menu and in the boot menu. *)
Lemma boundary_check_has_no_state_guard_witness :
  currentState (PhysicsIteration (scene 1 GAME_WIN (vehicle_at (F32.dec 9 1) false) 0 false false)) = GAME_OVER
  /\ currentState (PhysicsIteration (scene 1 MAP_SELECT (vehicle_at (F32.dec 9 1) false) 0 false false)) = GAME_OVER
  /\ currentState (PhysicsIteration (scene 1 BOOT_MENU (vehicle_at (F32.dec 9 1) false) 0 false false)) = GAME_OVER.
Proof.
  split; [|split].
  - apply (boundary_check_has_no_state_guard
             (scene 1 GAME_WIN (vehicle_at (F32.dec 9 1) false) 0 false false));
      evaluate.
  - apply (boundary_check_has_no_state_guard
             (scene 1 MAP_SELECT (vehicle_at (F32.dec 9 1) false) 0 false false));
      evaluate.
  - apply (boundary_check_has_no_state_guard
             (scene 1 BOOT_MENU (vehicle_at (F32.dec 9 1) false) 0 false false));
      evaluate.
Defined.

(** *** Distance below zero *)



(** ** Further properties of the kernel *)

(** *** The speed clamp *)

Lemma clamp_speed_cases (s : float) :
  clamp_speed s = s
  \/ clamp_speed s = F32.neg (F32.of_int 15)
  \/ clamp_speed s = MAX_SPEED.
Proof.
  unfold clamp_speed, F32.max, F32.min.
  destruct (F32.lt MAX_SPEED s).
  - right; right. evaluate.
  - destruct (F32.gt (F32.neg (F32.of_int 15)) s); [right; left | left]; reflexivity.
Qed.

(** X1.  Clamping twice is clamping once, for every binary32 value,
    infinities and NaN included. *)
Theorem clamp_speed_idempotent (s : float) :
  clamp_speed (clamp_speed s) = clamp_speed s.
Proof.
  destruct (clamp_speed_cases s) as [H | [H | H]]; rewrite !H.
  - reflexivity.
  - evaluate.
  - evaluate.
Qed.

Lemma detectors_speed (v : World) :
  fSpeed (player (ObstacleWarning (CheckObstacleCollision (EnforceBoundaryProtection v))))
  = fSpeed (player v)
  \/ fSpeed (player (ObstacleWarning (CheckObstacleCollision (EnforceBoundaryProtection v))))
     = F32.zero.
Proof.
  rewrite Warning_player.
  destruct (Check_cases (EnforceBoundaryProtection v)) as [-> | ->];
    [|right; reflexivity].
  rewrite Enforce_cases. destruct (_ && _); [right | left]; reflexivity.
Qed.

Lemma speed_in_range_clamp (s : float) :
  F32.is_nan s = false -> speed_in_range (clamp_speed s) = true.
Proof.
  intros H. unfold speed_in_range.
  rewrite (clamp_speed_lower s H), (clamp_speed_upper s H). reflexivity.
Qed.

Lemma speed_in_range_not_nan (s : float) :
  speed_in_range s = true -> F32.is_nan s = false.
Proof.
  unfold speed_in_range. intros H. apply andb_true_iff in H.
  destruct H as (_ & H). destruct s; try reflexivity. discriminate H.
Qed.

Lemma step_speed_in_range (w : World) :
  (currentState w = KERNEL_RUNNING
   /\ (F32.is_nan (fSpeed (player w)) = false \/ bCrashed (player w) = true))
  \/ speed_in_range (fSpeed (player w)) = true ->
  speed_in_range (fSpeed (player (PhysicsStep w))) = true.
Proof.
  intros H.
  destruct (GameState_eqb (currentState w) KERNEL_RUNNING) eqn:E.
  - apply GameState_eqb_eq in E.
    destruct (PhysicsStep_speed_distance w E) as (-> & _).
    apply speed_in_range_clamp.
    destruct H as [(_ & [H | H]) | H].
    + apply drive_not_nan, H.
    + unfold drive. rewrite H. reflexivity.
    + apply drive_not_nan, speed_in_range_not_nan, H.
  - apply GameState_eqb_neq in E.
    rewrite (PhysicsStep_idle w E).
    destruct H as [(H & _) | H]; [contradiction | exact H].
Qed.

Lemma iteration_speed_in_range (w : World) :
  speed_in_range (fSpeed (player (PhysicsStep w))) = true ->
  speed_in_range (fSpeed (player (PhysicsIteration w))) = true.
Proof.
  intros Hstep. unfold PhysicsIteration.
  destruct (detectors_speed (PhysicsStep w)) as [-> | ->]; [exact Hstep | evaluate].
Qed.

(** X2.  After an iteration of the physics thread the speed lies in
    [[-15, 50]] whenever the iteration ran in [KERNEL_RUNNING] on a speed
    that is a number, infinities included, or on a crashed vehicle, and
    whenever the speed was in that interval before.  The clamp does not
    repair a NaN: [max] and [min] are the macros of [<windows.h>], both
    comparisons with a NaN are false, and the locked step of a vehicle
    that has not crashed leaves a NaN speed a NaN. *)
Theorem speed_stays_in_range (w : World) :
  ((currentState w = KERNEL_RUNNING
    /\ (F32.is_nan (fSpeed (player w)) = false \/ bCrashed (player w) = true))
   \/ speed_in_range (fSpeed (player w)) = true ->
   speed_in_range (fSpeed (player (PhysicsIteration w))) = true)
  /\ (currentState w = KERNEL_RUNNING ->
      fSpeed (player w) = S754_nan ->
      bCrashed (player w) = false ->
      fSpeed (player (PhysicsStep w)) = S754_nan
      /\ speed_in_range (fSpeed (player (PhysicsStep w))) = false).
Proof.
  split.
  - intros H. apply iteration_speed_in_range, step_speed_in_range, H.
  - intros Hs Hn Hc.
    destruct (PhysicsStep_speed_distance w Hs) as (-> & _).
    assert (E : clamp_speed (drive w) = S754_nan).
    { unfold drive. rewrite Hc, Hn. cbn [negb].
      destruct (input_accel w), (input_brake w); evaluate. }
    rewrite E. split; reflexivity.
Qed.

Lemma speed_stays_in_range_witness :
  speed_in_range (fSpeed (player (PhysicsIteration (braking_start 1)))) = true.
Proof.
  exact (proj1 (speed_stays_in_range (braking_start 1))
           (or_introl (conj eq_refl (or_introl eq_refl)))).
Defined.

(** *** The finish line *)

Lemma gt_irrefl (a : float) : F32.gt a a = false.
Proof.
  unfold F32.gt.
  destruct a as [s|s| |s m e]; cbn [SFcompare]; try reflexivity.
  - destruct s; reflexivity.
  - rewrite Z.compare_refl, Pos.compare_cont_refl. destruct s; reflexivity.
Qed.

Lemma not_ge_not_gt (a b : float) : F32.ge a b = false -> F32.gt a b = false.
Proof.
  unfold F32.ge, F32.gt. destruct (SFcompare a b) as [[]|]; congruence.
Qed.

Lemma iteration_track (w : World) :
  vecTrack (PhysicsIteration w) = vecTrack w
  /\ fTotalTrackLength (PhysicsIteration w) = fTotalTrackLength w.
Proof.
  unfold PhysicsIteration.
  destruct (Warning_signals (CheckObstacleCollision
              (EnforceBoundaryProtection (PhysicsStep w)))) as (_ & _ & _ & -> & ->).
  assert (Hs : vecTrack (PhysicsStep w) = vecTrack w
               /\ fTotalTrackLength (PhysicsStep w) = fTotalTrackLength w).
  { unfold PhysicsStep. destruct (GameState_eqb _ _); split; reflexivity. }
  assert (He : vecTrack (EnforceBoundaryProtection (PhysicsStep w)) = vecTrack w
               /\ fTotalTrackLength (EnforceBoundaryProtection (PhysicsStep w))
                  = fTotalTrackLength w).
  { rewrite Enforce_cases. destruct (_ && _); exact Hs. }
  destruct (Check_cases (EnforceBoundaryProtection (PhysicsStep w))) as [-> | ->];
    exact He.
Qed.

Lemma step_distance_bound (w : World) :
  currentState w = KERNEL_RUNNING
  \/ F32.gt (fDistance (player w)) (fTotalTrackLength w) = false ->
  F32.gt (fDistance (player (PhysicsStep w))) (fTotalTrackLength w) = false.
Proof.
  intros H.
  destruct (GameState_eqb (currentState w) KERNEL_RUNNING) eqn:E.
  - apply GameState_eqb_eq in E.
    destruct (PhysicsStep_speed_distance w E) as (_ & ->).
    destruct (F32.ge _ _) eqn:G.
    + apply gt_irrefl.
    + apply not_ge_not_gt, G.
  - apply GameState_eqb_neq in E. rewrite (PhysicsStep_idle w E).
    destruct H as [H | H]; [contradiction | exact H].
Qed.

(** X3.  An iteration of the physics thread never leaves the distance
    beyond the track length: after an iteration in [KERNEL_RUNNING], and
    after any iteration that started with the distance not beyond it, the
    comparison [distance > trackLength] is false. *)
Theorem distance_never_past_the_finish (w : World) :
  currentState w = KERNEL_RUNNING
  \/ F32.gt (fDistance (player w)) (fTotalTrackLength w) = false ->
  F32.gt (fDistance (player (PhysicsIteration w)))
    (fTotalTrackLength (PhysicsIteration w)) = false.
Proof.
  intros H.
  destruct (iteration_track w) as (_ & ->).
  unfold PhysicsIteration. rewrite detectors_keep_distance.
  apply step_distance_bound, H.
Qed.

Lemma distance_never_past_the_finish_witness :
  F32.gt (fDistance (player (PhysicsIteration photo_finish)))
    (fTotalTrackLength (PhysicsIteration photo_finish)) = false.
Proof.
  exact (distance_never_past_the_finish photo_finish (or_introl eq_refl)).
Defined.

(** *** The segment cursor *)

Lemma total_length_snoc (pre : list TrackSegment) (sg : TrackSegment) :
  total_length (pre ++ [sg]) = F32.add (total_length pre) (segDistance sg).
Proof. unfold total_length. rewrite fold_left_app. reflexivity. Qed.

Lemma collision_cursor_prefix (rest pre : list TrackSegment) (pos : float) :
  let '(p, i, st, s) :=
    collision_cursor rest pos (Z.of_nat (length pre)) (total_length pre) in
  exists passed left,
    rest = passed ++ left
    /\ i = Z.of_nat (length (pre ++ passed))
    /\ st = total_length (pre ++ passed)
    /\ p = fold_left (fun a sg => F32.sub a (segDistance sg)) passed pos
    /\ match s with
       | Some sg =>
           F32.ge p (segDistance sg) = false /\ exists tl, left = sg :: tl
       | None => left = []
       end.
Proof.
  revert pre pos. induction rest as [|sg rest IH]; intros pre pos; simpl.
  - exists [], []. rewrite !app_nil_r. repeat split.
  - destruct (F32.ge pos (segDistance sg)) eqn:G.
    + specialize (IH (pre ++ [sg]) (F32.sub pos (segDistance sg))).
      rewrite total_length_snoc in IH.
      rewrite length_app in IH. simpl length in IH.
      replace (Z.of_nat (length pre + 1)) with (Z.of_nat (length pre) + 1) in IH by lia.
      destruct (collision_cursor rest _ _ _) as [[[p i] st] s].
      destruct IH as (passed & left & -> & Hi & Hst & Hp & Hs).
      exists (sg :: passed), left.
      rewrite <- app_assoc in Hi, Hst. simpl in Hi, Hst.
      repeat split; assumption.
    + exists [], (sg :: rest). rewrite !app_nil_r.
      repeat split; try assumption. exists rest. reflexivity.
Qed.

(** X4.  The cursor of the collision detector splits the track into the
    segments it has passed and the rest.  The index it returns is the
    number of passed segments, the start distance it accumulates is the
    sum of their lengths as [LoadMap] sums them, and the offset is the
    distance less those lengths in turn.  When the rest is not empty, the
    active segment is its head and the offset is not at or beyond that
    segment's length; when it is empty the index is the size of the
    track. *)
Theorem cursor_splits_track (track : list TrackSegment) (distance : float) :
  let '(fDistInSeg, section, fSegStartDistance, active) :=
    collision_cursor track distance 0 F32.zero in
  exists passed left,
    track = passed ++ left
    /\ section = Z.of_nat (length passed)
    /\ fSegStartDistance = total_length passed
    /\ fDistInSeg
       = fold_left (fun a sg => F32.sub a (segDistance sg)) passed distance
    /\ match active with
       | Some sg =>
           F32.ge fDistInSeg (segDistance sg) = false
           /\ exists tl, left = sg :: tl
       | None => left = [] /\ section = Z.of_nat (length track)
       end.
Proof.
  pose proof (collision_cursor_prefix track [] distance) as H.
  simpl in H. change (total_length []) with F32.zero in H.
  destruct (collision_cursor track distance 0 F32.zero) as [[[p i] st] s].
  destruct H as (passed & left & Ht & Hi & Hst & Hp & Hs).
  exists passed, left. repeat split; try assumption.
  destruct s as [sg|]; [exact Hs|].
  split; [exact Hs|]. subst left. rewrite app_nil_r in Ht. subst. reflexivity.
Qed.

(** *** The detectors *)

(** X5.  Each detector is idempotent, and so is their sequence: running
    the boundary check, the obstacle check, or both a second time on
    their own result changes nothing, because the crash they report sets
    the flag and the game state both of them test. *)
Theorem detectors_idempotent (w : World) :
  EnforceBoundaryProtection (EnforceBoundaryProtection w)
  = EnforceBoundaryProtection w
  /\ CheckObstacleCollision (CheckObstacleCollision w)
     = CheckObstacleCollision w
  /\ CheckObstacleCollision
       (EnforceBoundaryProtection
          (CheckObstacleCollision (EnforceBoundaryProtection w)))
     = CheckObstacleCollision (EnforceBoundaryProtection w).
Proof.
  assert (He : forall v, EnforceBoundaryProtection (EnforceBoundaryProtection v)
                         = EnforceBoundaryProtection v).
  { intros v. rewrite (Enforce_cases v).
    destruct (off_road (fX_Register (player v)) && negb (bCrashed (player v))) eqn:E.
    - rewrite Enforce_cases. simpl. rewrite andb_false_r. reflexivity.
    - rewrite Enforce_cases, E. reflexivity. }
  assert (Hc : forall v, CheckObstacleCollision (CheckObstacleCollision v)
                         = CheckObstacleCollision v).
  { intros v. destruct (Check_cases v) as [E | E]; rewrite E.
    - exact E.
    - apply Check_idle. left. reflexivity. }
  split; [apply He|]. split; [apply Hc|].
  destruct (Check_cases (EnforceBoundaryProtection w)) as [E | E]; rewrite E.
  - rewrite He. exact E.
  - assert (Hx : EnforceBoundaryProtection (crash (EnforceBoundaryProtection w))
                 = crash (EnforceBoundaryProtection w)).
    { rewrite Enforce_cases. simpl. rewrite andb_false_r. reflexivity. }
    rewrite Hx. apply Check_idle. left. reflexivity.
Qed.

(** *** The obstacle warning *)

Lemma warn_in_segment_find (obstacles : list Obstacle) (acc pd : float) :
  warn_in_segment obstacles acc pd
  = match find (warns acc pd) obstacles with
    | Some o => Some (F32.sub (F32.add acc (fSegDistance o)) pd, fOffsetX o)
    | None => None
    end.
Proof.
  induction obstacles as [|o rest IH]; simpl; [reflexivity|].
  unfold warns at 1.
  destruct (F32.gt (F32.add acc (fSegDistance o)) pd); simpl; [|exact IH].
  destruct (F32.le _ WARNING_RANGE); [reflexivity | exact IH].
Qed.

Lemma warn_in_track_first (track pre : list TrackSegment) (pd : float) :
  match warn_in_track track (total_length pre) pd with
  | Some (delta, off) =>
      exists passed sg rest o,
        track = passed ++ sg :: rest
        /\ find (warns (total_length (pre ++ passed)) pd) (vecObstacles sg) = Some o
        /\ delta = F32.sub (F32.add (total_length (pre ++ passed)) (fSegDistance o)) pd
        /\ off = fOffsetX o
        /\ forall p1 s1 p2,
             passed = p1 ++ s1 :: p2 ->
             find (warns (total_length (pre ++ p1)) pd) (vecObstacles s1) = None
  | None =>
      forall p1 s1 p2,
        track = p1 ++ s1 :: p2 ->
        find (warns (total_length (pre ++ p1)) pd) (vecObstacles s1) = None
  end.
Proof.
  revert pre. induction track as [|sg track IH]; intros pre; simpl.
  - intros p1 s1 p2 H. destruct p1; discriminate.
  - rewrite warn_in_segment_find.
    destruct (find (warns (total_length pre) pd) (vecObstacles sg)) as [o|] eqn:F.
    + exists [], sg, track, o. rewrite app_nil_r.
      repeat split; try assumption.
      intros p1 s1 p2 H. destruct p1; discriminate.
    + specialize (IH (pre ++ [sg])). rewrite total_length_snoc in IH.
      destruct (warn_in_track track _ pd) as [[delta off]|].
      * destruct IH as (passed & s & rest & o & -> & Hf & Hd & Ho & Hfirst).
        rewrite <- app_assoc in Hf, Hd. simpl in Hf, Hd.
        exists (sg :: passed), s, rest, o.
        repeat split; try assumption.
        intros p1 s1 p2 H. destruct p1 as [|x p1]; simpl in H.
        -- injection H as <- _. rewrite app_nil_r. exact F.
        -- injection H as <- H.
           specialize (Hfirst p1 s1 p2 H).
           rewrite <- app_assoc in Hfirst. exact Hfirst.
      * intros p1 s1 p2 H. destruct p1 as [|x p1]; simpl in H.
        -- injection H as <- _. rewrite app_nil_r. exact F.
        -- injection H as <- H.
           specialize (IH p1 s1 p2 H).
           rewrite <- app_assoc in IH. exact IH.
Qed.

(** X6.  The warning scan raises [warnObstacle] exactly when the game is
    [KERNEL_RUNNING] and some obstacle of the track passes the scan's
    test, its global distance being the sum of the lengths of the segments
    before its own plus its offset: strictly ahead of the player and at
    most 50 away, both in binary32.  When raised, the published distance
    and lateral offset are those of the first such obstacle in track
    order.  The scan writes nothing but the three warning cells. *)
Theorem warning_scan_spec (w : World) :
  let pd := fDistance (player w) in
  (warnObstacle (ObstacleWarning w) = true <->
   currentState w = KERNEL_RUNNING
   /\ exists passed sg rest o,
        vecTrack w = passed ++ sg :: rest
        /\ In o (vecObstacles sg)
        /\ warns (total_length passed) pd o = true)
  /\ (warnObstacle (ObstacleWarning w) = true ->
      exists passed sg rest o,
        vecTrack w = passed ++ sg :: rest
        /\ find (warns (total_length passed) pd) (vecObstacles sg) = Some o
        /\ (forall p1 s1 p2,
              passed = p1 ++ s1 :: p2 ->
              find (warns (total_length p1) pd) (vecObstacles s1) = None)
        /\ warnObstacleDist (ObstacleWarning w)
           = F32.sub (F32.add (total_length passed) (fSegDistance o)) pd
        /\ warnObstacleOffsetX (ObstacleWarning w) = fOffsetX o)
  /\ (player (ObstacleWarning w) = player w
      /\ currentState (ObstacleWarning w) = currentState w
      /\ vecTrack (ObstacleWarning w) = vecTrack w
      /\ fTotalTrackLength (ObstacleWarning w) = fTotalTrackLength w
      /\ sound_crash (ObstacleWarning w) = sound_crash w
      /\ sound_gameover (ObstacleWarning w) = sound_gameover w
      /\ sound_win (ObstacleWarning w) = sound_win w).
Proof.
  cbv zeta.
  pose proof (warn_in_track_first (vecTrack w) [] (fDistance (player w))) as H.
  change (total_length []) with F32.zero in H. simpl app in H.
  assert (Hraised :
            warnObstacle (ObstacleWarning w) = true ->
            currentState w = KERNEL_RUNNING
            /\ exists passed sg rest o,
                 vecTrack w = passed ++ sg :: rest
                 /\ find (warns (total_length passed) (fDistance (player w)))
                      (vecObstacles sg) = Some o
                 /\ (forall p1 s1 p2,
                       passed = p1 ++ s1 :: p2 ->
                       find (warns (total_length p1) (fDistance (player w)))
                         (vecObstacles s1) = None)
                 /\ warnObstacleDist (ObstacleWarning w)
                    = F32.sub (F32.add (total_length passed) (fSegDistance o))
                        (fDistance (player w))
                 /\ warnObstacleOffsetX (ObstacleWarning w) = fOffsetX o).
  { unfold ObstacleWarning.
    destruct (GameState_eqb (currentState w) KERNEL_RUNNING) eqn:E;
      [|simpl; discriminate].
    apply GameState_eqb_eq in E.
    destruct (warn_in_track _ _ _) as [[delta off]|]; [|simpl; discriminate].
    intros _. split; [exact E|].
    destruct H as (passed & sg & rest & o & Ht & Hf & Hd & Ho & Hfirst).
    exists passed, sg, rest, o. simpl. repeat split; assumption. }
  split; [split|split].
  - intros Hw. destruct (Hraised Hw) as (E & passed & sg & rest & o & Ht & Hf & _).
    split; [exact E|]. exists passed, sg, rest, o.
    apply find_some in Hf. destruct Hf as [Hin Hwarn].
    repeat split; assumption.
  - intros (E & passed & sg & rest & o & Ht & Hin & Hwarn).
    unfold ObstacleWarning. rewrite E. simpl.
    destruct (warn_in_track _ _ _) as [[delta off]|]; [reflexivity|].
    exfalso. specialize (H passed sg rest Ht).
    pose proof (find_none _ _ H o Hin) as Hn. congruence.
  - intros Hw. destruct (Hraised Hw) as (_ & Hex). exact Hex.
  - rewrite Warning_player, Warning_state.
    destruct (Warning_signals w) as (-> & -> & -> & -> & ->).
    repeat split.
Qed.

(** On map 2, 580 units into the race, the scan finds the first obstacle
    of the fifth segment, 40 units ahead. *)
Lemma warning_scan_spec_witness :
  warnObstacle (ObstacleWarning warning_scene) = true
  /\ warnObstacleDist (ObstacleWarning warning_scene) = F32.of_int 40
  /\ exists passed sg rest o,
       vecTrack warning_scene = passed ++ sg :: rest
       /\ find (warns (total_length passed) (fDistance (player warning_scene)))
            (vecObstacles sg) = Some o
       /\ (forall p1 s1 p2,
             passed = p1 ++ s1 :: p2 ->
             find (warns (total_length p1) (fDistance (player warning_scene)))
               (vecObstacles s1) = None)
       /\ warnObstacleDist (ObstacleWarning warning_scene)
          = F32.sub (F32.add (total_length passed) (fSegDistance o))
              (fDistance (player warning_scene))
       /\ warnObstacleOffsetX (ObstacleWarning warning_scene) = fOffsetX o.
Proof.
  assert (Hw : warnObstacle (ObstacleWarning warning_scene) = true) by evaluate.
  split; [exact Hw|]. split; [evaluate|].
  destruct (warning_scan_spec warning_scene) as (_ & H & _).
  exact (H Hw).
Defined.

(** *** Track data *)

(** X7.  For every map id, every segment [BuildTrackData] builds has a
    positive length and every obstacle lies inside its segment
    ([0 <= segOffset < length]), inside the road ([-1 <= offset <= 1]) and
    has a positive width; an id other than 1, 2 and 3 gives the empty
    track.  The length [LoadMap] sums in binary32 is exactly 1000, 1450
    and 1630 for the three maps, and 0 for any other id. *)
Theorem track_data_well_formed (id : Z) :
  forallb segment_ok (BuildTrackData id) = true
  /\ (id <> 1 -> id <> 2 -> id <> 3 -> BuildTrackData id = [])
  /\ total_length (BuildTrackData id)
     = F32.of_int
         (if id =? 1 then 1000 else if id =? 2 then 1450
          else if id =? 3 then 1630 else 0)
  /\ ((1 <= id <= 3) -> BuildTrackData id <> []).
Proof.
  unfold BuildTrackData.
  destruct (id =? 1) eqn:E1; [|destruct (id =? 2) eqn:E2; [|destruct (id =? 3) eqn:E3]].
  - apply Z.eqb_eq in E1. repeat split; try evaluate; try lia; discriminate.
  - apply Z.eqb_eq in E2. repeat split; try evaluate; try lia; discriminate.
  - apply Z.eqb_eq in E3. repeat split; try evaluate; try lia; discriminate.
  - apply Z.eqb_neq in E1, E2, E3. repeat split; try reflexivity. lia.
Qed.

(** ** The four threads together *)

Lemma off_road_zero : off_road F32.zero = false.
Proof. evaluate. Qed.

Lemma speed_in_range_zero : speed_in_range F32.zero = true.
Proof. evaluate. Qed.

Lemma start_not_past (id : Z) :
  1 <= id <= 3 ->
  F32.gt F32.zero (total_length (BuildTrackData id)) = false.
Proof.
  intros H.
  assert (E : id = 1 \/ id = 2 \/ id = 3) by lia.
  destruct E as [-> | [-> | ->]]; evaluate.
Qed.

Lemma world_ok_physics (w : World) : world_ok w -> world_ok (PhysicsIteration w).
Proof.
  intros [Hcrash Hroad Hwin Hsteer Hspeed Hdist Htrack Hrace].
  destruct (iteration_track w) as (Etrack & Etotal).
  assert (Htr : forall v, vecTrack v = vecTrack w ->
                          fTotalTrackLength v = fTotalTrackLength w ->
                          (track_ok w -> track_ok v) /\ (track_loaded w -> track_loaded v)).
  { intros v E1 E2. unfold track_ok, track_loaded. rewrite E1, E2. tauto. }
  destruct (Htr _ Etrack Etotal) as (Htok & Htld).
  assert (Hd' : F32.gt (fDistance (player (PhysicsIteration w)))
                  (fTotalTrackLength (PhysicsIteration w)) = false).
  { rewrite Etotal. unfold PhysicsIteration. rewrite detectors_keep_distance.
    apply step_distance_bound. right; exact Hdist. }
  assert (Hv' : speed_in_range (fSpeed (player (PhysicsIteration w))) = true)
    by (apply iteration_speed_in_range, step_speed_in_range; right; exact Hspeed).
  destruct (GameState_eqb (currentState w) KERNEL_RUNNING) eqn:E.
  - apply GameState_eqb_eq in E.
    assert (Hnc : bCrashed (player w) = false).
    { destruct (bCrashed (player w)) eqn:C; [|reflexivity].
      destruct (Hcrash eq_refl) as ([H | H] & _); congruence. }
    destruct (PhysicsStep_fields w E) as (Hc1 & Hn1 & Hi1 & Hst1).
    rewrite Hnc in Hc1.
    assert (Hld : track_loaded (PhysicsIteration w)) by (apply Htld, Hrace; left; exact E).
    destruct (iteration_outcome w) as [(Hp & Hs & Hr) | (Hp & Hs & _)].
    + rewrite Hc1 in Hr. simpl in Hr. rewrite andb_true_r in Hr.
      constructor; rewrite ?Hp, ?Hs, ?Etotal, ?iteration_inputs; try assumption.
      * rewrite Hc1. discriminate.
      * intros _. exact Hr.
      * intros Hw. destruct Hst1 as [H | [_ H]]; [congruence | exact H].
      * rewrite Hn1. split; apply Hsteer.
      * rewrite <- Hp. exact Hv'.
      * rewrite <- Etotal, <- Hp. exact Hd'.
      * apply Htok, Htrack.
      * intros _. exact Hld.
    + constructor; rewrite ?Hp, ?Hs, ?Etotal, ?iteration_inputs; try assumption.
      * intros _. split; [left|]; reflexivity.
      * simpl. discriminate.
      * discriminate.
      * simpl. rewrite Hn1. split; apply Hsteer.
      * rewrite <- Hp. exact Hv'.
      * rewrite <- Etotal, <- Hp. exact Hd'.
      * apply Htok, Htrack.
      * intros _. exact Hld.
  - apply GameState_eqb_neq in E.
    assert (Hr : off_road (fX_Register (player w)) && negb (bCrashed (player w)) = false).
    { destruct (bCrashed (player w)) eqn:C; [apply andb_false_r|].
      rewrite (Hroad eq_refl). reflexivity. }
    destruct (iteration_idle w E Hr) as (Hp & Hs & _).
    constructor; rewrite ?Hp, ?Hs, ?Etotal, ?iteration_inputs; try assumption.
    + apply Htok, Htrack.
    + intros H. apply Htld, Hrace, H.
Qed.

(** *** The invariant of the machine *)

Lemma track_loaded_not_empty (w : World) : track_loaded w -> vecTrack w <> [].
Proof.
  intros (id & Hid & E & _). rewrite E.
  assert (H : id = 1 \/ id = 2 \/ id = 3) by lia.
  destruct H as [-> | [-> | ->]]; discriminate.
Qed.

Lemma steer_of_ok (k : Keys) : steer_ok (steer_of k).
Proof.
  unfold steer_of, steer_ok.
  destruct (key_D k || key_RIGHT k); [right; right; reflexivity|].
  destruct (key_A k || key_LEFT k); [left | right; left]; reflexivity.
Qed.

Lemma world_ok_boot : world_ok boot.
Proof.
  constructor; simpl.
  - discriminate.
  - intros _. apply off_road_zero.
  - discriminate.
  - split; right; left; reflexivity.
  - apply speed_in_range_zero.
  - evaluate.
  - left. split; reflexivity.
  - intros [H | [H | H]]; discriminate.
Qed.

Lemma world_ok_hold_keys (steer : Z) (accel brake : bool) (w : World) :
  steer_ok steer -> world_ok w -> world_ok (hold_keys steer accel brake w).
Proof.
  intros Hk [Hcrash Hroad Hwin Hsteer Hspeed Hdist Htrack Hrace].
  constructor; simpl; try assumption.
  split; [exact Hk | apply Hsteer].
Qed.

Lemma world_ok_start_race (id : Z) (w : World) :
  1 <= id <= 3 -> world_ok w -> world_ok (start_race id w).
Proof.
  intros Hid [Hcrash Hroad Hwin Hsteer Hspeed Hdist Htrack Hrace].
  assert (Hl : track_loaded (start_race id w)).
  { exists id. repeat split; lia. }
  constructor; simpl.
  - discriminate.
  - intros _. apply off_road_zero.
  - discriminate.
  - split; [apply Hsteer | right; left; reflexivity].
  - apply speed_in_range_zero.
  - apply start_not_past, Hid.
  - right. exact Hl.
  - intros _. exact Hl.
Qed.

Lemma world_ok_acknowledge (w : World) : world_ok w -> world_ok (acknowledge w).
Proof.
  intros [Hcrash Hroad Hwin Hsteer Hspeed Hdist Htrack Hrace].
  constructor; simpl.
  - discriminate.
  - intros _. apply off_road_zero.
  - discriminate.
  - split; [apply Hsteer | right; left; reflexivity].
  - apply speed_in_range_zero.
  - destruct Htrack as [(_ & ->) | (id & Hid & _ & ->)].
    + evaluate.
    + apply start_not_past, Hid.
  - exact Htrack.
  - intros [H | [H | H]]; discriminate.
Qed.

(** Writing a menu state, or the halt state, over a world. *)
Lemma world_ok_set_state (st : GameState) (w : World) :
  st = BOOT_MENU \/ st = MAP_SELECT \/ st = SYSTEM_HALT ->
  (st <> SYSTEM_HALT -> bCrashed (player w) = false) ->
  world_ok w -> world_ok (set_state st w).
Proof.
  intros Hst Hnc [Hcrash Hroad Hwin Hsteer Hspeed Hdist Htrack Hrace].
  constructor; simpl; try assumption.
  - intros Hc. split; [|apply Hcrash, Hc].
    destruct (GameState_eqb st SYSTEM_HALT) eqn:E.
    + apply GameState_eqb_eq in E. right; exact E.
    + apply GameState_eqb_neq in E. rewrite (Hnc E) in Hc. discriminate.
  - intros H. destruct Hst as [-> | [-> | ->]]; discriminate.
  - intros [H | [H | H]]; destruct Hst as [-> | [-> | ->]]; discriminate.
Qed.

Lemma world_ok_sound (w : World) :
  world_ok w ->
  world_ok
    (mkWorld (player w) (currentState w) (vecTrack w) (fTotalTrackLength w)
       (input_steer w) (input_accel w) (input_brake w)
       (warnObstacle w) (warnObstacleDist w) (warnObstacleOffsetX w)
       false false false).
Proof.
  intros [Hcrash Hroad Hwin Hsteer Hspeed Hdist Htrack Hrace].
  constructor; simpl; assumption.
Qed.

(** A crashed PCB is met in the game-over and the halt state only. *)
Lemma world_ok_not_crashed (w : World) :
  world_ok w ->
  currentState w <> GAME_OVER -> currentState w <> SYSTEM_HALT ->
  bCrashed (player w) = false.
Proof.
  intros H H1 H2. destruct (bCrashed (player w)) eqn:C; [|reflexivity].
  destruct (ok_crash w H C) as ([E | E] & _); contradiction.
Qed.

Lemma sane_power_on : sane power_on.
Proof.
  constructor; simpl.
  - apply world_ok_boot.
  - lia.
  - split; [lia|]. intros H. apply track_loaded_not_empty in H. contradiction.
  - discriminate.
Qed.

Lemma sane_input (k : Keys) (m : Machine) : sane m -> sane (InputIteration k m).
Proof.
  intros [Hw Hsel Hmap Hhalt]. constructor; simpl; try assumption.
  apply world_ok_hold_keys; [apply steer_of_ok | exact Hw].
Qed.

Lemma sane_physics (m : Machine) : sane m -> sane (PhysicsTick m).
Proof.
  intros [Hw Hsel Hmap Hhalt].
  destruct (iteration_track (world m)) as (Etrack & Etotal).
  constructor; simpl; try assumption.
  - apply world_ok_physics, Hw.
  - split; [apply Hmap|]. rewrite Etrack. intros (id & Hid & E1 & E2).
    apply Hmap. exists id. rewrite <- Etrack, <- Etotal. repeat split; try lia; assumption.
  - intros Hr. specialize (Hhalt Hr).
    assert (Hn : currentState (world m) <> KERNEL_RUNNING) by (rewrite Hhalt; discriminate).
    assert (Hroad : off_road (fX_Register (player (world m)))
                    && negb (bCrashed (player (world m))) = false).
    { destruct (bCrashed (player (world m))) eqn:C; [apply andb_false_r|].
      rewrite (ok_road _ Hw C). reflexivity. }
    destruct (iteration_idle (world m) Hn Hroad) as (_ & -> & _). exact Hhalt.
Qed.

Lemma sane_sound (m : Machine) : sane m -> sane (SoundIteration m).
Proof.
  intros [Hw Hsel Hmap Hhalt]. constructor; simpl; try assumption.
  apply world_ok_sound, Hw.
Qed.

Lemma selection_in_range (e : EdgeFlags) (sel : Z) :
  1 <= sel <= 3 ->
  1 <= (let sel := if input_up_edge e then Z.max 1 (sel - 1) else sel in
        let sel := if input_down_edge e then Z.min 3 (sel + 1) else sel in
        let sel := if input_1_edge e then 1 else sel in
        let sel := if input_2_edge e then 2 else sel in
        if input_3_edge e then 3 else sel) <= 3.
Proof.
  intros H. cbv zeta.
  destruct (input_up_edge e), (input_down_edge e), (input_1_edge e),
    (input_2_edge e), (input_3_edge e); lia.
Qed.

Lemma sane_render (m : Machine) : sane m -> running m = true -> sane (RenderFrame m).
Proof.
  intros [Hw Hsel Hmap Hhalt] Hrun. unfold RenderFrame.
  destruct (currentState (world m)) eqn:Est.
  - (* BOOT_MENU *)
    assert (Hnc : bCrashed (player (world m)) = false)
      by (apply world_ok_not_crashed; [exact Hw | rewrite Est; discriminate ..]).
    unfold boot_frame. constructor; simpl; try assumption.
    + destruct (input_space_edge (edges m)), (input_escape (edges m));
        repeat (apply world_ok_set_state; [tauto | intros _; exact Hnc |]); exact Hw.
    + destruct (input_space_edge (edges m)), (input_escape (edges m)); exact Hmap.
    + rewrite Hrun. discriminate.
  - (* MAP_SELECT *)
    assert (Hnc : bCrashed (player (world m)) = false)
      by (apply world_ok_not_crashed; [exact Hw | rewrite Est; discriminate ..]).
    pose proof (selection_in_range (edges m) _ Hsel) as Hs. cbv zeta in Hs.
    unfold select_frame. cbv zeta. constructor; simpl; try assumption.
    + destruct (input_space_edge (edges m)), (input_escape (edges m));
        repeat (apply world_ok_set_state; [tauto | intros _; reflexivity || exact Hnc |]);
        try (apply world_ok_start_race; [exact Hs|]); exact Hw.
    + destruct (input_space_edge (edges m)) eqn:Esp.
      * split; [exact Hs|]. intros _.
        destruct (input_escape (edges m)); reflexivity.
      * destruct (input_escape (edges m)); exact Hmap.
    + rewrite Hrun. discriminate.
  - (* KERNEL_RUNNING *)
    constructor; try assumption. rewrite Hrun. discriminate.
  - (* GAME_OVER *)
    unfold result_frame. constructor; simpl; try assumption.
    + destruct (input_space_edge (edges m)), (input_escape (edges m));
        repeat (apply world_ok_set_state; [tauto | intros H; now elim H |]);
        try apply world_ok_acknowledge; exact Hw.
    + destruct (input_space_edge (edges m)), (input_escape (edges m)); exact Hmap.
    + rewrite Hrun. discriminate.
  - (* GAME_WIN *)
    unfold result_frame. constructor; simpl; try assumption.
    + destruct (input_space_edge (edges m)), (input_escape (edges m));
        repeat (apply world_ok_set_state; [tauto | intros H; now elim H |]);
        try apply world_ok_acknowledge; exact Hw.
    + destruct (input_space_edge (edges m)), (input_escape (edges m)); exact Hmap.
    + rewrite Hrun. discriminate.
  - (* SYSTEM_HALT *)
    constructor; simpl; try assumption. intros _. exact Est.
Qed.

Lemma reachable_sane (m : Machine) : reachable m -> sane m.
Proof.
  induction 1.
  - apply sane_power_on.
  - apply sane_input; assumption.
  - apply sane_physics; assumption.
  - apply sane_render; assumption.
  - apply sane_sound; assumption.
Qed.

Lemma reachable_step (m m' : Machine) : reachable m -> step m m' -> reachable m'.
Proof.
  intros Hm Hs. destruct Hs.
  - apply reach_input; assumption.
  - apply reach_physics; assumption.
  - apply reach_render; assumption.
  - apply reach_sound; assumption.
Qed.

Lemma reachable_ticks (n : nat) (m : Machine) :
  reachable m -> reachable (Nat.iter n PhysicsTick m).
Proof.
  intros H. induction n as [|n IH]; [exact H|].
  simpl. apply reach_physics, IH.
Qed.

Lemma reachable_menu_open : reachable menu_open.
Proof.
  unfold menu_open.
  apply reach_render; [apply reach_input; [apply reach_power_on|]|]; reflexivity.
Qed.

Lemma reachable_race_on : reachable race_on.
Proof.
  unfold race_on.
  apply reach_render;
    [apply reach_input;
      [apply reach_input; [apply reachable_menu_open|]|]|]; reflexivity.
Qed.

Lemma reachable_wrecked : reachable wrecked.
Proof.
  unfold wrecked. apply reachable_ticks.
  apply reach_input; [apply reachable_race_on | reflexivity].
Qed.

Lemma wrecked_crashed : bCrashed (player (world wrecked)) = true.
Proof. evaluate. Qed.

Lemma tick_idle (m : Machine) :
  reachable m ->
  currentState (world m) <> KERNEL_RUNNING ->
  PhysicsIteration (world m)
  = set_warning (world m) false
      (warnObstacleDist (world m)) (warnObstacleOffsetX (world m)).
Proof.
  intros Hm Hs. apply reachable_sane in Hm. destruct Hm as [Hw _ _ _].
  assert (Hr : off_road (fX_Register (player (world m)))
               && negb (bCrashed (player (world m))) = false).
  { destruct (bCrashed (player (world m))) eqn:C; [apply andb_false_r|].
    rewrite (ok_road _ Hw C). reflexivity. }
  unfold PhysicsIteration.
  rewrite (PhysicsStep_idle _ Hs), Enforce_cases, Hr.
  rewrite Check_idle by (right; exact Hs).
  unfold ObstacleWarning.
  destruct (GameState_eqb (currentState (world m)) KERNEL_RUNNING) eqn:E;
    [|reflexivity].
  apply GameState_eqb_eq in E. contradiction.
Qed.

(** *** A crashed vehicle *)

Lemma ticks_idle (n : nat) (m : Machine) :
  reachable m ->
  currentState (world m) <> KERNEL_RUNNING ->
  player (world (Nat.iter n PhysicsTick m)) = player (world m)
  /\ currentState (world (Nat.iter n PhysicsTick m)) = currentState (world m).
Proof.
  intros Hm Hs. induction n as [|n (IHp & IHs)]; [split; reflexivity|].
  rewrite Nat.iter_succ.
  pose proof (reachable_ticks n m Hm) as Hr.
  remember (Nat.iter n PhysicsTick m) as M eqn:EM.
  unfold PhysicsTick. simpl.
  rewrite (tick_idle M Hr) by (rewrite IHs; exact Hs).
  simpl. split; assumption.
Qed.

(** C7.  On every machine the threads can reach, a crashed vehicle is
    frozen.  Its speed is zero; the locked step of the physics thread
    changes nothing at all, so the lateral offset, the heading and the
    distance are as before; no number of iterations of the physics thread
    changes the PCB or the game state; and among the iterations of all
    four threads the only one that changes the PCB is the frame of the
    render thread that answers the space bar on the game-over screen,
    which resets it and so clears the flag. *)
Theorem crashed_vehicle_frozen (m : Machine) (n : nat) :
  reachable m ->
  bCrashed (player (world m)) = true ->
  fSpeed (player (world m)) = F32.zero
  /\ PhysicsStep (world m) = world m
  /\ player (world (Nat.iter n PhysicsTick m)) = player (world m)
  /\ currentState (world (Nat.iter n PhysicsTick m)) = currentState (world m)
  /\ (forall m',
        step m m' ->
        player (world m') = player (world m)
        \/ (currentState (world m) = GAME_OVER
            /\ input_space_edge (edges m) = true
            /\ m' = RenderFrame m
            /\ player (world m') = PlayerPCB_Reset)).
Proof.
  intros Hm Hc.
  destruct (ok_crash _ (sane_world _ (reachable_sane _ Hm)) Hc) as (Hs & Hv).
  assert (Hn : currentState (world m) <> KERNEL_RUNNING)
    by (destruct Hs as [-> | ->]; discriminate).
  split; [exact Hv|].
  split; [apply PhysicsStep_idle, Hn|].
  destruct (ticks_idle n m Hm Hn) as (Hp & Hst).
  split; [exact Hp|]. split; [exact Hst|].
  intros m' Hstep. destruct Hstep as [k m _ | m | m _ | m _].
  - left. reflexivity.
  - left. unfold PhysicsTick. simpl.
    rewrite (tick_idle m Hm Hn). reflexivity.
  - unfold RenderFrame. destruct Hs as [Hs | Hs]; rewrite Hs.
    + unfold result_frame. simpl.
      destruct (input_space_edge (edges m)).
      * right. destruct (input_escape (edges m)); repeat split.
      * left. destruct (input_escape (edges m)); reflexivity.
    + left. reflexivity.
  - left. reflexivity.
Qed.

Lemma crashed_vehicle_frozen_witness :
  fSpeed (player (world wrecked)) = F32.zero
  /\ PhysicsStep (world wrecked) = world wrecked
  /\ player (world (Nat.iter 240 PhysicsTick wrecked)) = player (world wrecked)
  /\ currentState (world (Nat.iter 240 PhysicsTick wrecked))
     = currentState (world wrecked)
  /\ (forall m',
        step wrecked m' ->
        player (world m') = player (world wrecked)
        \/ (currentState (world wrecked) = GAME_OVER
            /\ input_space_edge (edges wrecked) = true
            /\ m' = RenderFrame wrecked
            /\ player (world m') = PlayerPCB_Reset)).
Proof.
  exact (crashed_vehicle_frozen wrecked 240 reachable_wrecked wrecked_crashed).
Defined.

(** *** The map menu and the track *)

(** X8.  On every machine the four threads can reach, the selection of
    the map menu and the identifier of the loaded map are 1, 2 or 3; the
    track is empty with length zero, as at process start, or it is the
    track of the loaded map with the sum of its segment lengths; and in
    the race, on the game-over and on the win screen the track is not
    empty. *)
Theorem selected_map_always_valid (m : Machine) :
  reachable m ->
  1 <= nSelectedMap m <= 3
  /\ 1 <= g_currentMapId m <= 3
  /\ ((vecTrack (world m) = [] /\ fTotalTrackLength (world m) = F32.zero)
      \/ (vecTrack (world m) = BuildTrackData (g_currentMapId m)
          /\ fTotalTrackLength (world m)
             = total_length (BuildTrackData (g_currentMapId m))))
  /\ (currentState (world m) = KERNEL_RUNNING
      \/ currentState (world m) = GAME_WIN
      \/ currentState (world m) = GAME_OVER ->
      vecTrack (world m) = BuildTrackData (g_currentMapId m)
      /\ vecTrack (world m) <> []).
Proof.
  intros Hm. apply reachable_sane in Hm.
  destruct Hm as [Hw Hsel (Hid & Hmap) _].
  assert (Hl : track_loaded (world m) ->
               vecTrack (world m) = BuildTrackData (g_currentMapId m)
               /\ fTotalTrackLength (world m)
                  = total_length (BuildTrackData (g_currentMapId m))).
  { intros Hl. pose proof (Hmap Hl) as E. split; [exact E|].
    destruct Hl as (id & _ & E1 & E2). rewrite E2, <- E1, E. reflexivity. }
  repeat split; try lia.
  - destruct (ok_track _ Hw) as [H | H]; [left; exact H | right; apply Hl, H].
  - apply Hl, (ok_race _ Hw), H.
  - apply track_loaded_not_empty, (ok_race _ Hw), H.
Qed.

Lemma selected_map_always_valid_witness :
  1 <= nSelectedMap race_on <= 3
  /\ 1 <= g_currentMapId race_on <= 3
  /\ ((vecTrack (world race_on) = [] /\ fTotalTrackLength (world race_on) = F32.zero)
      \/ (vecTrack (world race_on) = BuildTrackData (g_currentMapId race_on)
          /\ fTotalTrackLength (world race_on)
             = total_length (BuildTrackData (g_currentMapId race_on))))
  /\ (currentState (world race_on) = KERNEL_RUNNING
      \/ currentState (world race_on) = GAME_WIN
      \/ currentState (world race_on) = GAME_OVER ->
      vecTrack (world race_on) = BuildTrackData (g_currentMapId race_on)
      /\ vecTrack (world race_on) <> []).
Proof.
  exact (selected_map_always_valid race_on reachable_race_on).
Defined.

(** *** The crash latch *)

(** X9.  On every reachable machine a crashed PCB is met on the game-over
    screen or in the halt state only, its speed is zero, and an iteration
    of the physics thread changes neither the PCB nor the game state: the
    step that still steers a crashed vehicle needs [KERNEL_RUNNING] and is
    never taken. *)
Theorem crash_is_final (m : Machine) :
  reachable m ->
  bCrashed (player (world m)) = true ->
  (currentState (world m) = GAME_OVER \/ currentState (world m) = SYSTEM_HALT)
  /\ fSpeed (player (world m)) = F32.zero
  /\ player (world (PhysicsTick m)) = player (world m)
  /\ currentState (world (PhysicsTick m)) = currentState (world m).
Proof.
  intros Hm Hc.
  destruct (ok_crash _ (sane_world _ (reachable_sane _ Hm)) Hc) as (Hs & Hv).
  assert (Hn : currentState (world m) <> KERNEL_RUNNING)
    by (destruct Hs as [-> | ->]; discriminate).
  repeat split; try assumption;
    unfold PhysicsTick; simpl; rewrite (tick_idle m Hm Hn); reflexivity.
Qed.

Lemma crash_is_final_witness :
  (currentState (world wrecked) = GAME_OVER
   \/ currentState (world wrecked) = SYSTEM_HALT)
  /\ fSpeed (player (world wrecked)) = F32.zero
  /\ player (world (PhysicsTick wrecked)) = player (world wrecked)
  /\ currentState (world (PhysicsTick wrecked)) = currentState (world wrecked).
Proof.
  exact (crash_is_final wrecked reachable_wrecked wrecked_crashed).
Defined.

(** *** The physics thread outside the race *)

(** X10.  On every reachable machine that is not in [KERNEL_RUNNING], an
    iteration of the physics thread changes nothing but the warning flag,
    which it clears: the PCB, the game state and the three sound signals
    are as before.  The boundary check, which has no state guard of its
    own, never fires in a menu, on a result screen or after the halt. *)
Theorem physics_idle_outside_race (m : Machine) :
  reachable m ->
  currentState (world m) <> KERNEL_RUNNING ->
  PhysicsTick m
  = with_world m
      (set_warning (world m) false
         (warnObstacleDist (world m)) (warnObstacleOffsetX (world m)))
  /\ EnforceBoundaryProtection (world m) = world m.
Proof.
  intros Hm Hs. split.
  - unfold PhysicsTick. rewrite (tick_idle m Hm Hs). reflexivity.
  - pose proof (sane_world _ (reachable_sane _ Hm)) as Hw.
    rewrite Enforce_cases.
    destruct (bCrashed (player (world m))) eqn:C.
    + rewrite andb_false_r. reflexivity.
    + rewrite (ok_road _ Hw C). reflexivity.
Qed.

Lemma physics_idle_outside_race_witness :
  PhysicsTick menu_open
  = with_world menu_open
      (set_warning (world menu_open) false
         (warnObstacleDist (world menu_open)) (warnObstacleOffsetX (world menu_open)))
  /\ EnforceBoundaryProtection (world menu_open) = world menu_open.
Proof.
  apply (physics_idle_outside_race menu_open reachable_menu_open).
  discriminate.
Defined.

(** *** The registers of the PCB *)

(** X11.  On every reachable machine the speed lies in [[-15, 50]], the
    distance is not beyond the track length, both steering registers hold
    -1, 0 or 1, a vehicle that has not crashed is inside the road limits,
    and on the win screen the distance is the track length and the vehicle
    has not crashed. *)
Theorem registers_stay_in_range (m : Machine) :
  reachable m ->
  speed_in_range (fSpeed (player (world m))) = true
  /\ F32.gt (fDistance (player (world m))) (fTotalTrackLength (world m)) = false
  /\ steer_ok (input_steer (world m))
  /\ steer_ok (nSteerState (player (world m)))
  /\ (bCrashed (player (world m)) = false ->
      off_road (fX_Register (player (world m))) = false)
  /\ (currentState (world m) = GAME_WIN ->
      fDistance (player (world m)) = fTotalTrackLength (world m)
      /\ bCrashed (player (world m)) = false).
Proof.
  intros Hm. pose proof (sane_world _ (reachable_sane _ Hm)) as Hw.
  destruct Hw as [Hcrash Hroad Hwin (Hs1 & Hs2) Hspeed Hdist Htrack Hrace].
  repeat split; try assumption.
  - apply Hwin, H.
  - destruct (bCrashed (player (world m))) eqn:C; [|reflexivity].
    destruct (Hcrash eq_refl) as ([E | E] & _); congruence.
Qed.

Lemma registers_stay_in_range_witness :
  speed_in_range (fSpeed (player (world wrecked))) = true
  /\ F32.gt (fDistance (player (world wrecked)))
       (fTotalTrackLength (world wrecked)) = false
  /\ steer_ok (input_steer (world wrecked))
  /\ steer_ok (nSteerState (player (world wrecked)))
  /\ (bCrashed (player (world wrecked)) = false ->
      off_road (fX_Register (player (world wrecked))) = false)
  /\ (currentState (world wrecked) = GAME_WIN ->
      fDistance (player (world wrecked)) = fTotalTrackLength (world wrecked)
      /\ bCrashed (player (world wrecked)) = false).
Proof.
  exact (registers_stay_in_range wrecked reachable_wrecked).
Defined.

(** *** The game-state graph *)

Lemma transition_refl (a : GameState) : transition a a = true.
Proof. destruct a; reflexivity. Qed.

(** X12.  An iteration of any thread on a reachable machine moves the
    game state along an edge of the graph: the boot menu leads to the map
    menu or to the halt, the map menu to the race or back to the boot
    menu, the race to the win or the game-over screen, either screen to
    the map menu or to the halt, and nothing leads out of the halt.  The
    run flag is cleared in the halt state only. *)
Theorem game_state_graph (m m' : Machine) :
  reachable m ->
  step m m' ->
  transition (currentState (world m)) (currentState (world m')) = true
  /\ (running m' = false -> currentState (world m') = SYSTEM_HALT).
Proof.
  intros Hm Hs. split; [|apply (sane_halt _ (reachable_sane _ (reachable_step _ _ Hm Hs)))].
  pose proof (sane_world _ (reachable_sane _ Hm)) as Hw.
  destruct Hs as [k m _ | m | m _ | m _].
  - apply transition_refl.
  - destruct (GameState_eqb (currentState (world m)) KERNEL_RUNNING) eqn:E.
    + apply GameState_eqb_eq in E. rewrite E.
      unfold PhysicsTick. simpl.
      destruct (iteration_outcome (world m)) as [(_ & -> & _) | (_ & -> & _)];
        [|reflexivity].
      destruct (PhysicsStep_fields _ E) as (_ & _ & _ & [-> | (-> & _)]); reflexivity.
    + apply GameState_eqb_neq in E.
      unfold PhysicsTick. simpl. rewrite (tick_idle m Hm E). apply transition_refl.
  - unfold RenderFrame.
    destruct (currentState (world m)) eqn:Est; simpl;
      destruct (input_space_edge (edges m)), (input_escape (edges m));
      simpl; rewrite ?Est; reflexivity.
  - simpl. apply transition_refl.
Qed.

Lemma game_state_graph_witness :
  transition (currentState (world wrecked))
    (currentState (world (RenderFrame wrecked))) = true
  /\ (running (RenderFrame wrecked) = false ->
      currentState (world (RenderFrame wrecked)) = SYSTEM_HALT).
Proof.
  apply (game_state_graph wrecked (RenderFrame wrecked) reachable_wrecked).
  apply step_render. evaluate.
Defined.

(** *** The start of a race *)

(** X13.  A race starts in one way only.  When an iteration of a thread
    takes a reachable machine into [KERNEL_RUNNING], the machine was on
    the map menu, and the race starts with the PCB at its defaults on the
    track of the selected map, whose identifier and length have been
    stored: nothing of an earlier race is left in the PCB. *)
Theorem race_starts_fresh (m m' : Machine) :
  reachable m ->
  step m m' ->
  currentState (world m) <> KERNEL_RUNNING ->
  currentState (world m') = KERNEL_RUNNING ->
  currentState (world m) = MAP_SELECT
  /\ player (world m') = PlayerPCB_Reset
  /\ vecTrack (world m') = BuildTrackData (nSelectedMap m')
  /\ fTotalTrackLength (world m') = total_length (BuildTrackData (nSelectedMap m'))
  /\ g_currentMapId m' = nSelectedMap m'.
Proof.
  intros Hm Hs Hn Hr. destruct Hs as [k m _ | m | m _ | m _].
  - simpl in Hr. contradiction.
  - unfold PhysicsTick in Hr. simpl in Hr. rewrite (tick_idle m Hm Hn) in Hr.
    simpl in Hr. contradiction.
  - revert Hr. unfold RenderFrame.
    destruct (currentState (world m)) eqn:Est.
    + unfold boot_frame. simpl.
      destruct (input_space_edge (edges m)), (input_escape (edges m));
        simpl; rewrite ?Est; discriminate.
    + unfold select_frame. cbv zeta. simpl.
      destruct (input_space_edge (edges m)), (input_escape (edges m));
        simpl; rewrite ?Est; try discriminate.
      intros _. repeat split.
    + contradiction.
    + unfold result_frame. simpl.
      destruct (input_space_edge (edges m)), (input_escape (edges m));
        simpl; rewrite ?Est; discriminate.
    + unfold result_frame. simpl.
      destruct (input_space_edge (edges m)), (input_escape (edges m));
        simpl; rewrite ?Est; discriminate.
    + simpl. rewrite Est. discriminate.
  - simpl in Hr. contradiction.
Qed.

Lemma reachable_menu_space :
  reachable (InputIteration space_key (InputIteration no_keys menu_open)).
Proof.
  apply reach_input;
    [apply reach_input; [apply reachable_menu_open|]|]; reflexivity.
Qed.

Lemma race_starts_fresh_witness :
  currentState
    (world (InputIteration space_key (InputIteration no_keys menu_open)))
  = MAP_SELECT
  /\ player (world race_on) = PlayerPCB_Reset
  /\ vecTrack (world race_on) = BuildTrackData (nSelectedMap race_on)
  /\ fTotalTrackLength (world race_on)
     = total_length (BuildTrackData (nSelectedMap race_on))
  /\ g_currentMapId race_on = nSelectedMap race_on.
Proof.
  apply (race_starts_fresh
           (InputIteration space_key (InputIteration no_keys menu_open))
           race_on reachable_menu_space).
  - apply step_render. reflexivity.
  - discriminate.
  - reflexivity.
Defined.

(** *** Keys pressed during the race *)





(** *** Escape and the space bar in one frame *)

(** X15.  When both the space bar and the escape key are pending at the
    start of a frame, escape decides the game state, but what the space
    bar does besides is done: the boot menu halts; the map menu goes back
    to the boot menu with the selected map loaded and the PCB reset; the
    game-over and the win screen halt with the PCB reset; the race
    consumes neither. *)
Theorem escape_beats_space (m : Machine) :
  input_space_edge (edges m) = true ->
  input_escape (edges m) = true ->
  match currentState (world m) with
  | BOOT_MENU =>
      currentState (world (RenderFrame m)) = SYSTEM_HALT
      /\ player (world (RenderFrame m)) = player (world m)
  | MAP_SELECT =>
      currentState (world (RenderFrame m)) = BOOT_MENU
      /\ player (world (RenderFrame m)) = PlayerPCB_Reset
      /\ vecTrack (world (RenderFrame m))
         = BuildTrackData (nSelectedMap (RenderFrame m))
      /\ g_currentMapId (RenderFrame m) = nSelectedMap (RenderFrame m)
  | KERNEL_RUNNING => RenderFrame m = m
  | GAME_OVER | GAME_WIN =>
      currentState (world (RenderFrame m)) = SYSTEM_HALT
      /\ player (world (RenderFrame m)) = PlayerPCB_Reset
  | SYSTEM_HALT => running (RenderFrame m) = false
  end.
Proof.
  intros Hsp Hesc. unfold RenderFrame.
  destruct (currentState (world m)) eqn:Est;
    unfold boot_frame, select_frame, result_frame; cbv zeta;
    rewrite ?Hsp, ?Hesc; repeat split.
Qed.

Lemma escape_beats_space_witness :
  match currentState (world (InputIteration space_and_escape power_on)) with
  | BOOT_MENU =>
      currentState (world (RenderFrame (InputIteration space_and_escape power_on)))
      = SYSTEM_HALT
      /\ player (world (RenderFrame (InputIteration space_and_escape power_on)))
         = player (world (InputIteration space_and_escape power_on))
  | MAP_SELECT =>
      currentState (world (RenderFrame (InputIteration space_and_escape power_on)))
      = BOOT_MENU
      /\ player (world (RenderFrame (InputIteration space_and_escape power_on)))
         = PlayerPCB_Reset
      /\ vecTrack (world (RenderFrame (InputIteration space_and_escape power_on)))
         = BuildTrackData
             (nSelectedMap (RenderFrame (InputIteration space_and_escape power_on)))
      /\ g_currentMapId (RenderFrame (InputIteration space_and_escape power_on))
         = nSelectedMap (RenderFrame (InputIteration space_and_escape power_on))
  | KERNEL_RUNNING =>
      RenderFrame (InputIteration space_and_escape power_on)
      = InputIteration space_and_escape power_on
  | GAME_OVER | GAME_WIN =>
      currentState (world (RenderFrame (InputIteration space_and_escape power_on)))
      = SYSTEM_HALT
      /\ player (world (RenderFrame (InputIteration space_and_escape power_on)))
         = PlayerPCB_Reset
  | SYSTEM_HALT =>
      running (RenderFrame (InputIteration space_and_escape power_on)) = false
  end.
Proof.
  apply (escape_beats_space (InputIteration space_and_escape power_on));
    reflexivity.
Defined.

(** *** Tracks without obstacles *)

Lemma bare_cursor (rest : list TrackSegment) :
  forall (pos : float) (section : Z) (st : float),
    bare rest = true ->
    match collision_cursor rest pos section st with
    | (_, _, _, Some sg) => vecObstacles sg = []
    | (_, _, _, None) => True
    end.
Proof.
  induction rest as [|sg rest IH]; intros pos section st Hb; simpl.
  - exact I.
  - simpl in Hb. apply andb_true_iff in Hb. destruct Hb as (H1 & H2).
    destruct (F32.ge pos (segDistance sg)).
    + apply IH, H2.
    + destruct (vecObstacles sg); [reflexivity | discriminate].
Qed.

Lemma bare_warning (track : list TrackSegment) :
  forall (acc pd : float), bare track = true -> warn_in_track track acc pd = None.
Proof.
  induction track as [|sg track IH]; intros acc pd Hb; simpl.
  - reflexivity.
  - simpl in Hb. apply andb_true_iff in Hb. destruct Hb as (H1 & H2).
    destruct (vecObstacles sg); [|discriminate]. simpl. apply IH, H2.
Qed.

Lemma Check_bare (w : World) :
  bare (vecTrack w) = true -> CheckObstacleCollision w = w.
Proof.
  intros Hb. unfold CheckObstacleCollision.
  destruct (_ || _); [reflexivity|].
  pose proof (bare_cursor (vecTrack w) (fDistance (player w)) 0 F32.zero Hb) as H.
  destruct (collision_cursor _ _ _ _) as [[[d i] s0] [sg|]]; [|reflexivity].
  rewrite H. reflexivity.
Qed.

Lemma PhysicsStep_crashed_flag (w : World) :
  bCrashed (player (PhysicsStep w)) = bCrashed (player w)
  /\ vecTrack (PhysicsStep w) = vecTrack w.
Proof.
  unfold PhysicsStep. destruct (GameState_eqb _ _); split; reflexivity.
Qed.

(** X16.  On a track without obstacles, which the track of map 1 is, the
    collision detector changes nothing and the warning scan raises no
    warning; an iteration of the physics thread crashes a vehicle only
    when its locked step has put it outside the road limits. *)
Theorem obstacle_free_track (w : World) :
  bare (vecTrack w) = true ->
  CheckObstacleCollision w = w
  /\ warnObstacle (ObstacleWarning w) = false
  /\ warnObstacle (PhysicsIteration w) = false
  /\ (bCrashed (player w) = false ->
      bCrashed (player (PhysicsIteration w)) = true ->
      off_road (fX_Register (player (PhysicsStep w))) = true)
  /\ bare (BuildTrackData 1) = true.
Proof.
  intros Hb.
  assert (Hw : forall v, vecTrack v = vecTrack w -> warnObstacle (ObstacleWarning v) = false).
  { intros v E. unfold ObstacleWarning.
    destruct (GameState_eqb _ _); [|reflexivity].
    rewrite bare_warning by (rewrite E; exact Hb). reflexivity. }
  destruct (PhysicsStep_crashed_flag w) as (Hc1 & Ht1).
  assert (Ht2 : vecTrack (EnforceBoundaryProtection (PhysicsStep w)) = vecTrack w).
  { rewrite Enforce_cases. destruct (_ && _); exact Ht1. }
  assert (Ech : CheckObstacleCollision (EnforceBoundaryProtection (PhysicsStep w))
                = EnforceBoundaryProtection (PhysicsStep w))
    by (apply Check_bare; rewrite Ht2; exact Hb).
  split; [apply Check_bare, Hb|].
  split; [apply Hw; reflexivity|].
  split; [unfold PhysicsIteration; apply Hw; rewrite Ech; exact Ht2|].
  split; [|reflexivity].
  intros Hnc Hc. unfold PhysicsIteration in Hc.
  rewrite Warning_player, Ech, Enforce_cases in Hc.
  destruct (off_road (fX_Register (player (PhysicsStep w)))); [reflexivity|].
  simpl in Hc. rewrite Hc1, Hnc in Hc. discriminate.
Qed.

Lemma obstacle_free_track_witness :
  CheckObstacleCollision cruise = cruise
  /\ warnObstacle (ObstacleWarning cruise) = false
  /\ warnObstacle (PhysicsIteration cruise) = false
  /\ (bCrashed (player cruise) = false ->
      bCrashed (player (PhysicsIteration cruise)) = true ->
      off_road (fX_Register (player (PhysicsStep cruise))) = true)
  /\ bare (BuildTrackData 1) = true.
Proof.
  exact (obstacle_free_track cruise eq_refl).
Defined.

(** *** The drawing utilities *)

Lemma length_store_at (n : nat) (c : Z) (s : list Z) :
  length (store_at n c s) = length s.
Proof.
  revert n. induction s as [|a s IH]; intros [|n]; simpl; try reflexivity.
  rewrite IH. reflexivity.
Qed.

Lemma nth_store_at (n k : nat) (c : Z) (s : list Z) :
  (n < length s)%nat ->
  nth k (store_at n c s) 0 = if Nat.eqb k n then c else nth k s 0.
Proof.
  revert n k. induction s as [|a s IH]; intros n k Hn; simpl in Hn.
  - lia.
  - destruct n as [|n]; destruct k as [|k]; simpl; try reflexivity.
    apply IH. lia.
Qed.

Lemma poke_spec (idx c : Z) (s : list Z) :
  0 <= idx < Z.of_nat (length s) ->
  exists s',
    poke idx c s = Some s'
    /\ length s' = length s
    /\ forall k, 0 <= k -> peek s' k = if k =? idx then c else peek s k.
Proof.
  intros H. unfold poke.
  replace ((0 <=? idx) && (idx <? Z.of_nat (length s))) with true
    by (symmetry; apply andb_true_iff; split;
        [apply Z.leb_le | apply Z.ltb_lt]; lia).
  eexists. split; [reflexivity|]. split; [apply length_store_at|].
  intros k Hk. unfold peek. rewrite nth_store_at by lia.
  destruct (Z.eqb_spec k idx) as [-> | Hne].
  - rewrite Nat.eqb_refl. reflexivity.
  - replace (Nat.eqb (Z.to_nat k) (Z.to_nat idx)) with false; [reflexivity|].
    symmetry. apply Nat.eqb_neq. lia.
Qed.

Ltac decide_tests :=
  repeat match goal with
         | |- context [?a =? ?b] => destruct (Z.eqb_spec a b)
         | |- context [?a <=? ?b] => destruct (Z.leb_spec a b)
         | |- context [?a <? ?b] => destruct (Z.ltb_spec a b)
         | |- context [?a >=? ?b] =>
             rewrite (Z.geb_leb a b); destruct (Z.leb_spec b a)
         end;
  cbn [andb orb negb].

Lemma string_from_spec (t : list Z) :
  forall (i : Z) (s : list Z) (x y : Z),
    frame_buffer s ->
    0 <= i ->
    -2147483648 <= x ->
    x + i + Z.of_nat (length t) <= 2147483648 ->
    exists s',
      string_from t i s x y = Some s'
      /\ frame_buffer s'
      /\ forall col row,
          on_screen col row ->
          cell_at s' col row
          = if (row =? y) && (x + i <=? col) && (col <? x + i + Z.of_nat (length t))
            then nth (Z.to_nat (col - x - i)) t 0
            else cell_at s col row.
Proof.
  unfold frame_buffer, on_screen, cell_at, nScreenWidth, nScreenHeight.
  induction t as [|c t IH]; intros i s x y Hs Hi Hx Hfit.
  - exists s. split; [reflexivity|]. split; [exact Hs|].
    intros col row _. simpl length. decide_tests; try reflexivity; lia.
  - cbn [string_from length]. cbn [length] in Hfit.
    rewrite Nat2Z.inj_succ in *.
    assert (Hf : int_fits (x + i) = true).
    { unfold int_fits. apply andb_true_iff. split; apply Z.leb_le; lia. }
    rewrite Hf. cbn [negb].
    unfold nScreenWidth, nScreenHeight.
    destruct ((x + i <? 0) || (x + i >=? 120)) eqn:Eout;
      [|destruct ((0 <=? y) && (y <? 30)) eqn:Erow].
    + destruct (IH (i + 1) s x y Hs ltac:(lia) Hx ltac:(lia)) as (s' & E & Hl & Hc).
      exists s'. split; [exact E|]. split; [exact Hl|].
      intros col row Hcr. rewrite (Hc col row Hcr).
      apply orb_true_iff in Eout.
      rewrite Z.geb_leb in Eout.
      rewrite Z.ltb_lt, Z.leb_le in Eout.
      decide_tests; try reflexivity; try lia.
      replace (Z.to_nat (col - x - i)) with (S (Z.to_nat (col - x - (i + 1)))) by lia.
      reflexivity.
    + apply andb_true_iff in Erow. rewrite Z.leb_le, Z.ltb_lt in Erow.
      apply orb_false_iff in Eout. rewrite Z.geb_leb in Eout.
      rewrite Z.ltb_ge, Z.leb_gt in Eout.
      destruct (poke_spec (y * 120 + (x + i)) c s ltac:(lia)) as (s1 & -> & Hl1 & Hp1).
      destruct (IH (i + 1) s1 x y ltac:(lia) ltac:(lia) Hx ltac:(lia))
        as (s' & E & Hl & Hc).
      exists s'. split; [exact E|]. split; [exact Hl|].
      intros col row Hcr. rewrite (Hc col row Hcr).
      rewrite (Hp1 (row * 120 + col)) by lia.
      decide_tests; try reflexivity; try lia.
      * replace (col - x - i) with 0 by lia. reflexivity.
      * replace (Z.to_nat (col - x - i)) with (S (Z.to_nat (col - x - (i + 1)))) by lia.
        reflexivity.
    + destruct (IH (i + 1) s x y Hs ltac:(lia) Hx ltac:(lia)) as (s' & E & Hl & Hc).
      exists s'. split; [exact E|]. split; [exact Hl|].
      intros col row Hcr. rewrite (Hc col row Hcr).
      apply andb_false_iff in Erow. rewrite Z.leb_gt, Z.ltb_ge in Erow.
      decide_tests; try reflexivity; try lia.
Qed.

Lemma box_columns_spec (n : nat) :
  forall (j : Z) (s : list Z) (x y w h i : Z),
    frame_buffer s ->
    0 <= j ->
    -2147483648 <= x ->
    x + j + Z.of_nat n <= 2147483648 ->
    -2147483648 <= y + i <= 2147483647 ->
    exists s',
      box_columns n j s x y w h i = Some s'
      /\ frame_buffer s'
      /\ forall col row,
          on_screen col row ->
          cell_at s' col row
          = if (row =? y + i) && (x + j <=? col) && (col <? x + j + Z.of_nat n)
            then box_glyph i (col - x) w h
            else cell_at s col row.
Proof.
  unfold frame_buffer, on_screen, cell_at, nScreenWidth, nScreenHeight.
  induction n as [|n IH]; intros j s x y w h i Hs Hj Hx Hfit Hy.
  - exists s. split; [reflexivity|]. split; [exact Hs|].
    intros col row _. cbn [Z.of_nat]. decide_tests; try reflexivity; lia.
  - cbn [box_columns].
    rewrite Nat2Z.inj_succ in *.
    assert (Hf : int_fits (x + j) && int_fits (y + i) = true).
    { unfold int_fits. repeat (apply andb_true_iff; split); apply Z.leb_le; lia. }
    rewrite Hf. cbn [negb].
    unfold nScreenWidth, nScreenHeight.
    destruct ((x + j <? 0) || (x + j >=? 120) || (y + i <? 0) || (y + i >=? 30))
      eqn:Eout.
    + destruct (IH (j + 1) s x y w h i Hs ltac:(lia) Hx ltac:(lia) Hy)
        as (s' & E & Hl & Hc).
      exists s'. split; [exact E|]. split; [exact Hl|].
      intros col row Hcr. rewrite (Hc col row Hcr).
      rewrite !orb_true_iff in Eout.
      rewrite !Z.geb_leb in Eout.
      rewrite !Z.ltb_lt, !Z.leb_le in Eout.
      decide_tests; try reflexivity; lia.
    + rewrite !orb_false_iff in Eout. rewrite !Z.geb_leb in Eout.
      rewrite !Z.ltb_ge, !Z.leb_gt in Eout.
      destruct (poke_spec ((y + i) * 120 + (x + j)) (box_glyph i j w h) s ltac:(lia))
        as (s1 & -> & Hl1 & Hp1).
      destruct (IH (j + 1) s1 x y w h i ltac:(lia) ltac:(lia) Hx ltac:(lia) Hy)
        as (s' & E & Hl & Hc).
      exists s'. split; [exact E|]. split; [exact Hl|].
      intros col row Hcr. rewrite (Hc col row Hcr).
      rewrite (Hp1 (row * 120 + col)) by lia.
      decide_tests; try reflexivity; try lia.
      replace (col - x) with j by lia. reflexivity.
Qed.

Lemma box_rows_spec (n : nat) :
  forall (i : Z) (s : list Z) (x y w h : Z),
    frame_buffer s ->
    0 <= i ->
    -2147483648 <= x <= 2147483647 ->
    x + w <= 2147483648 ->
    -2147483648 <= y ->
    y + i + Z.of_nat n <= 2147483648 ->
    exists s',
      box_rows n i s x y w h = Some s'
      /\ frame_buffer s'
      /\ forall col row,
          on_screen col row ->
          cell_at s' col row
          = if (y + i <=? row) && (row <? y + i + Z.of_nat n)
               && (x <=? col) && (col <? x + w)
            then box_glyph (row - y) (col - x) w h
            else cell_at s col row.
Proof.
  induction n as [|n IH]; intros i s x y w h Hs Hi Hx Hw Hy Hh.
  - exists s. split; [reflexivity|]. split; [exact Hs|].
    intros col row _. cbn [Z.of_nat]. decide_tests; try reflexivity; lia.
  - cbn [box_rows]. rewrite Nat2Z.inj_succ in *.
    destruct (box_columns_spec (Z.to_nat w) 0 s x y w h i Hs ltac:(lia)
                ltac:(lia) ltac:(lia) ltac:(lia)) as (s1 & -> & Hl1 & Hc1).
    destruct (IH (i + 1) s1 x y w h Hl1 ltac:(lia) Hx Hw Hy ltac:(lia))
      as (s' & E & Hl & Hc).
    exists s'. split; [exact E|]. split; [exact Hl|].
    intros col row Hcr. rewrite (Hc col row Hcr), (Hc1 col row Hcr).
    decide_tests; try reflexivity; try lia.
    replace (row - y) with i by lia. reflexivity.
Qed.

(** X17.  [KernelDrawBox] on a frame buffer, for every position and size
    whose sums fit an [int]: it returns, having stored inside the buffer
    only; the buffer keeps its size; every cell_at of the screen inside the
    rectangle holds the frame character of its row and column, and every
    other cell_at is as before.  A box that sticks out of the screen is
    clipped, not wrapped into the next row. *)
Theorem draw_box_stays_on_screen (s : list Z) (x y w h : Z) :
  frame_buffer s ->
  -2147483648 <= x <= 2147483647 ->
  -2147483648 <= y <= 2147483647 ->
  x + w <= 2147483648 ->
  y + h <= 2147483648 ->
  exists s',
    KernelDrawBox s x y w h = Some s'
    /\ frame_buffer s'
    /\ forall col row,
        on_screen col row ->
        cell_at s' col row
        = if (y <=? row) && (row <? y + h) && (x <=? col) && (col <? x + w)
          then box_glyph (row - y) (col - x) w h
          else cell_at s col row.
Proof.
  intros Hs Hx Hy Hw Hh. unfold KernelDrawBox.
  destruct (box_rows_spec (Z.to_nat h) 0 s x y w h Hs ltac:(lia) Hx Hw
              ltac:(lia) ltac:(lia)) as (s' & E & Hl & Hc).
  exists s'. split; [exact E|]. split; [exact Hl|].
  intros col row Hcr. rewrite (Hc col row Hcr).
  decide_tests; try reflexivity; lia.
Qed.

Lemma blank_screen_is_a_frame_buffer : frame_buffer blank_screen.
Proof. evaluate. Qed.

Lemma draw_box_stays_on_screen_witness :
  exists s',
    KernelDrawBox blank_screen 100 25 50 12 = Some s'
    /\ frame_buffer s'
    /\ forall col row,
        on_screen col row ->
        cell_at s' col row
        = if (25 <=? row) && (row <? 25 + 12) && (100 <=? col) && (col <? 100 + 50)
          then box_glyph (row - 25) (col - 100) 50 12
          else cell_at blank_screen col row.
Proof.
  apply (draw_box_stays_on_screen blank_screen 100 25 50 12
           blank_screen_is_a_frame_buffer); lia.
Defined.

(** X18.  [KernelDrawString] on a frame buffer, for every position whose
    sums fit an [int] and every text: it returns, having stored inside the
    buffer only; the buffer keeps its size; on the row of the text the
    cells from its column on hold its characters in order, and every other
    cell_at of the screen is as before.  Text that runs past the right edge
    is cut off there, text left of the screen loses its head, and a row
    outside the screen draws nothing. *)
Theorem draw_string_stays_on_row (s : list Z) (x y : Z) (t : list Z) :
  frame_buffer s ->
  -2147483648 <= x ->
  x + Z.of_nat (length t) <= 2147483648 ->
  exists s',
    KernelDrawString s x y t = Some s'
    /\ frame_buffer s'
    /\ forall col row,
        on_screen col row ->
        cell_at s' col row
        = if (row =? y) && (x <=? col) && (col <? x + Z.of_nat (length t))
          then nth (Z.to_nat (col - x)) t 0
          else cell_at s col row.
Proof.
  intros Hs Hx Hfit. unfold KernelDrawString.
  destruct (string_from_spec t 0 s x y Hs ltac:(lia) Hx ltac:(lia))
    as (s' & E & Hl & Hc).
  exists s'. split; [exact E|]. split; [exact Hl|].
  intros col row Hcr. rewrite (Hc col row Hcr).
  rewrite !Z.add_0_r, Z.sub_0_r. reflexivity.
Qed.

Lemma draw_string_stays_on_row_witness :
  exists s',
    KernelDrawString blank_screen 112 18 crashed_text = Some s'
    /\ frame_buffer s'
    /\ forall col row,
        on_screen col row ->
        cell_at s' col row
        = if (row =? 18) && (112 <=? col)
             && (col <? 112 + Z.of_nat (length crashed_text))
          then nth (Z.to_nat (col - 112)) crashed_text 0
          else cell_at blank_screen col row.
Proof.
  apply (draw_string_stays_on_row blank_screen 112 18 crashed_text
           blank_screen_is_a_frame_buffer); simpl; lia.
Defined.

(** *** The mini-map *)

Lemma segment_points_count (sinf cosf : float -> float) (fuel : nat) :
  forall (d : float) (sg : TrackSegment) (angle x y : float),
    match segment_points sinf cosf fuel d sg angle x y with
    | Some (pts, _) => segment_count fuel d (segDistance sg) = Some (length pts)
    | None => segment_count fuel d (segDistance sg) = None
    end.
Proof.
  induction fuel as [|fuel IH]; intros d sg angle x y; simpl.
  - destruct (F32.lt d (segDistance sg)); reflexivity.
  - destruct (F32.lt d (segDistance sg)); [|reflexivity].
    match goal with
    | |- context [segment_points sinf cosf fuel ?d' sg ?a ?x' ?y'] =>
        specialize (IH d' sg a x' y');
        destruct (segment_points sinf cosf fuel d' sg a x' y') as [[pts st]|]
    end; rewrite IH; reflexivity.
Qed.

Lemma track_points_count (sinf cosf : float -> float) (fuel : nat)
    (track : list TrackSegment) :
  forall (angle x y : float),
    match track_points sinf cosf fuel track angle x y with
    | Some pts => track_count fuel track = Some (length pts)
    | None => track_count fuel track = None
    end.
Proof.
  induction track as [|sg rest IH]; intros angle x y; simpl.
  - reflexivity.
  - pose proof (segment_points_count sinf cosf fuel F32.zero sg angle x y) as H.
    destruct (segment_points sinf cosf fuel F32.zero sg angle x y)
      as [[pts [[a x'] y']]|]; rewrite H; [|reflexivity].
    specialize (IH a x' y').
    destruct (track_points sinf cosf fuel rest a x' y') as [more|]; rewrite IH;
      [|reflexivity].
    rewrite length_app. reflexivity.
Qed.

Lemma segment_count_more_fuel (fuel : nat) :
  forall (d len : float) (n : nat),
    segment_count fuel d len = Some n ->
    forall fuel', (fuel <= fuel')%nat -> segment_count fuel' d len = Some n.
Proof.
  induction fuel as [|fuel IH]; intros d len n H fuel' Hle.
  - simpl in H. destruct (F32.lt d len) eqn:E; [discriminate|].
    destruct fuel'; simpl; rewrite E; exact H.
  - destruct fuel' as [|fuel']; [lia|].
    simpl in H |- *. destruct (F32.lt d len); [|exact H].
    destruct (segment_count fuel (F32.add d STEP) len) as [k|] eqn:E;
      [|discriminate].
    rewrite (IH _ _ _ E fuel') by lia. exact H.
Qed.

Lemma track_count_more_fuel (fuel fuel' : nat) (track : list TrackSegment) :
  (fuel <= fuel')%nat ->
  forall n, track_count fuel track = Some n -> track_count fuel' track = Some n.
Proof.
  intros Hle. induction track as [|sg rest IH]; intros n H; simpl in H |- *.
  - exact H.
  - destruct (segment_count fuel F32.zero (segDistance sg)) as [k|] eqn:E;
      [|discriminate].
    rewrite (segment_count_more_fuel _ _ _ _ E fuel' Hle).
    destruct (track_count fuel rest) as [j|]; [|discriminate].
    rewrite (IH j eq_refl). exact H.
Qed.

Lemma track_count_maps :
  track_count 250 (BuildTrackData 1) = Some 1000%nat
  /\ track_count 250 (BuildTrackData 2) = Some 1450%nat
  /\ track_count 250 (BuildTrackData 3) = Some 1630%nat.
Proof. repeat split; evaluate. Qed.

Lemma map_points_size (sinf cosf : float -> float) (fuel : nat) (id : Z) :
  1 <= id <= 3 ->
  (250 <= fuel)%nat ->
  exists pts,
    GenerateMapPoints sinf cosf fuel (BuildTrackData id) = Some pts
    /\ Z.of_nat (length pts)
       = (if id =? 1 then 1000 else if id =? 2 then 1450 else 1630).
Proof.
  intros Hid Hfuel. unfold GenerateMapPoints.
  pose proof (track_points_count sinf cosf fuel (BuildTrackData id)
                F32.zero F32.zero F32.zero) as H.
  destruct track_count_maps as (H1 & H2 & H3).
  assert (E : id = 1 \/ id = 2 \/ id = 3) by lia.
  destruct (track_points sinf cosf fuel (BuildTrackData id) F32.zero F32.zero F32.zero)
    as [pts|].
  - exists pts. split; [reflexivity|].
    destruct E as [-> | [-> | ->]];
      [ rewrite (track_count_more_fuel _ _ _ Hfuel _ H1) in H
      | rewrite (track_count_more_fuel _ _ _ Hfuel _ H2) in H
      | rewrite (track_count_more_fuel _ _ _ Hfuel _ H3) in H ];
      injection H as H; rewrite <- H; reflexivity.
  - exfalso.
    destruct E as [-> | [-> | ->]];
      [ rewrite (track_count_more_fuel _ _ _ Hfuel _ H1) in H
      | rewrite (track_count_more_fuel _ _ _ Hfuel _ H2) in H
      | rewrite (track_count_more_fuel _ _ _ Hfuel _ H3) in H ];
      discriminate H.
Qed.

(** X19.  Whatever [sinf] and [cosf] return, [GenerateMapPoints] comes to
    an end on each of the three tracks, the inner loop making at most 250
    passes per segment, and records one point per unit of track length:
    1000, 1450 and 1630 points, the number [LoadMap] computes as the
    track length. *)
Theorem map_has_a_point_per_unit (sinf cosf : float -> float) (fuel : nat) (id : Z) :
  1 <= id <= 3 ->
  (250 <= fuel)%nat ->
  exists pts,
    GenerateMapPoints sinf cosf fuel (BuildTrackData id) = Some pts
    /\ Z.of_nat (length pts)
       = (if id =? 1 then 1000 else if id =? 2 then 1450 else 1630)
    /\ F32.of_int (Z.of_nat (length pts)) = total_length (BuildTrackData id).
Proof.
  intros Hid Hfuel.
  destruct (map_points_size sinf cosf fuel id Hid Hfuel) as (pts & E & Hn).
  exists pts. split; [exact E|]. split; [exact Hn|].
  rewrite Hn.
  assert (C : id = 1 \/ id = 2 \/ id = 3) by lia.
  destruct C as [-> | [-> | ->]]; evaluate.
Qed.

Lemma map_has_a_point_per_unit_witness :
  exists pts,
    GenerateMapPoints (fun a => a) (fun a => a) 250 (BuildTrackData 2) = Some pts
    /\ Z.of_nat (length pts)
       = (if 2 =? 1 then 1000 else if 2 =? 2 then 1450 else 1630)
    /\ F32.of_int (Z.of_nat (length pts)) = total_length (BuildTrackData 2).
Proof.
  apply (map_has_a_point_per_unit (fun a => a) (fun a => a) 250 2); lia.
Defined.

Lemma reachable_reversed : reachable reversed.
Proof.
  unfold reversed. apply reachable_ticks.
  apply reach_input; [apply reachable_race_on | reflexivity].
Qed.

Lemma reversed_values :
  vecTrack (world reversed) = BuildTrackData 1
  /\ currentState (world reversed) = KERNEL_RUNNING
  /\ F32.le (fDistance (player (world reversed)))
       (fTotalTrackLength (world reversed)) = true
  /\ marker_index (fDistance (player (world reversed)))
       (fTotalTrackLength (world reversed)) 1000 = Some (-1).
Proof. repeat split; evaluate. Qed.

(** X20.  The index of the player marker on the mini-map is cut off at
    the last point but not at the first.  After a third of a second of
    braking from the start line of map 1, a machine the threads can
    reach while the race is on, the distance is negative and passes the
    guard of [DrawTrackView], the index is -1, and the marker reads
    [p[-1]], outside the points; the index of an obstacle mark, which is
    cut off at both ends, never leaves the points. *)
Theorem reversing_breaks_the_marker (sinf cosf : float -> float)
    (pts : list (float * float)) :
  GenerateMapPoints sinf cosf 250 (vecTrack (world reversed)) = Some pts ->
  reachable reversed
  /\ currentState (world reversed) = KERNEL_RUNNING
  /\ player_marker pts (fDistance (player (world reversed)))
       (fTotalTrackLength (world reversed)) = BadIndex (-1)
  /\ forall dist total idx,
      obstacle_marker_index dist total (Z.of_nat (length pts)) = Some idx ->
      0 <= idx < Z.of_nat (length pts).
Proof.
  intros Hp.
  destruct reversed_values as (Ht & Hs & Hle & Hidx).
  rewrite Ht in Hp.
  destruct (map_points_size sinf cosf 250 1 ltac:(lia) ltac:(lia)) as (pts' & E & Hn).
  rewrite Hp in E. injection E as <-. simpl in Hn.
  split; [apply reachable_reversed|]. split; [exact Hs|]. split.
  - unfold player_marker. rewrite Hle, Hn, Hidx. reflexivity.
  - intros dist total idx. unfold obstacle_marker_index.
    destruct (marker_index dist total _) as [i|]; intros H; [|discriminate H].
    injection H as <-. lia.
Qed.

Lemma reversing_breaks_the_marker_witness :
  exists pts,
    GenerateMapPoints (fun a => a) (fun a => a) 250 (vecTrack (world reversed))
    = Some pts
    /\ player_marker pts (fDistance (player (world reversed)))
         (fTotalTrackLength (world reversed)) = BadIndex (-1).
Proof.
  destruct (map_points_size (fun a => a) (fun a => a) 250 1 ltac:(lia) ltac:(lia))
    as (pts & E & _).
  exists pts.
  assert (E' : GenerateMapPoints (fun a => a) (fun a => a) 250
                 (vecTrack (world reversed)) = Some pts).
  { destruct reversed_values as (-> & _). exact E. }
  split; [exact E'|].
  apply (reversing_breaks_the_marker (fun a => a) (fun a => a) pts E').
Defined.
